(** * Trade-to-candle aggregation of the XIAN DEX chart

    A shallow embedding of the aggregation code of [ChartController]:
    [calculatePrice], [processSwapEvents] and [updateChartWithNewTrades].
    The repository holds three evolutions of the controller:
    - [src/unnamed/part_002]: the oldest one (30m/1h/4h/1d only), which
      filters unpriced trades and rounds interval starts on the UTC clock;
    - [src/chart.js]: epoch-aligned grouping, one candle per interval that
      holds a trade;
    - [src/unnamed/part_003]: the same grouping walked over a complete
      timeline up to [Date.now()], plus the live update.

    Around the aggregation the file also embeds the trade table and the
    trades modal (module [TradeHistory]), the timer of the live update
    (module [LiveUpdates]), the price loops of [fetchAllPairs] (module
    [Pairs]) and the state read from the query string (module
    [UrlState]).  The DOM, the chart library, the network and the printing
    of numbers ([toFixed]) are outside the model: a function is embedded
    from the parsed reply on and up to the values it hands over.

    Numbers.  Instants are epoch milliseconds ([Date.prototype.getTime]),
    modelled in [Z].  Amounts and prices are decimal quantities, modelled as
    exact rationals [Q]; JavaScript's [null] is [None], and a [NaN] volume is
    kept as [NaN].  Exact rationals leave out what rounding does: a sum of
    doubles depends on the order of its terms, and a price can overflow to
    [Infinity], underflow to [0] or be [NaN]; a property that holds in
    exact arithmetic only says so.  For what depends on those doubles,
    [calculatePrice] (module [Binary64]) and the candle part of the three
    [processSwapEvents] (module [Candles64]) are transcribed over IEEE
    binary64 as well.

    Ambient state.  The source reads the interval width and the inversion
    flag from the controller and the clock from [Date.now()]; here they are
    arguments.  The colours of the volume bars are read from the page's
    theme on every call; the walk names them by the locals that hold them,
    and module [Page] puts the strings in.  The width is one of
    [timeframes]; for those the loops of the model make exactly the rounds
    the source's loops make. *)

From Stdlib Require Import ZArith QArith Qminmax Qround List Bool Lia Permutation Sorted.
From Stdlib Require Floats.
From Stdlib Require String.
Import ListNotations.

Local Open Scope Z_scope.

(** ** Trade records *)

(** One amount field of a swap's [data] object as the query service
    delivers it.  Over exact rationals [Decimal q] is a value that
    [parseFloat] reads as the finite number [q].  Module [Candles64] keeps
    the double instead: there the reading of a field is a parameter, and
    may be any double, [Infinity] included. *)
Inductive RawAmount : Type :=
| Absent              (* undefined, null or the empty string: falsy *)
| Unparsable          (* a truthy value that parseFloat maps to NaN *)
| Decimal (q : Q).    (* a number, or a numeric string *)

Record SwapData : Type := {
  amount0In : RawAmount;
  amount0Out : RawAmount;
  amount1In : RawAmount;
  amount1Out : RawAmount
}.

(** The objects built by [fetchSwapEvents]/[fetchNewTrades]: [timestamp] is
    [new Date(created + 'Z').getTime()], [data] the parsed swap payload.  The
    identity fields (caller, signer, txHash, timestampStr) are carried along
    untouched by the aggregation and are left out. *)
Record Trade : Type := {
  timestamp : Z;
  data : SwapData
}.

(** A JavaScript number that may be [NaN] (only volumes can be). *)
Inductive JsNumber : Type :=
| NaN
| Num (q : Q).

(** [a + b], without rounding when both are numbers. *)
Definition js_add (a b : JsNumber) : JsNumber :=
  match a, b with
  | Num x, Num y => Num (x + y)
  | _, _ => NaN
  end.

(** [parseFloat(x) || 0] *)
Definition parseFloat_or_0 (a : RawAmount) : Q :=
  match a with
  | Decimal q => q
  | Absent | Unparsable => 0
  end.

(** [parseFloat(x || 0)] *)
Definition parseFloat_of_or_0 (a : RawAmount) : JsNumber :=
  match a with
  | Decimal q => Num q
  | Absent => Num 0
  | Unparsable => NaN
  end.

(** [x > y] and [x >= y] on numbers. *)
Definition Qgtb (x y : Q) : bool := negb (Qle_bool x y).
Definition Qgeb (x y : Q) : bool := Qle_bool y x.

(** ToNumber of a price slot: [null] coerces to [0]. *)
Definition toNumber (v : option Q) : Q :=
  match v with
  | Some q => q
  | None => 0
  end.

(** ** calculatePrice (identical in the three files) *)

(** The local [price] before the inversion test. *)
Definition basePrice (swapData : SwapData) : option Q :=
  let amount0In := parseFloat_or_0 (amount0In swapData) in
  let amount0Out := parseFloat_or_0 (amount0Out swapData) in
  let amount1In := parseFloat_or_0 (amount1In swapData) in
  let amount1Out := parseFloat_or_0 (amount1Out swapData) in
  if Qgtb amount0Out 0 && Qgtb amount1In 0 then Some (amount1In / amount0Out)%Q
  else if Qgtb amount0In 0 && Qgtb amount1Out 0 then Some (amount1Out / amount0In)%Q
  else None.

Definition calculatePrice (isInverted : bool) (swapData : SwapData) : option Q :=
  match basePrice swapData with
  | Some price => if isInverted then Some (1 / price)%Q else Some price
  | None => None
  end.

(** ** Array.prototype.sort with a numeric comparator

    [arr.sort((a, b) => key(a) - key(b))]: ascending and stable. *)
Section Sort.
Context {A : Type} (key : A -> Z).

Fixpoint insertBy (x : A) (l : list A) : list A :=
  match l with
  | [] => [x]
  | y :: r => if key x <=? key y then x :: l else y :: insertBy x r
  end.

Fixpoint sortBy (l : list A) : list A :=
  match l with
  | [] => []
  | x :: r => insertBy x (sortBy r)
  end.

(** The order the comparator sorts by. *)
Definition key_le (a b : A) : Prop := key a <= key b.

End Sort.

(** ** The interval map

    [tradesByInterval] is a [Map] from interval start to the array of its
    trades; keys keep their insertion order. *)
Definition IntervalMap : Type := list (Z * list Trade).

Fixpoint map_get (m : IntervalMap) (key : Z) : option (list Trade) :=
  match m with
  | [] => None
  | (k, trades) :: rest => if k =? key then Some trades else map_get rest key
  end.

(** [if (!m.has(key)) m.set(key, []); m.get(key).push(trade)] *)
Fixpoint map_push (key : Z) (trade : Trade) (m : IntervalMap) : IntervalMap :=
  match m with
  | [] => [(key, [trade])]
  | (k, trades) :: rest =>
      if k =? key then (k, trades ++ [trade]) :: rest
      else (k, trades) :: map_push key trade rest
  end.

Definition map_keys (m : IntervalMap) : list Z := map fst m.

(** [tradesByInterval.get(time) || []] *)
Definition get_or_empty (m : IntervalMap) (time : Z) : list Trade :=
  match map_get m time with
  | Some trades => trades
  | None => []
  end.

(** ** Chart records *)

Record Candle : Type := {
  time : Z;
  open : option Q;
  high : option Q;
  low : option Q;
  close : option Q;
  tradeCount : nat
}.

(** The three colours a volume bar can take; the strings behind the first two
    come from the theme ([--buy-color], [--sell-color]). *)
Inductive VolumeColor : Type :=
| volumeUpColor
| volumeDownColor
| emptyColor.       (* '#80808040' *)

Record VolumeBar : Type := {
  bar_time : Z;
  value : JsNumber;
  color : VolumeColor
}.

Record ChartData : Type := {
  candles : list Candle;
  volumes : list VolumeBar
}.

Definition noData : ChartData := {| candles := []; volumes := [] |}.

(** The state the interval loop threads: the two output arrays and
    [previousClose]. *)
Record Walk : Type := {
  w_candles : list Candle;
  w_volumes : list VolumeBar;
  previousClose : option Q
}.

Definition walk_start : Walk :=
  {| w_candles := []; w_volumes := []; previousClose := None |}.

Definition chartData_of (w : Walk) : ChartData :=
  {| candles := w_candles w; volumes := w_volumes w |}.

(** ** The parts shared by [chart.js] and [part_003] *)
Section Processing.
Variable minutes : Z.          (* this.currentTimeframe.minutes *)
Variable isInverted : bool.    (* this.isInverted *)

Definition intervalMs : Z := minutes * 60 * 1000.

(** [Math.floor(trade.timestamp.getTime() / intervalMs) * intervalMs] *)
Definition intervalKey (t : Z) : Z := t / intervalMs * intervalMs.

Definition groupByInterval (tradeEvents : list Trade) : IntervalMap :=
  fold_left (fun m trade => map_push (intervalKey (timestamp trade)) trade m)
            tradeEvents [].

(** The body of [trades.forEach] inside one interval ([chart.js] 1154-1161,
    [part_003] 1352-1359).  [Math.max] and [Math.min] read a [null] slot
    as 0. *)
Definition scanTrade (acc : option Q * option Q * JsNumber) (trade : Trade)
  : option Q * option Q * JsNumber :=
  let '(high, low, volume) := acc in
  match calculatePrice isInverted (data trade) with
  | Some price =>
      (Some (Qmax (toNumber high) price),
       Some (Qmin (toNumber low) price),
       js_add volume (js_add (parseFloat_of_or_0 (amount1In (data trade)))
                             (parseFloat_of_or_0 (amount1Out (data trade)))))
  | None => acc
  end.

(** The branch [trades.length > 0], for [trades = first :: others]
    ([chart.js] 1146-1180, [part_003] 1344-1385, alike but for logging).
    [close >= open] reads [null] as 0. *)
Definition pushTradeCandle (time_s : Z) (first : Trade) (others : list Trade)
           (w : Walk) : Walk :=
  let trades := first :: others in
  let open :=
    match previousClose w with
    | Some c => Some c
    | None => calculatePrice isInverted (data first)
    end in
  let '(high, low, volume) := fold_left scanTrade trades (open, open, Num 0) in
  let close := calculatePrice isInverted (data (last trades first)) in
  {| w_candles := w_candles w ++
       [ {| time := time_s; open := open; high := high; low := low;
            close := close; tradeCount := length trades |} ];
     w_volumes := w_volumes w ++
       [ {| bar_time := time_s; value := volume;
            color := if Qgeb (toNumber close) (toNumber open)
                     then volumeUpColor else volumeDownColor |} ];
     previousClose := close |}.

(** The flat candle of an interval without trades ([chart.js] 1184-1197,
    [part_003] 1389-1402). *)
Definition pushFlatCandle (time_s : Z) (price : Q) (w : Walk) : Walk :=
  {| w_candles := w_candles w ++
       [ {| time := time_s; open := Some price; high := Some price;
            low := Some price; close := Some price; tradeCount := 0 |} ];
     w_volumes := w_volumes w ++
       [ {| bar_time := time_s; value := Num 0; color := emptyColor |} ];
     previousClose := previousClose w |}.

End Processing.

(** ** [src/chart.js] *)
Module ChartJs.
Section ProcessSwapEvents.
Variable minutes : Z.
Variable isInverted : bool.

(** The callback of [intervalTimestamps.forEach]. *)
Definition visitInterval (tradesByInterval : IntervalMap) (w : Walk) (time : Z) : Walk :=
  let time_s := time / 1000 in
  match get_or_empty tradesByInterval time with
  | first :: others => pushTradeCandle isInverted time_s first others w
  | [] =>
      match previousClose w with
      | Some c => pushFlatCandle time_s c w
      | None => w
      end
  end.

Definition processSwapEvents (tradeEvents : list Trade) : ChartData :=
  match tradeEvents with
  | [] => noData
  | _ :: _ =>
      let tradeEvents := sortBy timestamp tradeEvents in
      let tradesByInterval := groupByInterval minutes tradeEvents in
      let intervalTimestamps := sortBy (fun k => k) (map_keys tradesByInterval) in
      chartData_of
        (fold_left (visitInterval tradesByInterval) intervalTimestamps walk_start)
  end.

(** [processSwapEvents] sorts its argument in place: the result together with
    the array the caller is left with. *)
Definition processSwapEvents_call (tradeEvents : list Trade)
  : ChartData * list Trade :=
  (processSwapEvents tradeEvents, sortBy timestamp tradeEvents).

End ProcessSwapEvents.
End ChartJs.

(** ** [src/unnamed/part_003] *)
Module Part003.
Section ProcessSwapEvents.
Variable minutes : Z.
Variable isInverted : bool.
Variable currentTime : Z.      (* Date.now() *)

(** [for (let time = from; time <= currentInterval; time += intervalMs)],
    listing the values [time] takes.  The loop stops on its condition;
    [timeline] hands it as many rounds as it can use. *)
Fixpoint timeline_loop (rounds : nat) (time currentInterval : Z) : list Z :=
  match rounds with
  | O => []
  | S n =>
      if time <=? currentInterval
      then time :: timeline_loop n (time + intervalMs minutes) currentInterval
      else []
  end.

Definition timeline (from currentInterval : Z) : list Z :=
  timeline_loop (Z.to_nat ((currentInterval - from) / intervalMs minutes + 1))
                from currentInterval.

(** The look-ahead of an empty interval met before any close is known: the
    price of the first trade of the next interval that has trades. *)
Fixpoint lookAhead (tradesByInterval : IntervalMap) (futureTimes : list Z) : option Q :=
  match futureTimes with
  | [] => None
  | futureTime :: later =>
      match map_get tradesByInterval futureTime with
      | Some (trade :: _) => calculatePrice isInverted (data trade)
      | _ => lookAhead tradesByInterval later
      end
  end.

(** The callback of [completeTimeline.forEach]. *)
Definition visitInterval (tradesByInterval : IntervalMap) (currentInterval : Z)
           (w : Walk) (time : Z) : Walk :=
  let time_s := time / 1000 in
  match get_or_empty tradesByInterval time with
  | first :: others => pushTradeCandle isInverted time_s first others w
  | [] =>
      match previousClose w with
      | Some c => pushFlatCandle time_s c w
      | None =>
          match lookAhead tradesByInterval
                          (timeline (time + intervalMs minutes) currentInterval) with
          | Some firstPrice =>
              let w' := pushFlatCandle time_s firstPrice w in
              {| w_candles := w_candles w'; w_volumes := w_volumes w';
                 previousClose := Some firstPrice |}
          | None => w
          end
      end
  end.

Definition processSwapEvents (tradeEvents : list Trade) : ChartData :=
  match sortBy timestamp tradeEvents with
  | [] => noData
  | (earliest :: _) as tradeEvents =>
      let tradesByInterval := groupByInterval minutes tradeEvents in
      let firstInterval := intervalKey minutes (timestamp earliest) in
      let currentInterval := intervalKey minutes currentTime in
      let completeTimeline := timeline firstInterval currentInterval in
      chartData_of
        (fold_left (visitInterval tradesByInterval currentInterval)
                   completeTimeline walk_start)
  end.

Definition processSwapEvents_call (tradeEvents : list Trade)
  : ChartData * list Trade :=
  (processSwapEvents tradeEvents, sortBy timestamp tradeEvents).

(** The controller fields the live update touches: the known trades and what
    the two chart series currently show ([None] before the first [setData]). *)
Record Controller : Type := {
  rawTrades : list Trade;
  series : option ChartData
}.

Definition publish (chartData : ChartData) (rawTrades : list Trade)
           (c : Controller) : Controller :=
  match candles chartData with
  | [] => {| rawTrades := rawTrades; series := series c |}
  | _ :: _ => {| rawTrades := rawTrades; series := Some chartData |}
  end.

(** [fetchSwapEvents] for the rows [edges] the query returned: it stores them
    as fetched and aggregates a sorted copy. *)
Definition fetchSwapEvents (edges : list Trade) : ChartData :=
  match edges with
  | [] => noData
  | _ :: _ => processSwapEvents (sortBy timestamp edges)
  end.

(** [loadChartData]: a result without candles raises 'No data available' and
    leaves both series as they were. *)
Definition loadChartData (edges : list Trade) (c : Controller) : Controller :=
  publish (fetchSwapEvents edges) edges c.

Definition updateChartWithNewTrades (newTrades : list Trade) (c : Controller)
  : Controller :=
  match newTrades with
  | [] => c
  | _ :: _ =>
      let rawTrades := sortBy timestamp (rawTrades c ++ newTrades) in
      let allTrades := sortBy timestamp rawTrades in
      publish (processSwapEvents allTrades) rawTrades c
  end.

End ProcessSwapEvents.
End Part003.

(** ** [src/unnamed/part_002], the oldest evolution *)
Module Part002.

(** The entries of the local array [trades]: only priced trades get one. *)
Record PricedTrade : Type := {
  pt_timestamp : Z;
  price : Q;
  volume : Q
}.

(** [(parseFloat(a || 0) + parseFloat(b || 0)) || 1]: a zero or NaN sum
    counts as 1. *)
Definition volume_or_1 (swapData : SwapData) : Q :=
  match js_add (parseFloat_of_or_0 (amount1In swapData))
               (parseFloat_of_or_0 (amount1Out swapData)) with
  | Num v => if Qeq_bool v 0 then 1%Q else v
  | NaN => 1%Q
  end.

(** [Math.max(...xs)] and [Math.min(...xs)] for [xs = x :: rest]. *)
Definition maxOf (x : Q) (rest : list Q) : Q := fold_left Qmax rest x.
Definition minOf (x : Q) (rest : list Q) : Q := fold_left Qmin rest x.
Definition minOfZ (x : Z) (rest : list Z) : Z := fold_left Z.min rest x.

Section ProcessSwapEvents.
Variable intervalMinutes : Z.  (* this.currentTimeframe.minutes *)
Variable isInverted : bool.
Variable currentTime : Z.      (* new Date() *)

Definition pricedTrades (tradeEvents : list Trade) : list PricedTrade :=
  flat_map (fun trade =>
              match calculatePrice isInverted (data trade) with
              | Some price =>
                  [ {| pt_timestamp := timestamp trade; price := price;
                       volume := volume_or_1 (data trade) |} ]
              | None => []
              end) tradeEvents.

(** [d.setUTCMinutes(Math.floor(d.getUTCMinutes() / intervalMinutes) *
    intervalMinutes, 0, 0)]: the hour of [d] is kept, its minutes are rounded
    down to a multiple of the width, seconds and milliseconds are cleared. *)
Definition roundToInterval (d : Z) : Z :=
  let hourStart := d / 3600000 * 3600000 in
  let utcMinutes := (d / 60000) mod 60 in
  hourStart + utcMinutes / intervalMinutes * intervalMinutes * 60000.

(** [while (intervalTime <= endDate)], with the rounds it can use. *)
Fixpoint intervals_loop (rounds : nat) (intervalTime endDate : Z) : list Z :=
  match rounds with
  | O => []
  | S n =>
      if intervalTime <=? endDate
      then intervalTime
             :: intervals_loop n (intervalTime + intervalMinutes * 60000) endDate
      else []
  end.

Definition intervals (startInterval endDate : Z) : list Z :=
  intervals_loop
    (Z.to_nat ((endDate - startInterval) / (intervalMinutes * 60000) + 1))
    startInterval endDate.

(** One round of [for (let i = 0; i < intervals.length; i++)]. *)
Definition visitInterval (trades : list PricedTrade) (isFirst : bool) (w : Walk)
           (intervalStart : Z) : Walk :=
  let intervalEnd := intervalStart + intervalMinutes * 60000 in
  let tradesInInterval :=
    filter (fun t => (intervalStart <=? pt_timestamp t)
                     && (pt_timestamp t <? intervalEnd)) trades in
  let time_s := intervalStart / 1000 in
  let totalVolume := fold_left (fun sum t => (sum + volume t)%Q) tradesInInterval 0%Q in
  let prices := map price tradesInInterval in
  match isFirst, prices, previousClose w with
  | true, p :: ps, _ =>
      let close := last prices p in
      {| w_candles := w_candles w ++
           [ {| time := time_s; open := Some p; high := Some (maxOf p ps);
                low := Some (minOf p ps); close := Some close;
                tradeCount := length tradesInInterval |} ];
         w_volumes := w_volumes w ++
           [ {| bar_time := time_s; value := Num totalVolume;
                color := if Qgeb close p then volumeUpColor else volumeDownColor |} ];
         previousClose := Some close |}
  | _, _, None => w
  | _, p :: ps, Some open =>
      let close := last prices p in
      {| w_candles := w_candles w ++
           [ {| time := time_s; open := Some open; high := Some (maxOf open prices);
                low := Some (minOf open prices); close := Some close;
                tradeCount := length tradesInInterval |} ];
         w_volumes := w_volumes w ++
           [ {| bar_time := time_s; value := Num totalVolume;
                color := if Qgeb close open then volumeUpColor else volumeDownColor |} ];
         previousClose := Some close |}
  | _, [], Some c => pushFlatCandle time_s c w
  end.

(** [None] is the TypeError of [intervals[0].toISOString()] on an empty
    interval list, which [fetchSwapEvents] catches. *)
Definition processSwapEvents (tradeEvents : list Trade) : option ChartData :=
  match pricedTrades tradeEvents with
  | [] => Some noData
  | (t :: ts) as trades =>
      let startDate := minOfZ (pt_timestamp t) (map pt_timestamp ts) in
      let endDate := roundToInterval currentTime in
      let startInterval := roundToInterval startDate in
      match intervals startInterval endDate with
      | [] => None
      | first :: later =>
          Some (chartData_of
                  (fold_left (visitInterval trades false) later
                             (visitInterval trades true walk_start first)))
      end
  end.

End ProcessSwapEvents.
End Part002.

(** ** [calculatePrice] over IEEE binary64

    The same function on the doubles [parseFloat] returns, for what exact
    rationals cannot show: underflow to [0] and the [Infinity] of [1 / 0]. *)
Module Binary64.
Import Floats.

(** [x || 0]: [NaN] and both zeros are falsy. *)
Definition or_0 (x : float) : float :=
  if PrimFloat.is_nan x || PrimFloat.is_zero x then 0%float else x.

(** [x > 0] *)
Definition gt_0 (x : float) : bool := PrimFloat.ltb 0%float x.

Definition calculatePrice (isInverted : bool)
           (amount0In amount0Out amount1In amount1Out : float) : option float :=
  let amount0In := or_0 amount0In in
  let amount0Out := or_0 amount0Out in
  let amount1In := or_0 amount1In in
  let amount1Out := or_0 amount1Out in
  let price :=
    if gt_0 amount0Out && gt_0 amount1In then Some (amount1In / amount0Out)%float
    else if gt_0 amount0In && gt_0 amount1Out then Some (amount1Out / amount0In)%float
    else None in
  match price with
  | Some price => if isInverted then Some (1 / price)%float else Some price
  | None => None
  end.

(** The guarded inversion of the trade table ([updateTradeHistory]):
    [let price = 0; ...; if (this.isInverted && price > 0) price = 1 / price]. *)
Definition tradeHistoryPrice (isInverted : bool)
           (amount0In amount0Out amount1In amount1Out : float) : float :=
  let amount0In := or_0 amount0In in
  let amount0Out := or_0 amount0Out in
  let amount1In := or_0 amount1In in
  let amount1Out := or_0 amount1Out in
  let price :=
    if gt_0 amount0Out && gt_0 amount1In then (amount1In / amount0Out)%float
    else if gt_0 amount0In && gt_0 amount1Out then (amount1Out / amount0In)%float
    else 0%float in
  if isInverted && gt_0 price then (1 / price)%float else price.

(** Sample amounts: what [parseFloat] returns for "0", "3" and "5e-324" (the
    least positive double). *)
Definition zero : float := 0%float.
Definition three : float := 3%float.
Definition least_positive : float := 0x1p-1074%float.

End Binary64.

(** ** Configuration *)

(** [this.timeframes] of [chart.js] and [part_003], in minutes. *)
Definition timeframes : list Z := [5; 10; 15; 30; 60; 240; 1440].

(** ** What the properties speak about *)

(** A trade [calculatePrice] can price. *)
Definition priced (trade : Trade) : Prop :=
  exists p, basePrice (data trade) = Some p.

(** Two candles of one interval whose highs and lows are each other's
    reciprocals, crosswise. *)
Definition high_low_swapped (inverted plain : Candle) : Prop :=
  time inverted = time plain /\
  exists hi li hn ln,
    high inverted = Some hi /\ low inverted = Some li /\
    high plain = Some hn /\ low plain = Some ln /\
    (hi == 1 / ln)%Q /\ (li == 1 / hn)%Q.

(** The carried close of the inverted run is the reciprocal of the plain one. *)
Definition close_swapped (inverted plain : option Q) : Prop :=
  match inverted, plain with
  | None, None => True
  | Some a, Some b => (0 < b)%Q /\ (a == 1 / b)%Q
  | _, _ => False
  end.

(** The invariant relating the inverted walk to the plain walk. *)
Definition walk_swapped (inverted plain : Walk) : Prop :=
  Forall2 high_low_swapped (w_candles inverted) (w_candles plain) /\
  close_swapped (previousClose inverted) (previousClose plain).

(** A candle with four prices, open and close between low and high. *)
Definition ohlc_bounded (c : Candle) : Prop :=
  exists o h l cl,
    open c = Some o /\ high c = Some h /\ low c = Some l /\ close c = Some cl /\
    (l <= o <= h)%Q /\ (l <= cl <= h)%Q.

(** The close the next candle would carry forward. *)
Definition end_close (prev : option Q) (cs : list Candle) : option Q :=
  fold_left (fun _ c => close c) cs prev.

(** Every candle opens at the close before it, if there is one. *)
Fixpoint chained (prev : option Q) (cs : list Candle) : Prop :=
  match cs with
  | [] => True
  | c :: rest =>
      match prev with
      | Some p => open c = Some p
      | None => True
      end /\ chained (close c) rest
  end.

(** The invariant of a walk over priced trades. *)
Definition sound_walk (w : Walk) : Prop :=
  Forall ohlc_bounded (w_candles w) /\
  chained None (w_candles w) /\
  previousClose w = end_close None (w_candles w).

(** The volume bar pushed together with a candle: the same time; for a
    candle without trades a zero bar in the empty colour, otherwise the up
    colour when [close >= open] and the down colour when not. *)
Definition bar_of_candle (c : Candle) (v : VolumeBar) : Prop :=
  bar_time v = time c /\
  match tradeCount c with
  | O => value v = Num 0 /\ color v = emptyColor
  | S _ =>
      color v = if Qgeb (toNumber (close c)) (toNumber (open c))
                then volumeUpColor else volumeDownColor
  end.

(** A callback that, visiting the interval starting at [t] ms, pushes no
    candle or one candle stamped [t / 1000]. *)
Definition emits_at_most_one (visit : Walk -> Z -> Walk) : Prop :=
  forall w t,
    w_candles (visit w t) = w_candles w \/
    exists c, w_candles (visit w t) = w_candles w ++ [c] /\ time c = t / 1000.

(** [calculatePrice(...) !== null], which does not depend on the inversion
    flag. *)
Definition has_price (trade : Trade) : bool :=
  match basePrice (data trade) with
  | Some _ => true
  | None => false
  end.

(** [this.timeframes] of [part_002], in minutes. *)
Definition legacy_timeframes : list Z := [30; 60; 240; 1440].

(** ** The candle walk over IEEE binary64

    The candle part of the three [processSwapEvents] with every price a
    double, for what exact rationals leave out: a price that is [Infinity],
    that underflowed to [0], or that is [NaN].  Sorting, grouping and the
    timelines go by timestamps only and are the ones above.  [toDouble] is
    the double [parseFloat] returns for a decimal amount; the walk is defined
    for any such function, so also for one that takes a decimal too large
    for a double to [Infinity].  The volume bars are left out of this
    module. *)
Module Candles64.
Import Floats.

(** [Math.max(a, b)]: [NaN] if either is, and [+0] counts as larger than
    [-0]. *)
Definition js_max (a b : float) : float :=
  if PrimFloat.is_nan a || PrimFloat.is_nan b then PrimFloat.nan
  else if PrimFloat.ltb a b then b
  else if PrimFloat.ltb b a then a
  else if PrimFloat.get_sign a then b else a.

(** [Math.min(a, b)] *)
Definition js_min (a b : float) : float :=
  if PrimFloat.is_nan a || PrimFloat.is_nan b then PrimFloat.nan
  else if PrimFloat.ltb a b then a
  else if PrimFloat.ltb b a then b
  else if PrimFloat.get_sign a then a else b.

(** ToNumber of a price slot: [null] coerces to [0]. *)
Definition toNumber (v : option float) : float :=
  match v with
  | Some x => x
  | None => PrimFloat.zero
  end.

Record Candle : Type := {
  time : Z;
  open : option float;
  high : option float;
  low : option float;
  close : option float;
  tradeCount : nat
}.

Record Walk : Type := {
  w_candles : list Candle;
  previousClose : option float
}.

Definition walk_start : Walk := {| w_candles := []; previousClose := None |}.

(** [Math.max(...xs)] and [Math.min(...xs)] for [xs = x :: rest]. *)
Definition maxOf (x : float) (rest : list float) : float := fold_left js_max rest x.
Definition minOf (x : float) (rest : list float) : float := fold_left js_min rest x.

(** The entries of the local array [trades] of [part_002]. *)
Record PricedTrade : Type := {
  pt_timestamp : Z;
  price : float
}.

Section Walk.
Variable toDouble : Q -> float.
Variable minutes : Z.          (* this.currentTimeframe.minutes *)
Variable isInverted : bool.    (* this.isInverted *)
Variable currentTime : Z.      (* Date.now() *)

(** [parseFloat(x)] *)
Definition parseFloat (a : RawAmount) : float :=
  match a with
  | Decimal q => toDouble q
  | Absent | Unparsable => PrimFloat.nan
  end.

Definition calculatePrice (swapData : SwapData) : option float :=
  Binary64.calculatePrice isInverted
    (parseFloat (amount0In swapData)) (parseFloat (amount0Out swapData))
    (parseFloat (amount1In swapData)) (parseFloat (amount1Out swapData)).

(** The body of [trades.forEach] inside one interval, without the volume. *)
Definition scanTrade (acc : option float * option float) (trade : Trade)
  : option float * option float :=
  let '(high, low) := acc in
  match calculatePrice (data trade) with
  | Some price =>
      (Some (js_max (toNumber high) price), Some (js_min (toNumber low) price))
  | None => acc
  end.

(** The branch [trades.length > 0], for [trades = first :: others]. *)
Definition pushTradeCandle (time_s : Z) (first : Trade) (others : list Trade)
           (w : Walk) : Walk :=
  let trades := first :: others in
  let open :=
    match previousClose w with
    | Some c => Some c
    | None => calculatePrice (data first)
    end in
  let '(high, low) := fold_left scanTrade trades (open, open) in
  let close := calculatePrice (data (last trades first)) in
  {| w_candles := w_candles w ++
       [ {| time := time_s; open := open; high := high; low := low;
            close := close; tradeCount := length trades |} ];
     previousClose := close |}.

(** The flat candle of an interval without trades. *)
Definition pushFlatCandle (time_s : Z) (price : float) (w : Walk) : Walk :=
  {| w_candles := w_candles w ++
       [ {| time := time_s; open := Some price; high := Some price;
            low := Some price; close := Some price; tradeCount := 0 |} ];
     previousClose := previousClose w |}.

(** [chart.js]: the callback of [intervalTimestamps.forEach]. *)
Definition chartjs_visitInterval (tradesByInterval : IntervalMap) (w : Walk)
           (time : Z) : Walk :=
  let time_s := time / 1000 in
  match get_or_empty tradesByInterval time with
  | first :: others => pushTradeCandle time_s first others w
  | [] =>
      match previousClose w with
      | Some c => pushFlatCandle time_s c w
      | None => w
      end
  end.

Definition chartjs_processSwapEvents (tradeEvents : list Trade) : list Candle :=
  match tradeEvents with
  | [] => []
  | _ :: _ =>
      let tradeEvents := sortBy timestamp tradeEvents in
      let tradesByInterval := groupByInterval minutes tradeEvents in
      let intervalTimestamps := sortBy (fun k => k) (map_keys tradesByInterval) in
      w_candles
        (fold_left (chartjs_visitInterval tradesByInterval) intervalTimestamps
                   walk_start)
  end.

(** [part_003]: the look-ahead of an empty interval met before any close is
    known. *)
Fixpoint lookAhead (tradesByInterval : IntervalMap) (futureTimes : list Z)
  : option float :=
  match futureTimes with
  | [] => None
  | futureTime :: later =>
      match map_get tradesByInterval futureTime with
      | Some (trade :: _) => calculatePrice (data trade)
      | _ => lookAhead tradesByInterval later
      end
  end.

(** [part_003]: the callback of [completeTimeline.forEach]. *)
Definition part003_visitInterval (tradesByInterval : IntervalMap)
           (currentInterval : Z) (w : Walk) (time : Z) : Walk :=
  let time_s := time / 1000 in
  match get_or_empty tradesByInterval time with
  | first :: others => pushTradeCandle time_s first others w
  | [] =>
      match previousClose w with
      | Some c => pushFlatCandle time_s c w
      | None =>
          match lookAhead tradesByInterval
                          (Part003.timeline minutes (time + intervalMs minutes)
                                            currentInterval) with
          | Some firstPrice =>
              {| w_candles := w_candles (pushFlatCandle time_s firstPrice w);
                 previousClose := Some firstPrice |}
          | None => w
          end
      end
  end.

Definition part003_processSwapEvents (tradeEvents : list Trade) : list Candle :=
  match sortBy timestamp tradeEvents with
  | [] => []
  | (earliest :: _) as tradeEvents =>
      let tradesByInterval := groupByInterval minutes tradeEvents in
      let firstInterval := intervalKey minutes (timestamp earliest) in
      let currentInterval := intervalKey minutes currentTime in
      let completeTimeline := Part003.timeline minutes firstInterval currentInterval in
      w_candles
        (fold_left (part003_visitInterval tradesByInterval currentInterval)
                   completeTimeline walk_start)
  end.

(** [part_002]: only trades with [price !== null] get an entry; a price
    that is [NaN] is not [null]. *)
Definition pricedTrades (tradeEvents : list Trade) : list PricedTrade :=
  flat_map (fun trade =>
              match calculatePrice (data trade) with
              | Some price =>
                  [ {| pt_timestamp := timestamp trade; price := price |} ]
              | None => []
              end) tradeEvents.

(** [part_002]: one round of [for (let i = 0; i < intervals.length; i++)]. *)
Definition part002_visitInterval (trades : list PricedTrade) (isFirst : bool)
           (w : Walk) (intervalStart : Z) : Walk :=
  let intervalEnd := intervalStart + minutes * 60000 in
  let tradesInInterval :=
    filter (fun t => (intervalStart <=? pt_timestamp t)
                     && (pt_timestamp t <? intervalEnd)) trades in
  let time_s := intervalStart / 1000 in
  let prices := map price tradesInInterval in
  match isFirst, prices, previousClose w with
  | true, p :: ps, _ =>
      let close := last prices p in
      {| w_candles := w_candles w ++
           [ {| time := time_s; open := Some p; high := Some (maxOf p ps);
                low := Some (minOf p ps); close := Some close;
                tradeCount := length tradesInInterval |} ];
         previousClose := Some close |}
  | _, _, None => w
  | _, p :: ps, Some open =>
      let close := last prices p in
      {| w_candles := w_candles w ++
           [ {| time := time_s; open := Some open; high := Some (maxOf open prices);
                low := Some (minOf open prices); close := Some close;
                tradeCount := length tradesInInterval |} ];
         previousClose := Some close |}
  | _, [], Some c => pushFlatCandle time_s c w
  end.

(** [part_002]; [None] is the TypeError on an empty interval list. *)
Definition part002_processSwapEvents (tradeEvents : list Trade)
  : option (list Candle) :=
  match pricedTrades tradeEvents with
  | [] => Some []
  | (t :: ts) as trades =>
      let startDate := Part002.minOfZ (pt_timestamp t) (map pt_timestamp ts) in
      let endDate := Part002.roundToInterval minutes currentTime in
      let startInterval := Part002.roundToInterval minutes startDate in
      match Part002.intervals minutes startInterval endDate with
      | [] => None
      | first :: later =>
          Some (w_candles
                  (fold_left (part002_visitInterval trades false) later
                             (part002_visitInterval trades true walk_start first)))
      end
  end.

End Walk.

(** A trade with a price that is a number. *)
Definition priced (toDouble : Q -> float) (isInverted : bool) (trade : Trade) : Prop :=
  exists p, calculatePrice toDouble isInverted (data trade) = Some p /\
            PrimFloat.is_nan p = false.

(** A candle with four prices, none of them [NaN], open and close between
    low and high as [<=] compares doubles. *)
Definition ohlc_bounded (c : Candle) : Prop :=
  exists o h l cl,
    open c = Some o /\ high c = Some h /\ low c = Some l /\ close c = Some cl /\
    PrimFloat.leb l o = true /\ PrimFloat.leb o h = true /\
    PrimFloat.leb l cl = true /\ PrimFloat.leb cl h = true.

(** [b.open == a.close] as JavaScript compares doubles. *)
Definition opens_at_close (a b : Candle) : Prop :=
  exists o cl, open b = Some o /\ close a = Some cl /\ PrimFloat.eqb o cl = true.

(** A sample [toDouble]: the quotient of numerator and denominator, which is
    the nearest double when both are below [2^53], and [Infinity] from
    [2^1024] on. *)
Definition sample_toDouble (q : Q) : float :=
  if Qle_bool (inject_Z (2 ^ 1024)) q then PrimFloat.infinity
  else (PrimFloat.of_uint63 (Uint63Axioms.of_Z (Qnum q))
        / PrimFloat.of_uint63 (Uint63Axioms.of_Z (Z.pos (Qden q))))%float.

End Candles64.

(** ** The trade table and the trades modal

    [determineTradeType] and [updateTradeHistory] are the same in
    [chart.js] and [part_003] ([part_002] differs in the signer cell only);
    [populateTradesModal] is the modal's copy of the row loop.  A row holds
    its numbers as they are before [toFixed] prints them. *)
Module TradeHistory.

Inductive TradeType : Type := BUY | SELL | UNKNOWN.

(** The token whose symbol is printed beside a number. *)
Inductive TokenSymbol : Type := symbol0 | symbol1.

Record TradeRow : Type := {
  row_time : Z;
  tradeType : TradeType;
  price : Q;
  amount : Q;
  amountSymbol : TokenSymbol;
  value : Q;
  valueSymbol : TokenSymbol
}.

Section Rows.
Variable isInverted : bool.

Definition determineTradeType (swapData : SwapData) : TradeType :=
  let amount0In := parseFloat_or_0 (amount0In swapData) in
  let amount0Out := parseFloat_or_0 (amount0Out swapData) in
  if Qgtb amount0In 0 then (if isInverted then BUY else SELL)
  else if Qgtb amount0Out 0 then (if isInverted then SELL else BUY)
  else UNKNOWN.

(** [let price = 0; ...; if (this.isInverted && price > 0) price = 1 / price] *)
Definition rowPrice (swapData : SwapData) : Q :=
  let amount0In := parseFloat_or_0 (amount0In swapData) in
  let amount0Out := parseFloat_or_0 (amount0Out swapData) in
  let amount1In := parseFloat_or_0 (amount1In swapData) in
  let amount1Out := parseFloat_or_0 (amount1Out swapData) in
  let price :=
    if Qgtb amount0Out 0 && Qgtb amount1In 0 then (amount1In / amount0Out)%Q
    else if Qgtb amount0In 0 && Qgtb amount1Out 0 then (amount1Out / amount0In)%Q
    else 0%Q in
  if isInverted && Qgtb price 0 then (1 / price)%Q else price.

(** The body of [sortedTrades.forEach] in [updateTradeHistory]. *)
Definition tableRow (trade : Trade) : TradeRow :=
  let data := data trade in
  let tradeType := determineTradeType data in
  let amount0In := parseFloat_or_0 (amount0In data) in
  let amount0Out := parseFloat_or_0 (amount0Out data) in
  let amount1In := parseFloat_or_0 (amount1In data) in
  let amount1Out := parseFloat_or_0 (amount1Out data) in
  let price := rowPrice data in
  let amount :=
    match tradeType with
    | BUY => if isInverted then amount1Out else amount0Out
    | _ => if isInverted then amount1In else amount0In
    end in
  let value :=
    match tradeType with
    | BUY => if isInverted then amount0In else amount1In
    | _ => if isInverted then amount0Out else amount1Out
    end in
  {| row_time := timestamp trade;
     tradeType := tradeType;
     price := price;
     amount := amount;
     amountSymbol := if isInverted then symbol1 else symbol0;
     value := value;
     valueSymbol := if isInverted then symbol0 else symbol1 |}.

(** The body of [sortedTrades.forEach] in [populateTradesModal]: the symbols
    are chosen in the branches on the trade type. *)
Definition modalEntry (trade : Trade) : TradeRow :=
  let data := data trade in
  let tradeType := determineTradeType data in
  let amount0In := parseFloat_or_0 (amount0In data) in
  let amount0Out := parseFloat_or_0 (amount0Out data) in
  let amount1In := parseFloat_or_0 (amount1In data) in
  let amount1Out := parseFloat_or_0 (amount1Out data) in
  let price := rowPrice data in
  match tradeType with
  | BUY =>
      {| row_time := timestamp trade;
         tradeType := tradeType;
         price := price;
         amount := if isInverted then amount1Out else amount0Out;
         amountSymbol := if isInverted then symbol1 else symbol0;
         value := if isInverted then amount0In else amount1In;
         valueSymbol := if isInverted then symbol0 else symbol1 |}
  | _ =>
      {| row_time := timestamp trade;
         tradeType := tradeType;
         price := price;
         amount := if isInverted then amount1In else amount0In;
         amountSymbol := if isInverted then symbol0 else symbol1;
         value := if isInverted then amount0Out else amount1Out;
         valueSymbol := if isInverted then symbol1 else symbol0 |}
  end.

(** [[...this.rawTrades].sort((a, b) => b.timestamp - a.timestamp)] *)
Definition newestFirst (rawTrades : list Trade) : list Trade :=
  sortBy (fun trade => - timestamp trade) rawTrades.

(** The rows appended to the table body, the table being in the page;
    without trades the body holds the 'No trades found' message and no
    row. *)
Definition updateTradeHistory (rawTrades : list Trade) : list TradeRow :=
  match rawTrades with
  | [] => []
  | _ :: _ => map tableRow (newestFirst rawTrades)
  end.

(** The entries of the modal, a pair being selected. *)
Definition populateTradesModal (rawTrades : list Trade) : list TradeRow :=
  match rawTrades with
  | [] => []
  | _ :: _ => map modalEntry (newestFirst rawTrades)
  end.

End Rows.

(** The other side of a trade. *)
Definition opposite (tradeType : TradeType) : TradeType :=
  match tradeType with
  | BUY => SELL
  | SELL => BUY
  | UNKNOWN => UNKNOWN
  end.


End TradeHistory.

(** ** Live updates of [part_003] *)
Module LiveUpdates.

(** The controller with the watermark of the timer: [lastUpdateTime] is the
    millisecond reading of the trade whose [timestampStr] is kept in
    [lastUpdateTimeString]. *)
Record LiveState : Type := {
  controller : Part003.Controller;
  lastUpdateTime : Z
}.

Section Live.
Variable minutes : Z.
Variable isInverted : bool.

(** [sortedTrades[sortedTrades.length - 1].timestamp.getTime()] of a
    non-empty array whose first element is [first]. *)
Definition mostRecentTime (first : Trade) (trades : list Trade) : Z :=
  let sortedTrades := sortBy timestamp trades in
  timestamp (last sortedTrades first).

Definition startLiveUpdates (now : Z) (c : Part003.Controller) : LiveState :=
  match Part003.rawTrades c with
  | [] => {| controller := c; lastUpdateTime := now - 30000 |}
  | first :: _ =>
      {| controller := c;
         lastUpdateTime := mostRecentTime first (Part003.rawTrades c) |}
  end.

(** One firing of the timer, [fetchNewTrades] having answered with
    [newTrades] ([hasNewTrades] is [newTrades.length > 0]); [now] is what
    [Date.now()] reads inside [processSwapEvents]. *)
Definition liveTick (now : Z) (newTrades : list Trade) (s : LiveState) : LiveState :=
  match newTrades with
  | [] => s
  | first :: _ =>
      {| controller :=
           Part003.updateChartWithNewTrades minutes isInverted now newTrades
                                            (controller s);
         lastUpdateTime := mostRecentTime first newTrades |}
  end.

(** The states a session reaches: the timer is started on some controller,
    and each answer of the query service holds only trades that are not
    older than the watermark it was asked with ([created: {greaterThan:
    sinceTime}], read at millisecond precision). *)
Inductive live_run : LiveState -> Prop :=
| live_started (now : Z) (c : Part003.Controller) :
    live_run (startLiveUpdates now c)
| live_ticked (now : Z) (newTrades : list Trade) (s : LiveState) :
    live_run s ->
    Forall (fun trade => lastUpdateTime s <= timestamp trade) newTrades ->
    live_run (liveTick now newTrades s).

End Live.
End LiveUpdates.

(** ** The pairs list of [part_003]: current price and 24 h change *)
Module Pairs.

(** A pair object; its [token0], [token1] and [volume24h] are not touched by
    the price loops and are left out. *)
Record Pair : Type := {
  id : String.string;
  currentPrice : option Q;
  priceChange : option Q
}.

(** An edge of the [currentPrices] or [historicalPrices] reply; [pair] is
    [dataIndexed.pair], of the same type as the [data.pair] of the
    [PairCreated] events. *)
Record SwapEdge : Type := {
  pair : String.string;
  swapData : SwapData
}.

(** The local [Map]s from pair id to price, in insertion order. *)
Definition PriceMap : Type := list (String.string * Q).

Fixpoint price_get (m : PriceMap) (pairId : String.string) : option Q :=
  match m with
  | [] => None
  | (k, price) :: rest =>
      if String.eqb k pairId then Some price else price_get rest pairId
  end.

(** [pairsMap.get(pairId)] for [pairsMap = new Map(pairs.map(pair =>
    [pair.id, pair]))]: the position in [pairs] of the object the map holds
    for that id, which is the last one with it. *)
Fixpoint pairsMap_get (pairs : list Pair) (position : nat) (pairId : String.string)
  : option nat :=
  match pairs with
  | [] => None
  | p :: rest =>
      match pairsMap_get rest (S position) pairId with
      | Some later => Some later
      | None => if String.eqb (id p) pairId then Some position else None
      end
  end.

(** Assignment to a field of the object at [position]. *)
Fixpoint update_at {A : Type} (position : nat) (f : A -> A) (l : list A) : list A :=
  match l, position with
  | [], _ => []
  | x :: rest, O => f x :: rest
  | x :: rest, S n => x :: update_at n f rest
  end.

Section FetchAllPairs.
Variable isInverted : bool.

(** [for (const edge of edges) if (!prices.has(pairId)) { const price =
    calculatePrice(...); if (price !== null && keep(price))
    prices.set(pairId, price) }] *)
Definition firstPrices (keep : Q -> bool) (edges : list SwapEdge) : PriceMap :=
  fold_left
    (fun prices edge =>
       let pairId := pair edge in
       match price_get prices pairId with
       | Some _ => prices
       | None =>
           match calculatePrice isInverted (swapData edge) with
           | Some price =>
               if keep price then prices ++ [(pairId, price)] else prices
           | None => prices
           end
       end)
    edges [].

(** [for (const [pairId, price] of currentPrices) { const pair =
    pairsMap.get(pairId); if (pair) pair.currentPrice = price }] *)
Definition setCurrentPrices (currentPrices : PriceMap) (pairs : list Pair)
  : list Pair :=
  fold_left
    (fun updated entry =>
       match pairsMap_get pairs 0 (fst entry) with
       | Some position =>
           update_at position
             (fun p => {| id := id p; currentPrice := Some (snd entry);
                          priceChange := priceChange p |})
             updated
       | None => updated
       end)
    currentPrices pairs.

(** [for (const pair of this.pairs)]: the change in percent, or [0]; over
    exact rationals, where neither price is [Infinity] or [NaN]. *)
Definition setPriceChanges (historicalPrices : PriceMap) (pairs : list Pair)
  : list Pair :=
  map (fun p =>
         let change :=
           match currentPrice p, price_get historicalPrices (id p) with
           | Some currentPrice, Some historicalPrice =>
               if Qgtb historicalPrice 0
               then ((currentPrice - historicalPrice) / historicalPrice * 100)%Q
               else 0%Q
           | _, _ => 0%Q
           end in
         {| id := id p; currentPrice := currentPrice p;
            priceChange := Some change |})
      pairs.

(** The price part of [fetchAllPairs], for the ids of the [PairCreated]
    events and the two swap replies ([None] when the reply has no
    [edges]). *)
Definition fetchAllPairs (pairIds : list String.string)
           (currentPrices historicalPrices : option (list SwapEdge)) : list Pair :=
  let pairs :=
    map (fun pairId => {| id := pairId; currentPrice := None;
                          priceChange := None |}) pairIds in
  let pairs :=
    match currentPrices with
    | Some edges => setCurrentPrices (firstPrices (fun _ => true) edges) pairs
    | None => pairs
    end in
  match historicalPrices with
  | Some edges => setPriceChanges (firstPrices (fun price => Qgtb price 0) edges) pairs
  | None => pairs
  end.

End FetchAllPairs.

(** An edge [calculatePrice] can price. *)
Definition edge_has_price (edge : SwapEdge) : bool :=
  match basePrice (swapData edge) with
  | Some _ => true
  | None => false
  end.

End Pairs.

(** ** The state read from the URL ([chart.js], [part_003]) *)
Module UrlState.
Import String.StringSyntax.
Local Open Scope string_scope.

(** The object [getQueryParams] returns; [inverted] is [None] for
    [undefined]. *)
Record QueryParams : Type := {
  pair : option String.string;
  timeframe : option String.string;
  inverted : option bool
}.

Record State : Type := {
  pairs : list Pairs.Pair;
  currentPair : option Pairs.Pair;
  currentTimeframe : Z;
  isInverted : bool
}.

(** A string in a condition: [null] and the empty string are falsy. *)
Definition truthy (s : option String.string) : option String.string :=
  match s with
  | Some text => if String.eqb text String.EmptyString then None else Some text
  | None => None
  end.

(** [search] is [URLSearchParams.get] on [window.location.search]. *)
Definition getQueryParams (search : String.string -> option String.string)
  : QueryParams :=
  {| pair := search "pair";
     timeframe := search "tf";
     inverted :=
       Some match search "inverted" with
            | Some text => String.eqb text "true"
            | None => false
            end |}.

(** The fields as the constructor leaves them. *)
Definition constructed : State :=
  {| pairs := [];
     currentPair := None;
     currentTimeframe :=
       match find (fun tf => tf =? 60) timeframes with
       | Some tf => tf
       | None => hd 0 timeframes
       end;
     isInverted := true |}.

Section Load.
(** [parseInt], [None] for [NaN]. *)
Variable parseInt : String.string -> option Z.
Variable search : String.string -> option String.string.

(** [loadPairsAndInitialize] once [fetchAllPairs] has filled [pairs], up to
    the state it hands to [initializeChart]; [None] is the throw of 'No
    trading pairs found'. *)
Definition loadPairsAndInitialize (s : State) : option State :=
  match pairs s with
  | [] => None
  | first :: _ =>
      let params := getQueryParams search in
      let currentPair :=
        match truthy (pair params) with
        | Some wanted => find (fun p => String.eqb (Pairs.id p) wanted) (pairs s)
        | None => Some first
        end in
      let currentTimeframe :=
        match truthy (timeframe params) with
        | Some text =>
            match parseInt text with
            | Some minutes =>
                match find (fun tf => tf =? minutes) timeframes with
                | Some tf => tf
                | None => currentTimeframe s
                end
            | None => currentTimeframe s
            end
        | None => currentTimeframe s
        end in
      let isInverted :=
        match inverted params with
        | Some flag => flag
        | None => isInverted s
        end in
      Some {| pairs := pairs s;
              currentPair := currentPair;
              currentTimeframe := currentTimeframe;
              isInverted := isInverted |}
  end.

End Load.

(** The query string asks for the inverted pair. *)
Definition says_inverted (search : String.string -> option String.string) : Prop :=
  search "inverted" = Some "true".

End UrlState.

(** [startDate] of [part_002]: the least timestamp among the priced trades. *)
Definition legacy_startDate (isInverted : bool) (tradeEvents : list Trade)
  : option Z :=
  match Part002.pricedTrades isInverted tradeEvents with
  | [] => None
  | t :: ts =>
      Some (Part002.minOfZ (Part002.pt_timestamp t) (map Part002.pt_timestamp ts))
  end.

(** ** Volume *)




(** ** The state a call of [processSwapEvents] runs in

    The method takes the trade array as its only argument.  Everything else
    it reads is ambient: [this.currentTimeframe], [this.isInverted] (through
    [calculatePrice]), [Date.now()] ([part_003]) and, for the colours of the
    volume bars, [getComputedStyle(document.body)]. *)
Module Page.
Import String.StringSyntax.
Local Open Scope string_scope.

(** The locals [buyColor] and [sellColor]: the trimmed values of the CSS
    properties [--buy-color] and [--sell-color] at the time of the call, the
    empty string when the theme sets none. *)
Record Theme : Type := {
  buyColor : String.string;
  sellColor : String.string
}.

(** [buyColor ? `${buyColor}80` : '#0066ff80'] *)
Definition volumeUpColor_of (theme : Theme) : String.string :=
  if String.eqb (buyColor theme) String.EmptyString then "#0066ff80"
  else String.append (buyColor theme) "80".

(** [sellColor ? `${sellColor}80` : '#9933ff80'] *)
Definition volumeDownColor_of (theme : Theme) : String.string :=
  if String.eqb (sellColor theme) String.EmptyString then "#9933ff80"
  else String.append (sellColor theme) "80".

(** The string held by the local a bar's colour names. *)
Definition color_string (theme : Theme) (c : VolumeColor) : String.string :=
  match c with
  | volumeUpColor => volumeUpColor_of theme
  | volumeDownColor => volumeDownColor_of theme
  | emptyColor => "#80808040"
  end.

(** The object pushed to [volumes], its colour a string. *)
Record ShownBar : Type := {
  shown_time : Z;
  shown_value : JsNumber;
  shown_color : String.string
}.

(** What [processSwapEvents] returns. *)
Record Returned : Type := {
  returned_candles : list Candle;
  returned_volumes : list ShownBar
}.

Definition returned (theme : Theme) (chartData : ChartData) : Returned :=
  {| returned_candles := candles chartData;
     returned_volumes :=
       map (fun bar => {| shown_time := bar_time bar;
                          shown_value := value bar;
                          shown_color := color_string theme (color bar) |})
           (volumes chartData) |}.

(** The state around a call: what the method reads, and the controller
    fields it could reach but does not read. *)
Record State : Type := {
  currentTimeframe : Z;               (* this.currentTimeframe.minutes *)
  isInverted : bool;                  (* this.isInverted *)
  clock : Z;                          (* Date.now() *)
  theme : Theme;                      (* getComputedStyle(document.body) *)
  controller : Part003.Controller     (* this.rawTrades, the chart series *)
}.

(** A call in state [s]: the returned object, and the argument array as the
    call leaves it. *)
Definition chartjs_processSwapEvents (s : State) (tradeEvents : list Trade)
  : Returned * list Trade :=
  let result :=
    ChartJs.processSwapEvents_call (currentTimeframe s) (isInverted s)
                                   tradeEvents in
  (returned (theme s) (fst result), snd result).

Definition part003_processSwapEvents (s : State) (tradeEvents : list Trade)
  : Returned * list Trade :=
  let result :=
    Part003.processSwapEvents_call (currentTimeframe s) (isInverted s) (clock s)
                                   tradeEvents in
  (returned (theme s) (fst result), snd result).




End Page.

(** ** Sample trades *)

Definition swap (t : Z) (in0 out0 in1 out1 : RawAmount) : Trade :=
  {| timestamp := t;
     data := {| amount0In := in0; amount0Out := out0;
                amount1In := in1; amount1Out := out1 |} |}.

(** A purchase of [out0] base units for [in1] quote units. *)
Definition buy (t : Z) (out0 in1 : Q) : Trade :=
  swap t (Decimal 0) (Decimal out0) (Decimal in1) (Decimal 0).

(** A sale of [in0] base units for [out1] quote units. *)
Definition sell (t : Z) (in0 out1 : Q) : Trade :=
  swap t (Decimal in0) (Decimal 0) (Decimal 0) (Decimal out1).

(** A swap event whose four amounts are all zero: it has no price. *)
Definition unpriced (t : Z) : Trade :=
  swap t (Decimal 0) (Decimal 0) (Decimal 0) (Decimal 0).

(** Milliseconds in a minute. *)
Definition minute : Z := 60000.

(** The specification's scenario: trades at 00:05 (10 base for 100 quote),
    00:40 (5 base for 60 quote) and 01:10 (2 base for 30 quote). *)
Definition scenario : list Trade :=
  [buy (5 * minute) 10 100; sell (40 * minute) 5 60; buy (70 * minute) 2 30].

(** A controller before its first load. *)
Definition fresh : Part003.Controller :=
  {| Part003.rawTrades := []; Part003.series := None |}.

(** The closes a controller's candle series shows. *)
Definition shown_closes (c : Part003.Controller) : list (option Q) :=
  match Part003.series c with
  | Some chartData => map close (candles chartData)
  | None => []
  end.

(** The scenario with one more purchase, at 01:20, of one base unit for
    [2^1030] quote units: an amount that parses to [Infinity]. *)
Definition with_overflow : list Trade :=
  buy (80 * minute) 1 (inject_Z (2 ^ 1030)) :: scenario.

(** Pair ids, and the query string [?tf=15]. *)
Module Sample.
Import String.StringSyntax.
Local Open Scope string_scope.

Definition con_pair_1 : String.string := "con_pair_1".
Definition con_pair_2 : String.string := "con_pair_2".

Definition only_tf_15 (name : String.string) : option String.string :=
  if String.eqb name "tf" then Some "15" else None.

(** [parseInt] on the decimal strings of the supported widths. *)
Definition parseInt_widths (text : String.string) : option Z :=
  if String.eqb text "5" then Some 5
  else if String.eqb text "10" then Some 10
  else if String.eqb text "15" then Some 15
  else if String.eqb text "30" then Some 30
  else if String.eqb text "60" then Some 60
  else if String.eqb text "240" then Some 240
  else if String.eqb text "1440" then Some 1440
  else None.

End Sample.

(** * Properties *)

(** ** Numbers *)

Lemma Qgtb_0_iff (x : Q) : Qgtb x 0 = true <-> (0 < x)%Q.
Proof.
  unfold Qgtb. rewrite negb_true_iff, <- not_true_iff_false, Qle_bool_iff.
  split; [apply Qnot_le_lt | apply Qlt_not_le].
Qed.

Lemma timeframes_positive (m : Z) : In m timeframes -> 0 < intervalMs m.
Proof. unfold timeframes, intervalMs. simpl. intuition lia. Qed.

(** ** calculatePrice *)

(** In exact arithmetic a base price is positive as soon as it is defined. *)
Lemma basePrice_positive (d : SwapData) (p : Q) :
  basePrice d = Some p -> (0 < p)%Q.
Proof.
  unfold basePrice.
  destruct (Qgtb (parseFloat_or_0 (amount0Out d)) 0) eqn:Ho0;
    destruct (Qgtb (parseFloat_or_0 (amount1In d)) 0) eqn:Hi1; simpl;
    try (destruct (Qgtb (parseFloat_or_0 (amount0In d)) 0) eqn:Hi0;
         destruct (Qgtb (parseFloat_or_0 (amount1Out d)) 0) eqn:Ho1; simpl);
    intros E; inversion E; subst; clear E;
    rewrite ?Qgtb_0_iff in *;
    apply Qlt_shift_div_l; auto; rewrite Qmult_0_l; auto.
Qed.

Lemma calculatePrice_defined_iff (inv : bool) (d : SwapData) :
  (exists p, calculatePrice inv d = Some p) <-> (exists b, basePrice d = Some b).
Proof.
  unfold calculatePrice. destruct (basePrice d) as [b|].
  - split; intros _; [now exists b | destruct inv; eauto].
  - split; intros [? E]; discriminate.
Qed.

Lemma calculatePrice_positive (inv : bool) (d : SwapData) (p : Q) :
  calculatePrice inv d = Some p -> (0 < p)%Q.
Proof.
  unfold calculatePrice. destruct (basePrice d) as [b|] eqn:E; [|discriminate].
  apply basePrice_positive in E.
  destruct inv; intros H; inversion H; subst; auto.
  unfold Qdiv. rewrite Qmult_1_l. now apply Qinv_lt_0_compat.
Qed.

(** C6.  With the four amounts read by [parseFloat(..) || 0] (so a missing or
    unparsable field counts as 0): the base price is [amount1In / amount0Out]
    when [amount0Out > 0] and [amount1In > 0]; otherwise
    [amount1Out / amount0In] when [amount0In > 0] and [amount1Out > 0];
    otherwise there is no price, whatever the inversion flag.  Where a base
    price exists, [calculatePrice] returns it when the pair is not inverted
    and its reciprocal when it is. *)
Theorem calculatePrice_by_cases (d : SwapData) :
  let in0 := parseFloat_or_0 (amount0In d) in
  let out0 := parseFloat_or_0 (amount0Out d) in
  let in1 := parseFloat_or_0 (amount1In d) in
  let out1 := parseFloat_or_0 (amount1Out d) in
  ((0 < out0 /\ 0 < in1)%Q -> basePrice d = Some (in1 / out0)%Q) /\
  (~ (0 < out0 /\ 0 < in1)%Q -> (0 < in0 /\ 0 < out1)%Q ->
   basePrice d = Some (out1 / in0)%Q) /\
  (~ (0 < out0 /\ 0 < in1)%Q -> ~ (0 < in0 /\ 0 < out1)%Q ->
   basePrice d = None /\ forall inv, calculatePrice inv d = None) /\
  (forall b, basePrice d = Some b ->
             calculatePrice false d = Some b /\
             calculatePrice true d = Some (1 / b)%Q) /\
  parseFloat_or_0 Absent = 0%Q /\ parseFloat_or_0 Unparsable = 0%Q.
Proof.
  intros in0 out0 in1 out1.
  assert (Hbase : basePrice d =
                  if Qgtb out0 0 && Qgtb in1 0 then Some (in1 / out0)%Q
                  else if Qgtb in0 0 && Qgtb out1 0 then Some (out1 / in0)%Q
                  else None) by reflexivity.
  repeat split.
  - intros [Ho Hi]. apply Qgtb_0_iff in Ho, Hi. now rewrite Hbase, Ho, Hi.
  - intros Hn [Hi Ho]. apply Qgtb_0_iff in Hi, Ho. rewrite Hbase, Hi, Ho. simpl.
    destruct (Qgtb out0 0 && Qgtb in1 0) eqn:E; auto.
    apply andb_true_iff in E. rewrite !Qgtb_0_iff in E. contradiction.
  - rewrite Hbase.
    destruct (Qgtb out0 0 && Qgtb in1 0) eqn:E1.
    { apply andb_true_iff in E1. rewrite !Qgtb_0_iff in E1. contradiction. }
    destruct (Qgtb in0 0 && Qgtb out1 0) eqn:E2; auto.
    apply andb_true_iff in E2. rewrite !Qgtb_0_iff in E2. contradiction.
  - intros inv. unfold calculatePrice. rewrite Hbase.
    destruct (Qgtb out0 0 && Qgtb in1 0) eqn:E1.
    { apply andb_true_iff in E1. rewrite !Qgtb_0_iff in E1. contradiction. }
    destruct (Qgtb in0 0 && Qgtb out1 0) eqn:E2; auto.
    apply andb_true_iff in E2. rewrite !Qgtb_0_iff in E2. contradiction.
  - unfold calculatePrice. now rewrite H.
  - unfold calculatePrice. now rewrite H.
Qed.

Lemma calculatePrice_by_cases_witness :
  calculatePrice false (data (buy 0 10 100)) = Some (100 / 10)%Q /\
  calculatePrice true (data (sell 0 5 60)) = Some (1 / (60 / 5))%Q /\
  calculatePrice true (data (unpriced 0)) = None.
Proof.
  destruct (calculatePrice_by_cases (data (buy 0 10 100))) as (Hbuy & _ & _ & Hb & _).
  destruct (calculatePrice_by_cases (data (sell 0 5 60))) as (_ & Hsell & _ & Hs & _).
  destruct (calculatePrice_by_cases (data (unpriced 0))) as (_ & _ & Hnone & _).
  split; [|split].
  - apply Hb, Hbuy. split; reflexivity.
  - apply Hs, Hsell.
    + intros [H _]. discriminate H.
    + split; reflexivity.
  - apply Hnone; intros [H _]; discriminate H.
Defined.

(** ** The interval map *)

Lemma map_get_push_same (key : Z) (trade : Trade) (m : IntervalMap) :
  map_get (map_push key trade m) key = Some (get_or_empty m key ++ [trade]).
Proof.
  unfold get_or_empty. induction m as [|[k trades] rest IH]; simpl.
  - now rewrite Z.eqb_refl.
  - destruct (k =? key) eqn:E; simpl; rewrite E; auto.
Qed.

Lemma map_get_push_other (key key' : Z) (trade : Trade) (m : IntervalMap) :
  key' <> key -> map_get (map_push key trade m) key' = map_get m key'.
Proof.
  intros Hne. induction m as [|[k trades] rest IH]; simpl.
  - destruct (Z.eqb_spec key key'); congruence.
  - destruct (Z.eqb_spec k key); simpl.
    + subst. destruct (Z.eqb_spec key key'); congruence.
    + now rewrite IH.
Qed.

Lemma get_or_empty_push (key key' : Z) (trade : Trade) (m : IntervalMap) :
  get_or_empty (map_push key trade m) key' =
  get_or_empty m key' ++ (if key =? key' then [trade] else []).
Proof.
  destruct (Z.eqb_spec key key') as [->|Hne].
  - unfold get_or_empty at 1. now rewrite map_get_push_same.
  - unfold get_or_empty. rewrite map_get_push_other by congruence.
    now rewrite app_nil_r.
Qed.

Section Grouping.
Variable minutes : Z.

Let push (m : IntervalMap) (trade : Trade) : IntervalMap :=
  map_push (intervalKey minutes (timestamp trade)) trade m.

Lemma get_or_empty_fold (l : list Trade) (m : IntervalMap) (k : Z) :
  get_or_empty (fold_left push l m) k =
  get_or_empty m k ++
  filter (fun t => intervalKey minutes (timestamp t) =? k) l.
Proof.
  unfold push. revert m. induction l as [|t l IH]; intros m; simpl.
  - now rewrite app_nil_r.
  - rewrite IH, get_or_empty_push, <- app_assoc.
    f_equal. now destruct (intervalKey minutes (timestamp t) =? k).
Qed.

(** What [tradesByInterval.get(k) || []] holds after the grouping loop: the
    trades whose key is [k], in the order of [tradeEvents]. *)
Lemma get_or_empty_group (tradeEvents : list Trade) (k : Z) :
  get_or_empty (groupByInterval minutes tradeEvents) k =
  filter (fun t => intervalKey minutes (timestamp t) =? k) tradeEvents.
Proof. unfold groupByInterval. apply (get_or_empty_fold tradeEvents [] k). Qed.

End Grouping.

(** Epoch alignment in [chart.js] and [part_003].  For every supported width
    of [m] minutes and every trade handed to the grouping loop, the key the
    trade is filed under is [floor(t / (m*60000)) * (m*60000)] of its epoch
    milliseconds [t]: a multiple of the width, with [t] inside
    [key, key + width), and the trade is filed under that key only.  The key
    is a function of [t] and [m] alone: no calendar field and no time zone
    enters it.  (Within the range of [Date] the double division of the source
    floors exactly.) *)
Theorem interval_key_epoch_aligned (m : Z) (tradeEvents : list Trade) (trade : Trade) :
  In m timeframes -> In trade tradeEvents ->
  let width := m * 60000 in
  let key := intervalKey m (timestamp trade) in
  key = Qfloor (inject_Z (timestamp trade) / inject_Z width) * width /\
  key mod width = 0 /\
  key <= timestamp trade < key + width /\
  forall k, In trade (get_or_empty (groupByInterval m tradeEvents) k) <-> k = key.
Proof.
  intros Hm Hin width key.
  assert (Hw : 0 < width) by (apply timeframes_positive in Hm; unfold intervalMs in Hm; unfold width; lia).
  assert (Hkey : key = timestamp trade / width * width).
  { unfold key, intervalKey, intervalMs, width. f_equal; [f_equal|]; lia. }
  split; [|split; [|split]].
  - rewrite Hkey. now rewrite Zdiv_Qdiv.
  - rewrite Hkey. apply Z_mod_mult.
  - rewrite Hkey. pose proof (Z.mul_div_le (timestamp trade) width Hw).
    pose proof (Z.mul_succ_div_gt (timestamp trade) width Hw). lia.
  - intros k. rewrite get_or_empty_group, filter_In. fold key.
    split.
    + intros [_ E]. apply Z.eqb_eq in E. congruence.
    + intros ->. split; auto. apply Z.eqb_refl.
Qed.

Lemma interval_key_epoch_aligned_witness :
  let trade := buy (70 * minute) 2 30 in
  intervalKey 240 (timestamp trade) = 0 /\
  In trade (get_or_empty (groupByInterval 240 scenario) 0).
Proof.
  intros trade.
  assert (Hm : In 240 timeframes) by (simpl; tauto).
  assert (Hin : In trade scenario) by (simpl; tauto).
  destruct (interval_key_epoch_aligned 240 scenario trade Hm Hin)
    as (_ & _ & _ & Hk).
  split; [reflexivity|]. apply Hk. reflexivity.
Defined.

(** ** Sorting *)
Section SortFacts.
Context {A : Type} (key : A -> Z).

Lemma insertBy_Permutation (x : A) (l : list A) :
  Permutation (insertBy key x l) (x :: l).
Proof.
  induction l as [|y r IH]; simpl; auto.
  destruct (key x <=? key y); auto.
  rewrite IH. apply perm_swap.
Qed.

Lemma sortBy_Permutation (l : list A) : Permutation (sortBy key l) l.
Proof.
  induction l as [|x r IH]; simpl; auto.
  rewrite insertBy_Permutation. now constructor.
Qed.

Lemma insertBy_HdRel (a x : A) (l : list A) :
  key_le key a x -> HdRel (key_le key) a l ->
  HdRel (key_le key) a (insertBy key x l).
Proof.
  intros Hax Hl. destruct l as [|y r]; simpl.
  - now constructor.
  - destruct (key x <=? key y); constructor; auto. now inversion Hl.
Qed.

Lemma insertBy_Sorted (x : A) (l : list A) :
  Sorted (key_le key) l -> Sorted (key_le key) (insertBy key x l).
Proof.
  induction l as [|y r IH]; intros Hs; simpl.
  - repeat constructor.
  - inversion Hs as [|? ? Hr Hy]; subst.
    destruct (Z.leb_spec (key x) (key y)).
    + constructor; [assumption|]. constructor. assumption.
    + constructor; [auto|]. apply insertBy_HdRel; [|assumption].
      unfold key_le. lia.
Qed.

Lemma sortBy_Sorted (l : list A) : Sorted (key_le key) (sortBy key l).
Proof.
  induction l as [|x r IH]; simpl; [constructor | now apply insertBy_Sorted].
Qed.

Lemma insertBy_front (x : A) (l : list A) :
  HdRel (key_le key) x l -> insertBy key x l = x :: l.
Proof.
  intros H. destruct l as [|y r]; simpl; auto.
  inversion H as [|? ? Hxy]; subst. unfold key_le in Hxy.
  apply Z.leb_le in Hxy. now rewrite Hxy.
Qed.

(** Sorting an array that is already ascending leaves it as it is. *)
Lemma sortBy_of_Sorted (l : list A) : Sorted (key_le key) l -> sortBy key l = l.
Proof.
  induction l as [|x r IH]; intros Hs; simpl; auto.
  inversion Hs; subst. rewrite IH by assumption. now apply insertBy_front.
Qed.

Lemma sortBy_idempotent (l : list A) : sortBy key (sortBy key l) = sortBy key l.
Proof. apply sortBy_of_Sorted, sortBy_Sorted. Qed.

Lemma sortBy_nil_iff (l : list A) : sortBy key l = [] <-> l = [].
Proof.
  split; intros H; [|now subst].
  apply Permutation_nil. rewrite <- H. apply sortBy_Permutation.
Qed.

(** Two insertions commute unless the keys tie. *)
Lemma insertBy_comm (x y : A) (l : list A) :
  key x <> key y ->
  insertBy key x (insertBy key y l) = insertBy key y (insertBy key x l).
Proof.
  intros Hne. induction l as [|z r IH]; simpl;
    repeat (simpl; match goal with
                   | |- context [?a <=? ?b] => destruct (Z.leb_spec a b)
                   end);
    try lia; try reflexivity.
  now rewrite IH.
Qed.

(** Without ties the sorted array depends on the set of elements only, not on
    the order they came in. *)
Lemma sortBy_Permutation_distinct (l l' : list A) :
  Permutation l l' -> NoDup (map key l) -> sortBy key l = sortBy key l'.
Proof.
  induction 1 as [|x l l' Hp IH|x y l|l l' l'' Hp1 IH1 Hp2 IH2]; intros Hnd; simpl.
  - reflexivity.
  - inversion Hnd; subst. now rewrite IH.
  - simpl in Hnd. inversion Hnd as [|? ? Hy _]; subst.
    apply insertBy_comm. intros E. apply Hy. left. auto.
  - rewrite IH1 by assumption. apply IH2.
    eapply Permutation_NoDup; [|exact Hnd]. now apply Permutation_map.
Qed.

Lemma key_le_trans : Relations_1.Transitive (key_le key).
Proof. intros a b c. unfold key_le. lia. Qed.

(** The head of the sorted array carries the least key. *)
Lemma sortBy_head_least (l : list A) (x : A) (r : list A) :
  sortBy key l = x :: r -> forall y, In y l -> key x <= key y.
Proof.
  intros E y Hy.
  pose proof (sortBy_Sorted l) as Hs. rewrite E in Hs.
  apply Sorted_StronglySorted in Hs; [|exact key_le_trans].
  assert (Hin : In y (x :: r)).
  { rewrite <- E. eapply Permutation_in; [symmetry; apply sortBy_Permutation|auto]. }
  inversion Hs as [|? ? _ Hall]; subst.
  destruct Hin as [->|Hin]; [lia|].
  rewrite Forall_forall in Hall. now apply Hall.
Qed.

End SortFacts.

(** ** Repeated calls *)


Lemma Part003_processSwapEvents_sorted (minutes : Z) (isInverted : bool)
      (currentTime : Z) (tradeEvents : list Trade) :
  Part003.processSwapEvents minutes isInverted currentTime
                            (sortBy timestamp tradeEvents) =
  Part003.processSwapEvents minutes isInverted currentTime tradeEvents.
Proof. unfold Part003.processSwapEvents. now rewrite sortBy_idempotent. Qed.






(** ** The timeline of [part_003] *)
Section Timeline.
Variable minutes : Z.
Hypothesis width_positive : 0 < intervalMs minutes.

Lemma intervalKey_monotone (a b : Z) :
  a <= b -> intervalKey minutes a <= intervalKey minutes b.
Proof.
  intros H. unfold intervalKey.
  apply Z.mul_le_mono_nonneg_r; [lia|]. now apply Z.div_le_mono.
Qed.

Lemma timeline_nil (from currentInterval : Z) :
  currentInterval < from -> Part003.timeline minutes from currentInterval = [].
Proof.
  intros H. unfold Part003.timeline.
  destruct (Z.to_nat _); simpl; auto.
  destruct (Z.leb_spec from currentInterval); auto; lia.
Qed.

Lemma timeline_cons (from currentInterval : Z) :
  from <= currentInterval ->
  exists rest, Part003.timeline minutes from currentInterval = from :: rest.
Proof.
  intros H. unfold Part003.timeline.
  assert (0 <= (currentInterval - from) / intervalMs minutes)
    by (apply Z.div_pos; lia).
  destruct (Z.to_nat _) eqn:E; [lia|]. simpl.
  destruct (Z.leb_spec from currentInterval); [eauto | lia].
Qed.

End Timeline.

(** ** The walk only appends *)

Lemma pushTradeCandle_candles (isInverted : bool) (time_s : Z) (first : Trade)
      (others : list Trade) (w : Walk) :
  exists c, w_candles (pushTradeCandle isInverted time_s first others w) =
            w_candles w ++ [c].
Proof.
  unfold pushTradeCandle.
  destruct (fold_left _ _ _) as [[h l] v]. simpl. eauto.
Qed.

Lemma Part003_visit_candles (minutes : Z) (isInverted : bool)
      (m : IntervalMap) (currentInterval : Z) (w : Walk) (time : Z) :
  exists extra,
    w_candles (Part003.visitInterval minutes isInverted m currentInterval w time) =
    w_candles w ++ extra.
Proof.
  unfold Part003.visitInterval.
  destruct (get_or_empty m time) as [|first others].
  - destruct (previousClose w).
    + simpl. eauto.
    + destruct (Part003.lookAhead _ _ _); simpl; eauto.
      exists []. now rewrite app_nil_r.
  - destruct (pushTradeCandle_candles isInverted (time / 1000) first others w)
      as [c Hc]. eauto.
Qed.

Lemma Part003_walk_candles (minutes : Z) (isInverted : bool)
      (m : IntervalMap) (currentInterval : Z) (times : list Z) (w : Walk) :
  exists extra,
    w_candles (fold_left (Part003.visitInterval minutes isInverted m currentInterval)
                         times w) =
    w_candles w ++ extra.
Proof.
  revert w. induction times as [|t times IH]; intros w; simpl.
  - exists []. now rewrite app_nil_r.
  - destruct (IH (Part003.visitInterval minutes isInverted m currentInterval w t))
      as [e1 H1].
    destruct (Part003_visit_candles minutes isInverted m currentInterval w t)
      as [e2 H2].
    exists (e2 ++ e1). now rewrite H1, H2, app_assoc.
Qed.

(** [part_003] returns no candle exactly when there is no trade or the clock
    is before the interval of the earliest one. *)
Lemma Part003_no_candles_iff (minutes : Z) (isInverted : bool) (currentTime : Z)
      (tradeEvents : list Trade) :
  0 < intervalMs minutes ->
  candles (Part003.processSwapEvents minutes isInverted currentTime tradeEvents) = []
  <->
  (forall earliest rest, sortBy timestamp tradeEvents = earliest :: rest ->
     intervalKey minutes currentTime < intervalKey minutes (timestamp earliest)).
Proof.
  intros Hw. unfold Part003.processSwapEvents.
  destruct (sortBy timestamp tradeEvents) as [|earliest rest] eqn:E.
  - simpl. split; [intros _ ? ? H; discriminate | reflexivity].
  - split.
    + intros Hnil e r Her. inversion Her; subst e r; clear Her.
      destruct (Z.lt_ge_cases (intervalKey minutes currentTime)
                              (intervalKey minutes (timestamp earliest)))
        as [Hlt|Hge]; [exact Hlt|exfalso].
      destruct (timeline_cons minutes Hw _ _ Hge) as [later Ht].
      rewrite Ht in Hnil. simpl in Hnil.
      unfold Part003.visitInterval at 2 in Hnil.
      rewrite get_or_empty_group in Hnil. simpl in Hnil.
      rewrite Z.eqb_refl in Hnil.
      match type of Hnil with
      | context [fold_left ?f later (pushTradeCandle ?i ?s ?a ?b ?w)] =>
          destruct (Part003_walk_candles minutes isInverted
                      (groupByInterval minutes (earliest :: rest))
                      (intervalKey minutes currentTime) later
                      (pushTradeCandle i s a b w)) as [extra Hx];
          destruct (pushTradeCandle_candles i s a b w) as [c Hc]
      end.
      rewrite Hx, Hc in Hnil. simpl in Hnil. discriminate.
    + intros H. specialize (H _ _ eq_refl).
      rewrite (timeline_nil minutes) by assumption. reflexivity.
Qed.

(** ** Live merge *)

Lemma publish_nothing (chartData : ChartData) (raw : list Trade)
      (c : Part003.Controller) :
  candles chartData = [] ->
  Part003.series (Part003.publish chartData raw c) = Part003.series c.
Proof. intros H. unfold Part003.publish. now rewrite H. Qed.

Lemma fetchSwapEvents_eq (minutes : Z) (isInverted : bool) (currentTime : Z)
      (edges : list Trade) :
  Part003.fetchSwapEvents minutes isInverted currentTime edges =
  Part003.processSwapEvents minutes isInverted currentTime edges.
Proof.
  unfold Part003.fetchSwapEvents. destruct edges as [|e r]; [reflexivity|].
  apply Part003_processSwapEvents_sorted.
Qed.

Lemma publish_rawTrades (chartData : ChartData) (raw : list Trade)
      (c : Part003.Controller) :
  Part003.rawTrades (Part003.publish chartData raw c) = raw.
Proof. unfold Part003.publish. now destruct (candles chartData). Qed.

(** The live path and the cold path aggregate the same trades, so they can
    only differ by the order in which the stable sort leaves trades of one
    millisecond.  Let the first load at [now1] fetch [initial], let a live
    tick at [now2 >= now1] fold a non-empty [batch] into it, and let [all] be
    what a cold load at [now2] fetches.  Whenever sorting [all] by time gives
    the array the live path holds, the chart series after the live tick are
    the series of the cold load; trades of one millisecond inside the first
    fetch do no harm, both loads listing them alike. *)
Lemma live_merge_matches_cold_load (minutes : Z) (isInverted : bool)
      (now1 now2 : Z) (initial batch all : list Trade) (c0 : Part003.Controller) :
  In minutes timeframes ->
  now1 <= now2 ->
  batch <> [] ->
  sortBy timestamp all = sortBy timestamp (initial ++ batch) ->
  Part003.series
    (Part003.updateChartWithNewTrades minutes isInverted now2 batch
       (Part003.loadChartData minutes isInverted now1 initial c0)) =
  Part003.series (Part003.loadChartData minutes isInverted now2 all c0).
Proof.
  intros Hm Hnow Hbatch Hsorted.
  assert (Hperm : Permutation all (initial ++ batch)).
  { eapply Permutation_trans; [symmetry; apply (sortBy_Permutation timestamp)|].
    rewrite Hsorted. apply sortBy_Permutation. }
  apply timeframes_positive in Hm.
  destruct batch as [|b batch']; [congruence|clear Hbatch].
  set (batch := b :: batch') in *.
  assert (Hlive : Part003.processSwapEvents minutes isInverted now2
                    (sortBy timestamp (sortBy timestamp (initial ++ batch))) =
                  Part003.fetchSwapEvents minutes isInverted now2 all).
  { rewrite fetchSwapEvents_eq, !Part003_processSwapEvents_sorted.
    unfold Part003.processSwapEvents. now rewrite Hsorted. }
  set (c1 := Part003.loadChartData minutes isInverted now1 initial c0).
  assert (Hraw : Part003.rawTrades c1 = initial) by apply publish_rawTrades.
  assert (Hupd : Part003.updateChartWithNewTrades minutes isInverted now2 batch c1 =
                 Part003.publish
                   (Part003.processSwapEvents minutes isInverted now2
                      (sortBy timestamp (sortBy timestamp (initial ++ batch))))
                   (sortBy timestamp (initial ++ batch)) c1)
    by (unfold Part003.updateChartWithNewTrades, batch; now rewrite Hraw).
  rewrite Hupd, Hlive. clear Hupd Hlive.
  unfold Part003.loadChartData at 1.
  destruct (candles (Part003.fetchSwapEvents minutes isInverted now2 all)) eqn:Hc.
  - (* nothing to publish at [now2]: nothing was published at [now1] either *)
    rewrite !publish_nothing by assumption.
    unfold c1, Part003.loadChartData. apply publish_nothing.
    rewrite fetchSwapEvents_eq. rewrite fetchSwapEvents_eq in Hc.
    apply Part003_no_candles_iff; [assumption|]. intros e1 r1 E1.
    rewrite Part003_no_candles_iff in Hc by assumption.
    destruct (sortBy timestamp all) as [|e r] eqn:E.
    { apply sortBy_nil_iff in E. subst all.
      apply Permutation_nil in Hperm. destruct initial; discriminate. }
    specialize (Hc e r eq_refl).
    assert (Hin : In e1 all).
    { eapply Permutation_in; [symmetry; exact Hperm|]. apply in_or_app. left.
      eapply Permutation_in; [apply (sortBy_Permutation timestamp)|].
      rewrite E1. now left. }
    pose proof (sortBy_head_least timestamp all e r E e1 Hin) as Hle.
    pose proof (intervalKey_monotone minutes Hm _ _ Hle).
    pose proof (intervalKey_monotone minutes Hm _ _ Hnow). lia.
  - unfold Part003.publish. now rewrite Hc.
Qed.

(** Two trades of one millisecond in the first fetch, one later trade in the
    batch: the live tick shows what the cold load shows. *)
Example live_merge_with_early_tie :
  let initial := [buy 1000 1 30; buy 1000 1 20] in
  let batch := [buy (70 * minute) 2 30] in
  let all := [buy (70 * minute) 2 30; buy 1000 1 30; buy 1000 1 20] in
  Part003.series
    (Part003.updateChartWithNewTrades 60 false (150 * minute) batch
       (Part003.loadChartData 60 false (90 * minute) initial fresh)) =
  Part003.series (Part003.loadChartData 60 false (150 * minute) all fresh).
Proof.
  intros initial batch all.
  apply (live_merge_matches_cold_load 60 false (90 * minute) (150 * minute)
           initial batch all fresh).
  - simpl; tauto.
  - vm_compute; discriminate.
  - discriminate.
  - reflexivity.
Qed.

(** C4.  The live merge is not the cold rebuild when two trades of the batch
    share a millisecond.  [fetchNewTrades] asks for new trades oldest first
    ([CREATED_ASC]); [fetchSwapEvents] asks for all trades newest first
    ([CREATED_DESC]) and sorts them by millisecond under the comment 'Sort
    for chart display (oldest first)'.  The sort is stable, so on the cold
    path the two trades stay newest first: the array it aggregates lists the
    trade at price 30 before the older one at price 20, and its candle closes
    on the older trade, where the live path closes on the newer one. *)
Theorem cold_load_reverses_trades_of_one_millisecond :
  let initial := [buy 0 1 10] in
  let batch := [buy 1000 1 20; buy 1000 1 30] in
  let all := [buy 1000 1 30; buy 1000 1 20; buy 0 1 10] in
  let live :=
    Part003.updateChartWithNewTrades 5 false 2000 batch
      (Part003.loadChartData 5 false 500 initial fresh) in
  let cold := Part003.loadChartData 5 false 2000 all fresh in
  all = rev (initial ++ batch) /\
  Forall (fun new => Forall (fun old => timestamp old < timestamp new) initial) batch /\
  Part003.rawTrades live = [buy 0 1 10; buy 1000 1 20; buy 1000 1 30] /\
  sortBy timestamp all = [buy 0 1 10; buy 1000 1 30; buy 1000 1 20] /\
  shown_closes live = [Some (30 # 1)] /\
  shown_closes cold = [Some (20 # 1)] /\
  Part003.series live <> Part003.series cold.
Proof.
  intros initial batch all live cold.
  repeat split; try reflexivity.
  - repeat constructor.
  - vm_compute. discriminate.
Qed.

(** ** Reciprocals and order *)

Lemma Qrecip_le (a b : Q) : (0 < a -> a <= b -> 1 / b <= 1 / a)%Q.
Proof.
  intros Ha Hab. unfold Qdiv. rewrite !Qmult_1_l.
  destruct (Qle_lt_or_eq _ _ Hab) as [Hlt|Heq].
  - apply Qlt_le_weak. apply -> Qinv_lt_contravar; auto.
    now apply Qlt_trans with a.
  - rewrite Heq. apply Qle_refl.
Qed.

(** The reciprocal turns a minimum into a maximum and back. *)
Lemma Qmax_recip (h l b : Q) :
  (0 < l -> 0 < b -> h == 1 / l -> Qmax h (1 / b) == 1 / Qmin l b)%Q.
Proof.
  intros Hl Hb Hh.
  destruct (Q.min_spec l b) as [[Hlt E]|[Hle E]]; rewrite E.
  - rewrite Q.max_l; auto. rewrite Hh. apply Qrecip_le; auto.
    now apply Qlt_le_weak.
  - rewrite Q.max_r; [reflexivity|]. rewrite Hh. now apply Qrecip_le.
Qed.

Lemma Qmin_recip (l h b : Q) :
  (0 < h -> 0 < b -> l == 1 / h -> Qmin l (1 / b) == 1 / Qmax h b)%Q.
Proof.
  intros Hh Hb Hl.
  destruct (Q.max_spec h b) as [[Hlt E]|[Hle E]]; rewrite E.
  - rewrite Q.min_r; [reflexivity|]. rewrite Hl. apply Qrecip_le; auto.
    now apply Qlt_le_weak.
  - rewrite Q.min_l; auto. rewrite Hl. now apply Qrecip_le.
Qed.

Lemma Qmin_pos (a b : Q) : (0 < a -> 0 < b -> 0 < Qmin a b)%Q.
Proof. intros. destruct (Q.min_spec a b) as [[_ E]|[_ E]]; now rewrite E. Qed.

Lemma Qmax_pos (a b : Q) : (0 < a -> 0 < b -> 0 < Qmax a b)%Q.
Proof. intros. destruct (Q.max_spec a b) as [[_ E]|[_ E]]; now rewrite E. Qed.

(** ** Inverted against plain aggregation *)

Lemma calculatePrice_swapped (trade : Trade) :
  priced trade ->
  exists b, (0 < b)%Q /\
            calculatePrice false (data trade) = Some b /\
            calculatePrice true (data trade) = Some (1 / b)%Q.
Proof.
  intros [b Hb]. exists b. unfold calculatePrice. rewrite Hb.
  split; [now apply basePrice_positive in Hb | split; reflexivity].
Qed.

Lemma calculatePrice_close_swapped (trade : Trade) :
  priced trade ->
  close_swapped (calculatePrice true (data trade))
                (calculatePrice false (data trade)).
Proof.
  intros H. destruct (calculatePrice_swapped trade H) as (b & Hb & -> & ->).
  simpl. split; [assumption|reflexivity].
Qed.

Lemma last_In {A : Type} (x : A) (l : list A) : In (last (x :: l) x) (x :: l).
Proof.
  assert (H : forall (r : list A) (d : A), r <> [] -> In (last r d) r).
  { induction r as [|y r IH]; intros d Hne; [congruence|].
    destruct r as [|z r]; [now left|].
    right. apply (IH d). discriminate. }
  apply H. discriminate.
Qed.

(** One interval's pass over its trades, run with and without inversion. *)
Lemma scan_swapped (trades : list Trade) :
  Forall priced trades ->
  forall hi li vi hn ln vn,
    (0 < hn)%Q -> (0 < ln)%Q -> (hi == 1 / ln)%Q -> (li == 1 / hn)%Q ->
    exists hi' li' vi' hn' ln' vn',
      fold_left (scanTrade true) trades (Some hi, Some li, vi) =
        (Some hi', Some li', vi') /\
      fold_left (scanTrade false) trades (Some hn, Some ln, vn) =
        (Some hn', Some ln', vn') /\
      (0 < hn')%Q /\ (0 < ln')%Q /\ (hi' == 1 / ln')%Q /\ (li' == 1 / hn')%Q.
Proof.
  induction 1 as [|t trades Ht _ IH]; intros hi li vi hn ln vn Hhn Hln Hhi Hli.
  - simpl. exists hi, li, vi, hn, ln, vn. auto 10.
  - destruct (calculatePrice_swapped t Ht) as (b & Hb & En & Ei).
    simpl. rewrite En, Ei. simpl.
    apply IH.
    + now apply Qmax_pos.
    + now apply Qmin_pos.
    + now apply Qmax_recip.
    + now apply Qmin_recip.
Qed.

Lemma pushTradeCandle_swapped (time_s : Z) (first : Trade) (others : list Trade)
      (wi wn : Walk) :
  Forall priced (first :: others) ->
  walk_swapped wi wn ->
  walk_swapped (pushTradeCandle true time_s first others wi)
               (pushTradeCandle false time_s first others wn).
Proof.
  intros Hp [Hc Hprev].
  assert (Hopen : exists oi on,
             match previousClose wi with
             | Some c => Some c
             | None => calculatePrice true (data first)
             end = Some oi /\
             match previousClose wn with
             | Some c => Some c
             | None => calculatePrice false (data first)
             end = Some on /\ (0 < on)%Q /\ (oi == 1 / on)%Q).
  { unfold close_swapped in Hprev.
    destruct (previousClose wi) as [a|], (previousClose wn) as [b|];
      try contradiction.
    - exists a, b. tauto.
    - inversion Hp as [|? ? Hf _]; subst.
      destruct (calculatePrice_swapped first Hf) as (b & Hb & -> & ->).
      exists (1 / b)%Q, b. repeat split; auto; reflexivity. }
  destruct Hopen as (oi & on & Ei & En & Hon & Hoi).
  destruct (scan_swapped (first :: others) Hp oi oi (Num 0) on on (Num 0)
                         Hon Hon Hoi Hoi)
    as (hi & li & vi & hn & ln & vn & Fi & Fn & _ & _ & Hhi & Hli).
  unfold pushTradeCandle. rewrite Ei, En, Fi, Fn.
  split; simpl.
  - apply Forall2_app; [assumption|]. constructor; [|constructor].
    split; [reflexivity|]. exists hi, li, hn, ln. simpl. auto 10.
  - apply calculatePrice_close_swapped.
    rewrite Forall_forall in Hp. apply Hp, last_In.
Qed.

Lemma pushFlatCandle_swapped (time_s : Z) (a b : Q) (wi wn : Walk) :
  (0 < b)%Q -> (a == 1 / b)%Q ->
  Forall2 high_low_swapped (w_candles wi) (w_candles wn) ->
  Forall2 high_low_swapped (w_candles (pushFlatCandle time_s a wi))
                           (w_candles (pushFlatCandle time_s b wn)).
Proof.
  intros Hb Hab Hc. simpl. apply Forall2_app; [assumption|].
  constructor; [|constructor]. split; [reflexivity|].
  exists a, a, b, b. simpl. auto 10.
Qed.

Lemma fold_left_related {S T : Type} (R : S -> S -> Prop) (f g : S -> T -> S)
      (l : list T) :
  (forall a b t, In t l -> R a b -> R (f a t) (g b t)) ->
  forall a b, R a b -> R (fold_left f l a) (fold_left g l b).
Proof.
  induction l as [|t l IH]; intros Hstep a b Hab; simpl; auto.
  apply IH.
  - intros a' b' t' Hin. apply Hstep. now right.
  - apply Hstep; [now left | assumption].
Qed.

Lemma grouped_priced (minutes : Z) (tradeEvents : list Trade) (k : Z) :
  Forall priced tradeEvents ->
  Forall priced (get_or_empty (groupByInterval minutes tradeEvents) k).
Proof.
  intros H. rewrite get_or_empty_group. rewrite Forall_forall in *.
  intros t Ht. apply filter_In in Ht. now apply H.
Qed.

Lemma sorted_priced (tradeEvents : list Trade) :
  Forall priced tradeEvents -> Forall priced (sortBy timestamp tradeEvents).
Proof.
  intros H. eapply Permutation_Forall; [|exact H].
  symmetry. apply sortBy_Permutation.
Qed.

Lemma ChartJs_visit_swapped (m : IntervalMap) (time : Z) (wi wn : Walk) :
  Forall priced (get_or_empty m time) ->
  walk_swapped wi wn ->
  walk_swapped (ChartJs.visitInterval true m wi time)
               (ChartJs.visitInterval false m wn time).
Proof.
  intros Hp Hw. unfold ChartJs.visitInterval.
  destruct (get_or_empty m time) as [|first others].
  - destruct Hw as [Hc Hprev]. unfold close_swapped in Hprev.
    destruct (previousClose wi) as [a|] eqn:Ea, (previousClose wn) as [b|] eqn:Eb;
      try contradiction.
    + destruct Hprev as [Hb Hab]. split.
      * now apply pushFlatCandle_swapped.
      * simpl. rewrite Ea, Eb. simpl. auto.
    + split; [assumption|]. now rewrite Ea, Eb.
  - now apply pushTradeCandle_swapped.
Qed.

Lemma lookAhead_swapped (m : IntervalMap) (futureTimes : list Z) :
  (forall k, Forall priced (get_or_empty m k)) ->
  close_swapped (Part003.lookAhead true m futureTimes)
                (Part003.lookAhead false m futureTimes).
Proof.
  intros Hp. induction futureTimes as [|t later IH]; simpl; auto.
  specialize (Hp t). unfold get_or_empty in Hp.
  destruct (map_get m t) as [[|trade rest]|]; auto.
  inversion Hp; subst. now apply calculatePrice_close_swapped.
Qed.

Lemma Part003_visit_swapped (minutes : Z) (m : IntervalMap)
      (currentInterval time : Z) (wi wn : Walk) :
  (forall k, Forall priced (get_or_empty m k)) ->
  walk_swapped wi wn ->
  walk_swapped (Part003.visitInterval minutes true m currentInterval wi time)
               (Part003.visitInterval minutes false m currentInterval wn time).
Proof.
  intros Hp Hw. unfold Part003.visitInterval.
  pose proof (Hp time) as Ht.
  destruct (get_or_empty m time) as [|first others].
  - destruct Hw as [Hc Hprev]. unfold close_swapped in Hprev.
    destruct (previousClose wi) as [a|] eqn:Ea, (previousClose wn) as [b|] eqn:Eb;
      try contradiction.
    + destruct Hprev as [Hb Hab]. split.
      * now apply pushFlatCandle_swapped.
      * simpl. rewrite Ea, Eb. simpl. auto.
    + pose proof (lookAhead_swapped m
                    (Part003.timeline minutes (time + intervalMs minutes)
                                      currentInterval) Hp) as Hl.
      unfold close_swapped in Hl.
      destruct (Part003.lookAhead true m _) as [a|],
               (Part003.lookAhead false m _) as [b|]; try contradiction.
      * destruct Hl as [Hb Hab]. split.
        -- now apply pushFlatCandle_swapped.
        -- simpl. auto.
      * split; [assumption|]. now rewrite Ea, Eb.
  - now apply pushTradeCandle_swapped.
Qed.

Lemma walk_start_swapped : walk_swapped walk_start walk_start.
Proof. split; simpl; auto. Qed.

(** C2.  For every supported width: when every trade has a price (a price is
    positive as soon as it is defined), aggregating with the inversion flag
    set and with it clear gives candle arrays that match interval by
    interval, and in each pair the inverted high is [1 / low] of the plain
    candle and the inverted low is [1 / high] of the plain candle.  This holds
    for [chart.js] and, with any clock reading, for [part_003]. *)
Theorem inversion_swaps_high_and_low (minutes currentTime : Z)
        (tradeEvents : list Trade) :
  In minutes timeframes ->
  Forall priced tradeEvents ->
  Forall2 high_low_swapped
          (candles (ChartJs.processSwapEvents minutes true tradeEvents))
          (candles (ChartJs.processSwapEvents minutes false tradeEvents)) /\
  Forall2 high_low_swapped
          (candles (Part003.processSwapEvents minutes true currentTime tradeEvents))
          (candles (Part003.processSwapEvents minutes false currentTime tradeEvents)).
Proof.
  intros _ Hp. apply sorted_priced in Hp.
  pose proof (fun k => grouped_priced minutes _ k Hp) as Hg.
  split.
  - unfold ChartJs.processSwapEvents.
    destruct tradeEvents as [|t r]; [constructor|].
    apply (fold_left_related walk_swapped); [|exact walk_start_swapped].
    intros a b time _. apply ChartJs_visit_swapped, Hg.
  - unfold Part003.processSwapEvents.
    destruct (sortBy timestamp tradeEvents) as [|earliest rest]; [constructor|].
    apply (fold_left_related walk_swapped); [|exact walk_start_swapped].
    intros a b time _. now apply Part003_visit_swapped.
Qed.

Lemma inversion_swaps_high_and_low_witness :
  Forall2 high_low_swapped
          (candles (ChartJs.processSwapEvents 60 true scenario))
          (candles (ChartJs.processSwapEvents 60 false scenario)) /\
  Forall2 high_low_swapped
          (candles (Part003.processSwapEvents 60 true (150 * minute) scenario))
          (candles (Part003.processSwapEvents 60 false (150 * minute) scenario)).
Proof.
  apply (inversion_swaps_high_and_low 60 (150 * minute) scenario).
  - simpl; tauto.
  - repeat constructor; eexists; reflexivity.
Defined.

(** ** What unpriced trades and empty intervals do to the output *)

(** The scenario, interval by interval, as [part_003] aggregates it at 01:30
    and at 02:30. *)
Example scenario_at_0130 :
  Part003.processSwapEvents 60 false (90 * minute) scenario =
  {| candles :=
       [ {| time := 0; open := Some (100 / 10)%Q; high := Some (60 / 5)%Q;
            low := Some (100 / 10)%Q; close := Some (60 / 5)%Q; tradeCount := 2 |};
         {| time := 3600; open := Some (60 / 5)%Q; high := Some (30 / 2)%Q;
            low := Some (60 / 5)%Q; close := Some (30 / 2)%Q; tradeCount := 1 |} ];
     volumes :=
       [ {| bar_time := 0; value := Num 160; color := volumeUpColor |};
         {| bar_time := 3600; value := Num 30; color := volumeUpColor |} ] |}.
Proof. reflexivity. Qed.

Example scenario_at_0230 :
  map (fun c => (time c, close c, tradeCount c))
      (candles (Part003.processSwapEvents 60 false (150 * minute) scenario)) =
  [ (0, Some (60 / 5)%Q, 2%nat); (3600, Some (30 / 2)%Q, 1%nat);
    (7200, Some (30 / 2)%Q, 0%nat) ].
Proof. reflexivity. Qed.

(** The scenario inverted: the first candle opens at 1/10, closes at 1/12,
    with high 1/10 and low 1/12. *)
Example scenario_inverted :
  map (fun c => (open c, high c, low c, close c))
      (candles (Part003.processSwapEvents 60 true (90 * minute) scenario)) =
  [ (Some (1 / (100 / 10))%Q, Some (1 / (100 / 10))%Q,
     Some (1 / (60 / 5))%Q, Some (1 / (60 / 5))%Q);
    (Some (1 / (60 / 5))%Q, Some (1 / (60 / 5))%Q,
     Some (1 / (30 / 2))%Q, Some (1 / (30 / 2))%Q) ].
Proof. reflexivity. Qed.

(** A live trade that lands in the interval of the last candle revises that
    candle (close and high move to 12); no candle is added. *)
Example live_trade_revises_last_candle :
  let loaded := Part003.loadChartData 5 false 2000 [buy 0 1 10] fresh in
  let live := Part003.updateChartWithNewTrades 5 false 3000 [buy 1000 1 12] loaded in
  option_map (fun d => map (fun c => (time c, high c, close c)) (candles d))
             (Part003.series loaded) =
    Some [ (0, Some (10 / 1)%Q, Some (10 / 1)%Q) ] /\
  option_map (fun d => map (fun c => (time c, high c, close c)) (candles d))
             (Part003.series live) =
    Some [ (0, Some (12 / 1)%Q, Some (12 / 1)%Q) ].
Proof. split; reflexivity. Qed.

(** C1.  The intervals that get a candle are not always consecutive.
    [chart.js] walks only the intervals that hold a trade, so two trades ten
    minutes apart give 5-minute candles at 0 s and 600 s and none at 300 s
    ([part_003] gives all three).  [part_003] walks the whole timeline, but
    an interval whose last trade has no price leaves [previousClose] null, and
    the empty intervals after it, up to the clock, get no candle. *)
Theorem candle_timeline_has_gaps :
  map time (candles (ChartJs.processSwapEvents 5 false
                       [buy 0 1 10; buy (10 * minute) 1 12])) = [0; 600] /\
  map time (candles (Part003.processSwapEvents 5 false (10 * minute)
                       [buy 0 1 10; buy (10 * minute) 1 12])) = [0; 300; 600] /\
  map time (candles (Part003.processSwapEvents 5 false (10 * minute)
                       [buy 0 1 10; unpriced 1000])) = [0].
Proof. repeat split; reflexivity. Qed.

(** C3.  A candle does not always open at the previous close: when the last
    trade of an interval has no price the candle closes on [null], and the
    next candle opens on its own first trade. *)
Theorem open_departs_from_previous_close :
  map (fun c => (open c, close c))
      (candles (ChartJs.processSwapEvents 5 false
                  [buy 0 1 10; unpriced 1000; buy (10 * minute) 1 12])) =
  [ (Some (10 / 1)%Q, None); (Some (12 / 1)%Q, Some (12 / 1)%Q) ] /\
  map (fun c => (open c, close c))
      (candles (Part003.processSwapEvents 5 false (10 * minute)
                  [buy 0 1 10; unpriced 1000; buy (10 * minute) 1 12])) =
  [ (Some (10 / 1)%Q, None); (Some (12 / 1)%Q, Some (12 / 1)%Q);
    (Some (12 / 1)%Q, Some (12 / 1)%Q) ].
Proof. split; reflexivity. Qed.

(** C5.  In [chart.js] and [part_003] a trade without a price is grouped with
    the others: it counts in [tradeCount], and when it is the last of its
    interval the candle closes on [null] instead of on the last priced trade.
    [part_002] filters such trades out first and closes on 10. *)
Theorem unpriced_trade_reaches_candle :
  candles (ChartJs.processSwapEvents 5 false [buy 0 1 10; unpriced 1000]) =
  [ {| time := 0; open := Some (10 / 1)%Q; high := Some (10 / 1)%Q;
       low := Some (10 / 1)%Q; close := None; tradeCount := 2 |} ] /\
  candles (Part003.processSwapEvents 5 false 2000 [buy 0 1 10; unpriced 1000]) =
  [ {| time := 0; open := Some (10 / 1)%Q; high := Some (10 / 1)%Q;
       low := Some (10 / 1)%Q; close := None; tradeCount := 2 |} ] /\
  option_map candles
    (Part002.processSwapEvents 30 false 2000 [buy 0 1 10; unpriced 1000]) =
  Some [ {| time := 0; open := Some (10 / 1)%Q; high := Some (10 / 1)%Q;
            low := Some (10 / 1)%Q; close := Some (10 / 1)%Q; tradeCount := 1 |} ].
Proof. repeat split; reflexivity. Qed.

(** C9.  A candle can close outside its own range: with an unpriced last
    trade, [low] and [high] are 10 and [close] is [null], which
    JavaScript compares as 0. *)
Theorem close_outside_low_high :
  exists c,
    candles (ChartJs.processSwapEvents 5 false [buy 0 1 10; unpriced 1000]) = [c] /\
    low c = Some (10 / 1)%Q /\ high c = Some (10 / 1)%Q /\ close c = None /\
    Qle_bool (toNumber (low c)) (toNumber (close c)) = false.
Proof. eexists. repeat split; reflexivity. Qed.

(** C10.  [calculatePrice] divides by a zero base price: 5e-324 quote units
    for 3 base units underflow to a base price of 0, and the inverted price
    is [Infinity].  The trade table's inversion, guarded by [price > 0],
    leaves 0. *)
Theorem inverted_price_can_be_infinity :
  let amount0In := Binary64.zero in
  let amount0Out := Binary64.three in
  let amount1In := Binary64.least_positive in
  let amount1Out := Binary64.zero in
  Binary64.calculatePrice false amount0In amount0Out amount1In amount1Out =
    Some Binary64.zero /\
  Binary64.calculatePrice true amount0In amount0Out amount1In amount1Out =
    Some PrimFloat.infinity /\
  Binary64.tradeHistoryPrice true amount0In amount0Out amount1In amount1Out =
    Binary64.zero.
Proof. repeat split; reflexivity. Qed.

(** C7 in [part_002].  Its interval starts keep the hour of the earliest
    trade and round only the minutes, so 4-hour candles of a trade at 01:30
    start at 01:00, 05:00, ...: off the epoch grid on which [chart.js] files
    the same trade (key 0). *)
Theorem legacy_intervals_off_epoch_grid :
  Part002.roundToInterval 240 (90 * minute) = 60 * minute /\
  option_map (fun d => map time (candles d))
    (Part002.processSwapEvents 240 false (400 * minute) [buy (90 * minute) 1 10]) =
  Some [3600; 18000] /\
  intervalKey 240 (90 * minute) = 0 /\
  map time (candles (Part003.processSwapEvents 240 false (400 * minute)
                       [buy (90 * minute) 1 10])) = [0; 14400].
Proof. repeat split; reflexivity. Qed.

(** ** Aggregating priced trades only

    What the walk guarantees when no trade lacks a price. *)

Lemma end_close_app (prev : option Q) (cs cs' : list Candle) :
  end_close prev (cs ++ cs') = end_close (end_close prev cs) cs'.
Proof. unfold end_close. apply fold_left_app. Qed.

Lemma chained_app (prev : option Q) (cs cs' : list Candle) :
  chained prev (cs ++ cs') <-> chained prev cs /\ chained (end_close prev cs) cs'.
Proof.
  revert prev. induction cs as [|c cs IH]; intros prev; simpl.
  - tauto.
  - rewrite IH. unfold end_close. simpl. tauto.
Qed.

Lemma Qmax_cases (x y : Q) : Qmax x y = x \/ Qmax x y = y.
Proof.
  unfold Qmax, GenericMinMax.gmax. destruct (x ?= y)%Q; auto.
Qed.

Lemma Qmin_cases (x y : Q) : Qmin x y = x \/ Qmin x y = y.
Proof.
  unfold Qmin, GenericMinMax.gmin. destruct (x ?= y)%Q; auto.
Qed.

(** The pass over an interval's trades leaves [high] the largest and [low]
    the smallest of the open and the prices met. *)
Lemma scan_bounds (isInverted : bool) (trades : list Trade) :
  Forall priced trades ->
  forall h l v,
  exists h' l' v',
    fold_left (scanTrade isInverted) trades (Some h, Some l, v) =
      (Some h', Some l', v') /\
    (l' <= l)%Q /\ (h <= h')%Q /\
    Forall (fun t => exists p, calculatePrice isInverted (data t) = Some p /\
                               (l' <= p <= h')%Q) trades /\
    (h' = h \/ exists t, In t trades /\
                         calculatePrice isInverted (data t) = Some h') /\
    (l' = l \/ exists t, In t trades /\
                         calculatePrice isInverted (data t) = Some l').
Proof.
  induction 1 as [|t trades Ht _ IH]; intros h l v.
  - exists h, l, v. simpl. repeat split; auto; apply Qle_refl.
  - destruct (proj2 (calculatePrice_defined_iff isInverted (data t)) Ht) as [p Hp].
    simpl. rewrite Hp. simpl.
    destruct (IH (Qmax h p) (Qmin l p)
                 (js_add v (js_add (parseFloat_of_or_0 (amount1In (data t)))
                                   (parseFloat_of_or_0 (amount1Out (data t))))))
      as (h' & l' & v' & E & Hl & Hh & Hall & Hmax & Hmin).
    exists h', l', v'. split; [exact E|].
    assert (Hl1 : (l' <= l)%Q) by (eapply Qle_trans; [exact Hl | apply Q.le_min_l]).
    assert (Hl2 : (l' <= p)%Q) by (eapply Qle_trans; [exact Hl | apply Q.le_min_r]).
    assert (Hh1 : (h <= h')%Q) by (eapply Qle_trans; [apply Q.le_max_l | exact Hh]).
    assert (Hh2 : (p <= h')%Q) by (eapply Qle_trans; [apply Q.le_max_r | exact Hh]).
    repeat split; auto.
    + constructor; [exists p; auto | assumption].
    + destruct Hmax as [->|(t' & Hin & Et)].
      * destruct (Qmax_cases h p) as [->| ->]; [now left|].
        right. exists t. split; [now left | assumption].
      * right. exists t'. split; [now right | assumption].
    + destruct Hmin as [->|(t' & Hin & Et)].
      * destruct (Qmin_cases l p) as [->| ->]; [now left|].
        right. exists t. split; [now left | assumption].
      * right. exists t'. split; [now right | assumption].
Qed.

Lemma pushTradeCandle_sound (isInverted : bool) (time_s : Z) (first : Trade)
      (others : list Trade) (w : Walk) :
  Forall priced (first :: others) ->
  sound_walk w ->
  sound_walk (pushTradeCandle isInverted time_s first others w) /\
  exists c,
    w_candles (pushTradeCandle isInverted time_s first others w) =
      w_candles w ++ [c] /\
    time c = time_s /\ tradeCount c = length (first :: others) /\
    previousClose (pushTradeCandle isInverted time_s first others w) = close c /\
    close c = calculatePrice isInverted (data (last (first :: others) first)) /\
    close c <> None.
Proof.
  intros Hp (Hb & Hch & Hprev).
  assert (Hopen : exists o,
             match previousClose w with
             | Some c => Some c
             | None => calculatePrice isInverted (data first)
             end = Some o /\
             (o <= o)%Q).
  { destruct (previousClose w) as [c|].
    - exists c. split; [reflexivity | apply Qle_refl].
    - inversion Hp as [|? ? Hf _]; subst.
      destruct (proj2 (calculatePrice_defined_iff isInverted (data first)) Hf)
        as [p Ep].
      exists p. split; [assumption | apply Qle_refl]. }
  destruct Hopen as (o & Eo & _).
  destruct (scan_bounds isInverted (first :: others) Hp o o (Num 0))
    as (h & l & v & E & Hl & Hh & Hall & _ & _).
  assert (Hlast : In (last (first :: others) first) (first :: others))
    by apply last_In.
  rewrite Forall_forall in Hall.
  destruct (Hall _ Hlast) as (cl & Ecl & Hcl).
  unfold pushTradeCandle. rewrite Eo, E, Ecl.
  split; [split; [|split]|]; simpl.
  - apply Forall_app. split; [assumption|]. constructor; [|constructor].
    exists o, h, l, cl. simpl. repeat split; auto; tauto.
  - apply chained_app. split; [assumption|]. simpl.
    rewrite <- Hprev. destruct (previousClose w); simpl in *; [|tauto].
    inversion Eo; subst. tauto.
  - rewrite end_close_app. reflexivity.
  - eexists. split; [reflexivity|]. simpl. repeat split; congruence.
Qed.

Lemma pushFlatCandle_sound (time_s : Z) (price : Q) (w : Walk) :
  sound_walk w ->
  previousClose w = Some price ->
  sound_walk (pushFlatCandle time_s price w) /\
  previousClose (pushFlatCandle time_s price w) = Some price.
Proof.
  intros (Hb & Hch & Hprev) Hp.
  split; [split; [|split]|]; simpl.
  - apply Forall_app. split; [assumption|]. constructor; [|constructor].
    exists price, price, price, price. simpl.
    repeat split; auto; apply Qle_refl.
  - apply chained_app. split; [assumption|]. simpl.
    rewrite <- Hprev, Hp. tauto.
  - rewrite end_close_app. simpl. assumption.
  - assumption.
Qed.

Lemma walk_start_sound : sound_walk walk_start.
Proof. repeat split; simpl; auto. Qed.

(** A visit of [part_003] that finds trades, or a known close, appends
    exactly one candle, stamped with the interval's start in seconds. *)
Lemma Part003_visit_sound (minutes : Z) (isInverted : bool) (m : IntervalMap)
      (currentInterval : Z) (w : Walk) (t : Z) :
  (forall k, Forall priced (get_or_empty m k)) ->
  sound_walk w ->
  let w' := Part003.visitInterval minutes isInverted m currentInterval w t in
  sound_walk w' /\
  (get_or_empty m t <> [] \/ previousClose w <> None ->
   previousClose w' <> None /\
   exists c, w_candles w' = w_candles w ++ [c] /\ time c = t / 1000 /\
             tradeCount c = length (get_or_empty m t)).
Proof.
  intros Hp Hw. unfold Part003.visitInterval.
  pose proof (Hp t) as Ht.
  destruct (get_or_empty m t) as [|first others] eqn:Eg.
  - destruct (previousClose w) as [c|] eqn:E.
    + destruct (pushFlatCandle_sound (t / 1000) c w Hw E) as [Hs Hc].
      split; [assumption|]. intros _. split; [congruence|].
      eexists. split; [reflexivity|]. split; reflexivity.
    + simpl. split.
      * destruct (Part003.lookAhead isInverted m _) as [p|] eqn:El; [|assumption].
        destruct Hw as (Hb & Hch & Hprev). rewrite E in Hprev.
        split; [|split]; simpl.
        -- apply Forall_app. split; [assumption|]. constructor; [|constructor].
           exists p, p, p, p. simpl. repeat split; auto; apply Qle_refl.
        -- apply chained_app. split; [assumption|]. simpl.
           rewrite <- Hprev. tauto.
        -- rewrite end_close_app. reflexivity.
      * intros [H|H]; congruence.
  - destruct (pushTradeCandle_sound isInverted (t / 1000) first others w Ht Hw)
      as (Hs & c & Ec & Etime & Ecount & Eprev & _ & Hclose).
    simpl. split; [assumption|]. intros _. split; [congruence|].
    exists c. auto.
Qed.

Lemma Part003_walk_sound (minutes : Z) (isInverted : bool) (m : IntervalMap)
      (currentInterval : Z) (times : list Z) :
  (forall k, Forall priced (get_or_empty m k)) ->
  forall w, sound_walk w ->
  let w' := fold_left (Part003.visitInterval minutes isInverted m currentInterval)
                      times w in
  sound_walk w' /\
  (previousClose w <> None ->
   map time (w_candles w') =
   map time (w_candles w) ++ map (fun t => t / 1000) times).
Proof.
  intros Hp. induction times as [|t times IH]; intros w Hw; simpl.
  - split; [assumption|]. intros _. now rewrite app_nil_r.
  - destruct (Part003_visit_sound minutes isInverted m currentInterval w t Hp Hw)
      as [Hs Hemit].
    destruct (IH _ Hs) as [Hs' Htimes].
    split; [assumption|]. intros Hprev.
    destruct (Hemit (or_intror Hprev)) as (Hprev' & c & Ec & Etime & _).
    rewrite (Htimes Hprev'), Ec, map_app, <- app_assoc. simpl. now rewrite Etime.
Qed.

(** The timeline loop lists the interval starts [from], [from + width], ...
    and stops on its own test: the next start would be past the clock. *)
Lemma timeline_loop_full (minutes currentInterval : Z) :
  0 < intervalMs minutes ->
  forall (n : nat) (from : Z),
    n = O \/ from + (Z.of_nat n - 1) * intervalMs minutes <= currentInterval ->
    Part003.timeline_loop minutes n from currentInterval =
    map (fun k => from + Z.of_nat k * intervalMs minutes) (seq 0 n).
Proof.
  intros Hw. induction n as [|n IH]; intros from Hn; [reflexivity|].
  destruct Hn as [Hn|Hn]; [discriminate|].
  cbn [Part003.timeline_loop].
  destruct (Z.leb_spec from currentInterval) as [_|Hlt]; [|nia].
  cbn [seq map]. f_equal; [lia|].
  rewrite IH by (destruct n; [now left | right; nia]).
  rewrite <- seq_shift, map_map. apply map_ext. intros k. lia.
Qed.

Lemma timeline_full (minutes from currentInterval : Z) :
  0 < intervalMs minutes ->
  from <= currentInterval ->
  let n := Z.to_nat ((currentInterval - from) / intervalMs minutes + 1) in
  Part003.timeline minutes from currentInterval =
    map (fun k => from + Z.of_nat k * intervalMs minutes) (seq 0 n) /\
  from + (Z.of_nat n - 1) * intervalMs minutes <= currentInterval
    < from + Z.of_nat n * intervalMs minutes.
Proof.
  intros Hw Hle n.
  assert (Hq : 0 <= (currentInterval - from) / intervalMs minutes)
    by (apply Z.div_pos; lia).
  assert (Hn : Z.of_nat n = (currentInterval - from) / intervalMs minutes + 1)
    by (unfold n; lia).
  pose proof (Z.mul_div_le (currentInterval - from) _ Hw).
  pose proof (Z.mul_succ_div_gt (currentInterval - from) _ Hw).
  split; [|nia].
  unfold Part003.timeline. fold n. apply timeline_loop_full; [assumption|].
  right. nia.
Qed.

(** With priced trades only, and the clock not before the earliest trade,
    [part_003] returns one candle per interval from the earliest trade's to
    the clock's: the candle times start at the first interval and go up by
    the width (in seconds), and the last one is the clock's interval. *)
Theorem priced_timeline_without_gaps (minutes : Z) (isInverted : bool)
        (currentTime : Z) (tradeEvents : list Trade) (earliest : Trade)
        (rest : list Trade) :
  In minutes timeframes ->
  Forall priced tradeEvents ->
  sortBy timestamp tradeEvents = earliest :: rest ->
  timestamp earliest <= currentTime ->
  let first := intervalKey minutes (timestamp earliest) in
  let current := intervalKey minutes currentTime in
  let n := Z.to_nat ((current - first) / intervalMs minutes + 1) in
  map time (candles (Part003.processSwapEvents minutes isInverted currentTime
                                               tradeEvents)) =
    map (fun k => first / 1000 + Z.of_nat k * (minutes * 60)) (seq 0 n) /\
  first + (Z.of_nat n - 1) * intervalMs minutes = current.
Proof.
  intros Hm Hp Es Hnow first current n.
  apply timeframes_positive in Hm.
  assert (Hle : first <= current) by now apply intervalKey_monotone.
  destruct (timeline_full minutes first current Hm Hle) as [Et Hlast].
  fold n in Et, Hlast.
  split.
  - unfold Part003.processSwapEvents. rewrite Es. fold first current.
    rewrite Et.
    assert (Hn : n <> O).
    { unfold n. assert (0 <= (current - first) / intervalMs minutes)
        by (apply Z.div_pos; lia). lia. }
    destruct n as [|n']; [congruence|]. cbn [seq map fold_left].
    apply sorted_priced in Hp. rewrite Es in Hp.
    pose proof (fun k => grouped_priced minutes _ k Hp) as Hg.
    replace (first + Z.of_nat 0 * intervalMs minutes) with first by lia.
    destruct (Part003_visit_sound minutes isInverted
                (groupByInterval minutes (earliest :: rest)) current
                walk_start first Hg walk_start_sound) as [Hs Hemit].
    destruct Hemit as (Hprev & c & Ec & Etime & _).
    { left. rewrite get_or_empty_group. simpl. fold first.
      rewrite Z.eqb_refl. discriminate. }
    destruct (Part003_walk_sound minutes isInverted
                (groupByInterval minutes (earliest :: rest)) current
                (map (fun k => first + Z.of_nat k * intervalMs minutes) (seq 1 n'))
                Hg _ Hs) as [_ Htimes].
    unfold chartData_of. cbn [candles].
    rewrite (Htimes Hprev), Ec. simpl. rewrite Etime. f_equal; [lia|].
    rewrite map_map. apply map_ext. intros k.
    unfold intervalMs.
    replace (first + Z.of_nat k * (minutes * 60 * 1000))
      with (first + Z.of_nat k * (minutes * 60) * 1000) by lia.
    apply Z.div_add. lia.
  - assert (Hmult : exists a b, first = a * intervalMs minutes /\
                                current = b * intervalMs minutes)
      by (unfold first, current, intervalKey; eauto).
    destruct Hmult as (a & b & Ea & Eb).
    assert (a + (Z.of_nat n - 1) <= b < a + Z.of_nat n) by nia. nia.
Qed.

Lemma priced_timeline_without_gaps_witness :
  map time (candles (Part003.processSwapEvents 60 false (150 * minute) scenario)) =
  [0; 3600; 7200].
Proof.
  apply (priced_timeline_without_gaps 60 false (150 * minute) scenario
           (buy (5 * minute) 10 100)
           [sell (40 * minute) 5 60; buy (70 * minute) 2 30]).
  - simpl; tauto.
  - repeat constructor; eexists; reflexivity.
  - reflexivity.
  - vm_compute; discriminate.
Defined.

(** ** Volume bars against candles *)

Lemma pushTradeCandle_paired (isInverted : bool) (time_s : Z) (first : Trade)
      (others : list Trade) (w : Walk) :
  Forall2 bar_of_candle (w_candles w) (w_volumes w) ->
  Forall2 bar_of_candle
          (w_candles (pushTradeCandle isInverted time_s first others w))
          (w_volumes (pushTradeCandle isInverted time_s first others w)).
Proof.
  intros H. unfold pushTradeCandle.
  destruct (fold_left _ _ _) as [[h l] v]. simpl.
  apply Forall2_app; [assumption|]. constructor; [|constructor].
  split; reflexivity.
Qed.

Lemma pushFlatCandle_paired (time_s : Z) (price : Q) (w : Walk) :
  Forall2 bar_of_candle (w_candles w) (w_volumes w) ->
  Forall2 bar_of_candle (w_candles (pushFlatCandle time_s price w))
                        (w_volumes (pushFlatCandle time_s price w)).
Proof.
  intros H. simpl. apply Forall2_app; [assumption|].
  constructor; [|constructor]. split; [reflexivity|]. simpl. auto.
Qed.

Lemma ChartJs_visit_paired (isInverted : bool) (m : IntervalMap) (w : Walk) (t : Z) :
  Forall2 bar_of_candle (w_candles w) (w_volumes w) ->
  Forall2 bar_of_candle (w_candles (ChartJs.visitInterval isInverted m w t))
                        (w_volumes (ChartJs.visitInterval isInverted m w t)).
Proof.
  intros H. unfold ChartJs.visitInterval.
  destruct (get_or_empty m t) as [|first others].
  - destruct (previousClose w); [now apply pushFlatCandle_paired | assumption].
  - now apply pushTradeCandle_paired.
Qed.

Lemma Part003_visit_paired (minutes : Z) (isInverted : bool) (m : IntervalMap)
      (currentInterval : Z) (w : Walk) (t : Z) :
  Forall2 bar_of_candle (w_candles w) (w_volumes w) ->
  Forall2 bar_of_candle
    (w_candles (Part003.visitInterval minutes isInverted m currentInterval w t))
    (w_volumes (Part003.visitInterval minutes isInverted m currentInterval w t)).
Proof.
  intros H. unfold Part003.visitInterval.
  destruct (get_or_empty m t) as [|first others].
  - destruct (previousClose w); [now apply pushFlatCandle_paired|].
    destruct (Part003.lookAhead _ _ _); [|assumption].
    cbn [w_candles w_volumes]. now apply pushFlatCandle_paired.
  - now apply pushTradeCandle_paired.
Qed.

Lemma fold_left_invariant {S T : Type} (P : S -> Prop) (f : S -> T -> S)
      (l : list T) :
  (forall a t, P a -> P (f a t)) -> forall a, P a -> P (fold_left f l a).
Proof.
  intros Hstep. induction l as [|t l IH]; intros a Ha; simpl; auto.
Qed.

(** The two arrays [processSwapEvents] returns go in step, whatever the
    trades: the bar at index [i] has the time of the candle at index [i]; it
    is a zero bar in the empty colour exactly when the candle counts no
    trade, and otherwise it takes the up colour when the candle's
    [close >= open] and the down colour when not. *)
Theorem volumes_go_with_candles (minutes : Z) (isInverted : bool)
        (currentTime : Z) (tradeEvents : list Trade) :
  let plain := ChartJs.processSwapEvents minutes isInverted tradeEvents in
  let timed := Part003.processSwapEvents minutes isInverted currentTime
                                         tradeEvents in
  Forall2 bar_of_candle (candles plain) (volumes plain) /\
  Forall2 bar_of_candle (candles timed) (volumes timed).
Proof.
  split.
  - unfold ChartJs.processSwapEvents. destruct tradeEvents as [|t r]; [constructor|].
    apply (fold_left_invariant
             (fun w => Forall2 bar_of_candle (w_candles w) (w_volumes w)));
      [|constructor].
    intros a k. apply ChartJs_visit_paired.
  - unfold Part003.processSwapEvents.
    destruct (sortBy timestamp tradeEvents) as [|e r]; [constructor|].
    apply (fold_left_invariant
             (fun w => Forall2 bar_of_candle (w_candles w) (w_volumes w)));
      [|constructor].
    intros a k. apply Part003_visit_paired.
Qed.

(** ** Candle times ascend *)

Lemma pushTradeCandle_one (isInverted : bool) (time_s : Z) (first : Trade)
      (others : list Trade) (w : Walk) :
  exists c,
    w_candles (pushTradeCandle isInverted time_s first others w) =
      w_candles w ++ [c] /\
    time c = time_s /\ tradeCount c = length (first :: others).
Proof.
  unfold pushTradeCandle. destruct (fold_left _ _ _) as [[h l] v]. simpl.
  eexists. split; [reflexivity|]. split; reflexivity.
Qed.

Lemma ChartJs_emits_at_most_one (isInverted : bool) (m : IntervalMap) :
  emits_at_most_one (ChartJs.visitInterval isInverted m).
Proof.
  intros w t. unfold ChartJs.visitInterval.
  destruct (get_or_empty m t) as [|first others].
  - destruct (previousClose w); [|now left].
    right. eexists. split; reflexivity.
  - right. destruct (pushTradeCandle_one isInverted (t / 1000) first others w)
      as (c & E & Et & _). eauto.
Qed.

Lemma Part003_emits_at_most_one (minutes : Z) (isInverted : bool)
      (m : IntervalMap) (currentInterval : Z) :
  emits_at_most_one (Part003.visitInterval minutes isInverted m currentInterval).
Proof.
  intros w t. unfold Part003.visitInterval.
  destruct (get_or_empty m t) as [|first others].
  - destruct (previousClose w).
    + right. eexists. split; reflexivity.
    + destruct (Part003.lookAhead _ _ _); [|now left].
      right. eexists. split; reflexivity.
  - right. destruct (pushTradeCandle_one isInverted (t / 1000) first others w)
      as (c & E & Et & _). eauto.
Qed.

Lemma StronglySorted_snoc {A : Type} (R : A -> A -> Prop) (l : list A) (x : A) :
  StronglySorted R l -> Forall (fun y => R y x) l -> StronglySorted R (l ++ [x]).
Proof.
  induction l as [|a l IH]; intros Hs Hall; simpl.
  - repeat constructor.
  - inversion Hs; subst. inversion Hall; subst.
    constructor; [now apply IH|].
    apply Forall_app. split; [assumption | now constructor].
Qed.

(** Interval starts at least [step] seconds apart give candle times at least
    [step] seconds apart. *)
Lemma walk_times_spaced (visit : Walk -> Z -> Walk) (step : Z) :
  emits_at_most_one visit ->
  forall times,
    StronglySorted (fun a b => a + step * 1000 <= b) times ->
    forall w,
      StronglySorted (fun a b => a + step <= b) (map time (w_candles w)) ->
      Forall (fun t => Forall (fun c => time c + step <= t / 1000) (w_candles w))
             times ->
      StronglySorted (fun a b => a + step <= b)
                     (map time (w_candles (fold_left visit times w))).
Proof.
  intros Hemit. induction times as [|t times IH]; intros Hs w Hw Hahead; simpl.
  - assumption.
  - inversion Hs as [|? ? Hs' Hgap]; subst.
    inversion Hahead as [|? ? Ht Hrest]; subst.
    apply IH; [assumption| |].
    + destruct (Hemit w t) as [-> | (c & -> & Ec)]; [assumption|].
      rewrite map_app. simpl. apply StronglySorted_snoc; [assumption|].
      rewrite Forall_map. rewrite Ec. exact Ht.
    + rewrite Forall_forall in *. intros t' Ht'.
      destruct (Hemit w t) as [-> | (c & -> & Ec)]; [now apply Hrest|].
      apply Forall_app. split; [now apply Hrest|].
      constructor; [|constructor]. rewrite Ec.
      specialize (Hgap t' Ht').
      assert ((t + step * 1000) / 1000 <= t' / 1000)
        by (apply Z.div_le_mono; lia).
      rewrite Z.div_add in H by lia. exact H.
Qed.

Lemma timeline_loop_spaced (minutes currentInterval : Z) :
  0 < intervalMs minutes ->
  forall n from,
    StronglySorted (fun a b => a + intervalMs minutes <= b)
                   (Part003.timeline_loop minutes n from currentInterval) /\
    Forall (fun t => from <= t)
           (Part003.timeline_loop minutes n from currentInterval).
Proof.
  intros Hw. induction n as [|n IH]; intros from; simpl.
  - split; constructor.
  - destruct (from <=? currentInterval); [|split; constructor].
    destruct (IH (from + intervalMs minutes)) as [Hs Hall].
    split.
    + constructor; [assumption|].
      eapply Forall_impl; [|exact Hall]. simpl. intros. lia.
    + constructor; [lia|].
      eapply Forall_impl; [|exact Hall]. simpl. intros. lia.
Qed.

(** What the keys of [tradesByInterval] are. *)
Lemma map_push_keys (key : Z) (trade : Trade) (m : IntervalMap) :
  (forall k, In k (map_keys (map_push key trade m)) <-> k = key \/ In k (map_keys m)) /\
  (NoDup (map_keys m) -> NoDup (map_keys (map_push key trade m))).
Proof.
  unfold map_keys. induction m as [|[k0 trades] rest [IHin IHnd]]; simpl.
  - split; [intros k; intuition | intros _; repeat constructor; auto].
  - destruct (Z.eqb_spec k0 key) as [->|Hne]; simpl.
    + split; [intros k; intuition | auto].
    + split.
      * intros k. rewrite IHin. intuition.
      * intros Hnd. inversion Hnd; subst. constructor; [|auto].
        rewrite IHin. intuition.
Qed.

Lemma groupByInterval_keys (minutes : Z) (tradeEvents : list Trade) :
  NoDup (map_keys (groupByInterval minutes tradeEvents)) /\
  forall k, In k (map_keys (groupByInterval minutes tradeEvents)) <->
            exists t, In t tradeEvents /\ intervalKey minutes (timestamp t) = k.
Proof.
  unfold groupByInterval.
  assert (H : forall l m,
             NoDup (map_keys m) ->
             NoDup (map_keys (fold_left (fun m trade =>
                      map_push (intervalKey minutes (timestamp trade)) trade m) l m)) /\
             forall k, In k (map_keys (fold_left (fun m trade =>
                      map_push (intervalKey minutes (timestamp trade)) trade m) l m)) <->
                       In k (map_keys m) \/
                       exists t, In t l /\ intervalKey minutes (timestamp t) = k).
  { induction l as [|t l IH]; intros m Hnd; simpl.
    - split; [assumption|]. intros k. split; [auto|].
      intros [H|(t & [] & _)]. exact H.
    - destruct (map_push_keys (intervalKey minutes (timestamp t)) t m) as [Hin Hn].
      destruct (IH _ (Hn Hnd)) as [Hnd' Hin'].
      split; [assumption|]. intros k. rewrite Hin', Hin.
      split.
      + intros [[->|H]|(t' & Ht' & E)].
        * right. exists t. auto.
        * now left.
        * right. exists t'. auto.
      + intros [H|(t' & [->|Ht'] & E)].
        * left. now right.
        * left. left. now symmetry.
        * right. exists t'. auto. }
  destruct (H tradeEvents [] (NoDup_nil _)) as [Hnd Hin].
  split; [assumption|]. intros k. rewrite Hin. simpl. tauto.
Qed.

Lemma multiples_spaced (width : Z) (l : list Z) :
  0 < width ->
  Sorted (key_le (fun k => k)) l -> NoDup l ->
  Forall (fun k => exists q, k = q * width) l ->
  StronglySorted (fun a b => a + width <= b) l.
Proof.
  intros Hw Hs Hnd Hmul.
  apply Sorted_StronglySorted in Hs; [|apply key_le_trans].
  induction l as [|a l IH]; [constructor|].
  inversion Hs as [|? ? Hs' Hle]; subst. inversion Hnd as [|? ? Hnotin Hnd']; subst.
  inversion Hmul as [|? ? [qa Ea] Hmul']; subst.
  constructor; [now apply IH|].
  rewrite Forall_forall in *. intros b Hb.
  destruct (Hmul' b Hb) as [qb Eb]. specialize (Hle b Hb). unfold key_le in Hle.
  assert (Hne : qa * width <> b) by (intros E; apply Hnotin; now rewrite E).
  subst b.
  destruct (Z.lt_ge_cases qa qb) as [Hlt|Hge].
  - assert ((qa + 1) * width <= qb * width)
      by (apply Z.mul_le_mono_nonneg_r; lia). lia.
  - assert (qb * width <= qa * width)
      by (apply Z.mul_le_mono_nonneg_r; lia). lia.
Qed.

(** For every supported width, the candle times of [chart.js] and of
    [part_003] ascend strictly, any two being at least one interval width
    (in seconds) apart: no interval gets two candles and none comes out of
    order, whatever the trades. *)
Theorem candle_times_ascend (minutes : Z) (isInverted : bool) (currentTime : Z)
        (tradeEvents : list Trade) :
  In minutes timeframes ->
  StronglySorted (fun a b => a + minutes * 60 <= b)
    (map time (candles (ChartJs.processSwapEvents minutes isInverted tradeEvents))) /\
  StronglySorted (fun a b => a + minutes * 60 <= b)
    (map time (candles (Part003.processSwapEvents minutes isInverted currentTime
                                                  tradeEvents))).
Proof.
  intros Hm. apply timeframes_positive in Hm.
  assert (Ew : minutes * 60 * 1000 = intervalMs minutes) by reflexivity.
  split.
  - unfold ChartJs.processSwapEvents. destruct tradeEvents as [|t r]; [constructor|].
    apply walk_times_spaced.
    + apply ChartJs_emits_at_most_one.
    + rewrite Ew.
      destruct (groupByInterval_keys minutes (sortBy timestamp (t :: r)))
        as [Hnd Hin].
      apply multiples_spaced; [assumption|apply sortBy_Sorted| |].
      * eapply Permutation_NoDup; [|exact Hnd].
        symmetry. apply sortBy_Permutation.
      * rewrite Forall_forall. intros k Hk.
        eapply Permutation_in in Hk; [|apply sortBy_Permutation].
        apply Hin in Hk. destruct Hk as (t' & _ & <-).
        unfold intervalKey. eauto.
    + constructor.
    + rewrite Forall_forall. intros; constructor.
  - unfold Part003.processSwapEvents.
    destruct (sortBy timestamp tradeEvents) as [|e r]; [constructor|].
    apply walk_times_spaced.
    + apply Part003_emits_at_most_one.
    + rewrite Ew. apply timeline_loop_spaced. assumption.
    + constructor.
    + rewrite Forall_forall. intros; constructor.
Qed.

Lemma candle_times_ascend_witness :
  StronglySorted (fun a b => a + 60 * 60 <= b)
    (map time (candles (Part003.processSwapEvents 60 true (150 * minute) scenario))).
Proof.
  apply (candle_times_ascend 60 true (150 * minute) scenario).
  simpl; tauto.
Defined.

(** ** Every trade is counted once *)

(** Either callback adds to the trade counts exactly the size of the array
    filed under the interval it visits. *)
Lemma ChartJs_visit_counts (isInverted : bool) (m : IntervalMap) (w : Walk) (t : Z) :
  list_sum (map tradeCount (w_candles (ChartJs.visitInterval isInverted m w t))) =
  (list_sum (map tradeCount (w_candles w)) + length (get_or_empty m t))%nat /\
  (get_or_empty m t <> [] ->
   Forall (fun c => tradeCount c <> O) (w_candles w) ->
   Forall (fun c => tradeCount c <> O)
          (w_candles (ChartJs.visitInterval isInverted m w t))).
Proof.
  unfold ChartJs.visitInterval.
  destruct (get_or_empty m t) as [|first others].
  - split; [|congruence].
    destruct (previousClose w); simpl; [|lia].
    rewrite map_app, list_sum_app. simpl. lia.
  - destruct (pushTradeCandle_one isInverted (t / 1000) first others w)
      as (c & -> & _ & Ec).
    split.
    + rewrite map_app, list_sum_app. simpl. rewrite Ec. simpl. lia.
    + intros _ H. apply Forall_app. split; [assumption|].
      constructor; [|constructor]. rewrite Ec. discriminate.
Qed.

Lemma Part003_visit_counts (minutes : Z) (isInverted : bool) (m : IntervalMap)
      (currentInterval : Z) (w : Walk) (t : Z) :
  list_sum (map tradeCount
     (w_candles (Part003.visitInterval minutes isInverted m currentInterval w t))) =
  (list_sum (map tradeCount (w_candles w)) + length (get_or_empty m t))%nat.
Proof.
  unfold Part003.visitInterval.
  destruct (get_or_empty m t) as [|first others].
  - destruct (previousClose w); simpl.
    + rewrite map_app, list_sum_app. simpl. lia.
    + destruct (Part003.lookAhead _ _ _); simpl; [|lia].
      rewrite map_app, list_sum_app. simpl. lia.
  - destruct (pushTradeCandle_one isInverted (t / 1000) first others w)
      as (c & -> & _ & Ec).
    rewrite map_app, list_sum_app. simpl. rewrite Ec. simpl. lia.
Qed.

Lemma walk_counts (visit : Walk -> Z -> Walk) (m : IntervalMap) :
  (forall w t,
     list_sum (map tradeCount (w_candles (visit w t))) =
     (list_sum (map tradeCount (w_candles w)) + length (get_or_empty m t))%nat) ->
  forall times w,
    list_sum (map tradeCount (w_candles (fold_left visit times w))) =
    (list_sum (map tradeCount (w_candles w)) +
     list_sum (map (fun t => length (get_or_empty m t)) times))%nat.
Proof.
  intros Hv. induction times as [|t times IH]; intros w; simpl; [lia|].
  rewrite IH, Hv. lia.
Qed.

Lemma filter_or_length {A : Type} (p q : A -> bool) (l : list A) :
  (forall x, In x l -> p x = true -> q x = false) ->
  length (filter (fun x => p x || q x) l) =
  (length (filter p l) + length (filter q l))%nat.
Proof.
  induction l as [|x l IH]; intros Hd; [reflexivity|].
  assert (IH' := IH (fun y Hy => Hd y (or_intror Hy))).
  cbn [filter]. destruct (p x) eqn:Ep.
  - rewrite (Hd x (or_introl eq_refl) Ep). simpl. lia.
  - destruct (q x); simpl; lia.
Qed.

(** The sizes of the arrays filed under distinct keys add up to the number
    of trades whose key is among them. *)
Lemma bucket_sizes_add_up (key : Trade -> Z) (l : list Trade) (ks : list Z) :
  NoDup ks ->
  list_sum (map (fun k => length (filter (fun t => key t =? k) l)) ks) =
  length (filter (fun t => existsb (Z.eqb (key t)) ks) l).
Proof.
  induction ks as [|k ks IH]; intros Hnd; simpl.
  - induction l; simpl; auto.
  - inversion Hnd as [|? ? Hnotin Hnd']; subst.
    rewrite IH by assumption. symmetry.
    apply filter_or_length. intros t _ Ek. apply Z.eqb_eq in Ek.
    destruct (existsb (Z.eqb (key t)) ks) eqn:Ex; [|reflexivity].
    apply existsb_exists in Ex. destruct Ex as (k' & Hin & Ek').
    apply Z.eqb_eq in Ek'. exfalso. apply Hnotin. congruence.
Qed.

Lemma filter_true_length {A : Type} (f : A -> bool) (l : list A) :
  (forall x, In x l -> f x = true) -> length (filter f l) = length l.
Proof.
  induction l as [|x l IH]; intros H; simpl; [reflexivity|].
  rewrite (H x (or_introl eq_refl)). simpl. f_equal. apply IH.
  intros; apply H; now right.
Qed.

(** [chart.js] gives one candle to each interval that holds a trade and to no
    other: no candle counts zero trades (the flat-candle branch is never
    taken), and for every supported width the trade counts of the candles
    add up to the number of trades handed in, priced or not. *)
Theorem chartjs_counts_every_trade (minutes : Z) (isInverted : bool)
        (tradeEvents : list Trade) :
  In minutes timeframes ->
  let cs := candles (ChartJs.processSwapEvents minutes isInverted tradeEvents) in
  list_sum (map tradeCount cs) = length tradeEvents /\
  Forall (fun c => tradeCount c <> O) cs.
Proof.
  intros _ cs. unfold cs, ChartJs.processSwapEvents.
  destruct tradeEvents as [|t0 r]; [split; [reflexivity | constructor]|].
  set (sorted := sortBy timestamp (t0 :: r)).
  destruct (groupByInterval_keys minutes sorted) as [Hnd Hin].
  set (m := groupByInterval minutes sorted) in *.
  set (ks := sortBy (fun k => k) (map_keys m)).
  assert (Hperm : Permutation ks (map_keys m)) by apply sortBy_Permutation.
  split.
  - cbn [candles chartData_of].
    rewrite (walk_counts (ChartJs.visitInterval isInverted m) m)
      by (intros; apply ChartJs_visit_counts).
    simpl.
    rewrite (map_ext _ (fun k => length (filter
               (fun t => intervalKey minutes (timestamp t) =? k) sorted)))
      by (intros; unfold m; now rewrite get_or_empty_group).
    rewrite bucket_sizes_add_up
      by (eapply Permutation_NoDup; [symmetry; exact Hperm | exact Hnd]).
    rewrite filter_true_length.
    + change (S (length r)) with (length (t0 :: r)).
      apply Permutation_length. apply sortBy_Permutation.
    + intros t Ht. apply existsb_exists.
      exists (intervalKey minutes (timestamp t)). split; [|apply Z.eqb_refl].
      eapply Permutation_in; [symmetry; exact Hperm|]. apply Hin. eauto.
  - cbn [candles chartData_of].
    assert (Hne : Forall (fun k => get_or_empty m k <> []) ks).
    { rewrite Forall_forall. intros k Hk.
      eapply Permutation_in in Hk; [|exact Hperm].
      apply Hin in Hk. destruct Hk as (t & Ht & Ek).
      unfold m. rewrite get_or_empty_group. intros E.
      assert (Hf : In t (filter (fun t => intervalKey minutes (timestamp t) =? k)
                                sorted))
        by (apply filter_In; split; [assumption | now apply Z.eqb_eq]).
      rewrite E in Hf. destruct Hf. }
    clearbody ks. clear Hperm.
    assert (Hgen : forall w, Forall (fun c => tradeCount c <> O) (w_candles w) ->
               Forall (fun c => tradeCount c <> O)
                 (w_candles (fold_left (ChartJs.visitInterval isInverted m) ks w))).
    { induction ks as [|k ks IH]; intros w Hw; simpl; [assumption|].
      inversion Hne; subst. apply IH; [assumption|].
      now apply ChartJs_visit_counts. }
    apply Hgen. constructor.
Qed.

Lemma chartjs_counts_every_trade_witness :
  let cs := candles (ChartJs.processSwapEvents 5 false
                       [buy 0 1 10; unpriced 1000; buy (10 * minute) 1 12]) in
  list_sum (map tradeCount cs) = 3%nat /\
  Forall (fun c => tradeCount c <> O) cs.
Proof.
  apply (chartjs_counts_every_trade 5 false
           [buy 0 1 10; unpriced 1000; buy (10 * minute) 1 12]).
  simpl; tauto.
Defined.

Lemma filter_length_Permutation {A : Type} (f : A -> bool) (l l' : list A) :
  Permutation l l' -> length (filter f l) = length (filter f l').
Proof.
  induction 1 as [|x l l' _ IH|x y l|l l' l'' _ IH1 _ IH2]; simpl.
  - reflexivity.
  - destruct (f x); simpl; congruence.
  - destruct (f x), (f y); reflexivity.
  - congruence.
Qed.

Lemma spaced_NoDup (width : Z) (l : list Z) :
  0 < width -> StronglySorted (fun a b => a + width <= b) l -> NoDup l.
Proof.
  intros Hw. induction 1 as [|a l _ IH Hall]; constructor; [|assumption].
  intros Hin. rewrite Forall_forall in Hall. specialize (Hall a Hin). lia.
Qed.

Lemma timeline_loop_below (minutes currentInterval : Z) (n : nat) (from : Z) :
  Forall (fun t => t <= currentInterval)
         (Part003.timeline_loop minutes n from currentInterval).
Proof.
  revert from. induction n as [|n IH]; intros from; simpl; [constructor|].
  destruct (Z.leb_spec from currentInterval); constructor; auto.
Qed.

(** The timeline holds exactly the interval starts from the first one to the
    clock's. *)
Lemma timeline_In (minutes from currentInterval k : Z) :
  0 < intervalMs minutes ->
  In k (Part003.timeline minutes from currentInterval) <->
  k <= currentInterval /\ exists j, 0 <= j /\ k = from + j * intervalMs minutes.
Proof.
  intros Hw. destruct (Z.le_gt_cases from currentInterval) as [Hle|Hgt].
  - destruct (timeline_full minutes from currentInterval Hw Hle) as [-> Hn].
    set (n := Z.to_nat ((currentInterval - from) / intervalMs minutes + 1)) in *.
    rewrite in_map_iff. split.
    + intros (j & <- & Hj). apply in_seq in Hj. split.
      * assert (Z.of_nat j * intervalMs minutes
                <= (Z.of_nat n - 1) * intervalMs minutes)
          by (apply Z.mul_le_mono_nonneg_r; lia). lia.
      * exists (Z.of_nat j). split; [lia | reflexivity].
    + intros (Hk & j & Hj & ->). exists (Z.to_nat j).
      split; [rewrite Z2Nat.id by lia; reflexivity|].
      apply in_seq. split; [lia|]. simpl.
      destruct (Z.lt_ge_cases j (Z.of_nat n)) as [Hlt|Hge]; [lia|].
      assert (Z.of_nat n * intervalMs minutes <= j * intervalMs minutes)
        by (apply Z.mul_le_mono_nonneg_r; lia). lia.
  - rewrite timeline_nil by assumption. split; [intros []|].
    intros (Hk & j & Hj & ->).
    assert (0 <= j * intervalMs minutes) by (apply Z.mul_nonneg_nonneg; lia). lia.
Qed.

(** For every supported width the trade counts of the candles of [part_003]
    add up to the number of trades whose interval is not after the clock's:
    each such trade, priced or not, is counted in exactly one candle, and
    trades of later intervals are left out. *)
Theorem part003_counts_trades_up_to_now (minutes : Z) (isInverted : bool)
        (currentTime : Z) (tradeEvents : list Trade) :
  In minutes timeframes ->
  list_sum (map tradeCount
     (candles (Part003.processSwapEvents minutes isInverted currentTime
                                         tradeEvents))) =
  length (filter (fun t => intervalKey minutes (timestamp t)
                           <=? intervalKey minutes currentTime) tradeEvents).
Proof.
  intros Hm. apply timeframes_positive in Hm.
  rewrite (filter_length_Permutation _ tradeEvents (sortBy timestamp tradeEvents))
    by (symmetry; apply sortBy_Permutation).
  unfold Part003.processSwapEvents.
  destruct (sortBy timestamp tradeEvents) as [|earliest rest] eqn:Es;
    [reflexivity|].
  set (sorted := earliest :: rest) in *.
  set (m := groupByInterval minutes sorted).
  set (first := intervalKey minutes (timestamp earliest)).
  set (current := intervalKey minutes currentTime).
  cbn [candles chartData_of].
  rewrite (walk_counts (Part003.visitInterval minutes isInverted m current) m)
    by (intros; apply Part003_visit_counts).
  change (list_sum (map tradeCount (w_candles walk_start))) with O.
  rewrite Nat.add_0_l.
  rewrite (map_ext _ (fun k => length (filter
             (fun t => intervalKey minutes (timestamp t) =? k) sorted)))
    by (intros; unfold m; now rewrite get_or_empty_group).
  rewrite bucket_sizes_add_up.
  - f_equal. apply filter_ext_in. intros t Ht.
    assert (Hfirst : first <= intervalKey minutes (timestamp t)).
    { apply intervalKey_monotone; [assumption|].
      apply (sortBy_head_least timestamp tradeEvents earliest rest Es).
      eapply Permutation_in; [apply sortBy_Permutation|]. rewrite Es. exact Ht. }
    destruct (Z.leb_spec (intervalKey minutes (timestamp t)) current) as [Hle|Hgt].
    + apply existsb_exists. exists (intervalKey minutes (timestamp t)).
      split; [|apply Z.eqb_refl].
      apply timeline_In; [assumption|]. split; [assumption|].
      exists (timestamp t / intervalMs minutes
              - timestamp earliest / intervalMs minutes).
      unfold first, intervalKey in *. split; [|lia].
      apply Zorder.Zle_minus_le_0.
      apply Z.div_le_mono; [assumption|].
      apply (sortBy_head_least timestamp tradeEvents earliest rest Es).
      eapply Permutation_in; [apply sortBy_Permutation|]. rewrite Es. exact Ht.
    + destruct (existsb _ _) eqn:Ex; [|reflexivity].
      apply existsb_exists in Ex. destruct Ex as (k & Hk & Ek).
      apply Z.eqb_eq in Ek. apply timeline_In in Hk; [|assumption]. lia.
  - apply (spaced_NoDup (intervalMs minutes)); [assumption|].
    apply timeline_loop_spaced. assumption.
Qed.

Lemma part003_counts_trades_up_to_now_witness :
  list_sum (map tradeCount
     (candles (Part003.processSwapEvents 60 false (50 * minute) scenario))) = 2%nat.
Proof.
  apply (part003_counts_trades_up_to_now 60 false (50 * minute) scenario).
  simpl; tauto.
Defined.

(** ** [part_002]: unpriced trades, rounding, bounds *)

Lemma pricedTrades_filter (isInverted : bool) (tradeEvents : list Trade) :
  Part002.pricedTrades isInverted (filter has_price tradeEvents) =
  Part002.pricedTrades isInverted tradeEvents.
Proof.
  unfold Part002.pricedTrades, has_price, calculatePrice.
  induction tradeEvents as [|t l IH]; simpl; [reflexivity|].
  destruct (basePrice (data t)) as [b|] eqn:E; simpl.
  - rewrite E. simpl. now rewrite IH.
  - exact IH.
Qed.

(** [part_002] drops the trades it cannot price before anything else: taking
    them out of the input, or putting any number of them in, changes neither
    the candles nor the volumes, nor whether the call fails. *)
Theorem legacy_ignores_unpriced_trades (intervalMinutes : Z) (isInverted : bool)
        (currentTime : Z) (tradeEvents : list Trade) :
  Part002.processSwapEvents intervalMinutes isInverted currentTime
                            (filter has_price tradeEvents) =
  Part002.processSwapEvents intervalMinutes isInverted currentTime tradeEvents.
Proof.
  unfold Part002.processSwapEvents. now rewrite pricedTrades_filter.
Qed.

(** The rounding of [part_002] agrees with the epoch floor of [chart.js] for
    its 30- and 60-minute widths; for its 4-hour and 1-day widths it is the
    epoch floor to the hour. *)
Theorem legacy_rounding_is_floor_to_at_most_an_hour (m d : Z) :
  In m legacy_timeframes ->
  Part002.roundToInterval m d = intervalKey (Z.min m 60) d.
Proof.
  unfold legacy_timeframes, Part002.roundToInterval, intervalKey, intervalMs.
  simpl. intros [<-|[<-|[<-|[<-|[]]]]]; simpl Z.min;
    Z.to_euclidean_division_equations; lia.
Qed.

Lemma legacy_rounding_is_floor_to_at_most_an_hour_witness :
  Part002.roundToInterval 30 (100 * minute) = 90 * minute /\
  Part002.roundToInterval 1440 (100 * minute) = 60 * minute.
Proof.
  split.
  - apply (legacy_rounding_is_floor_to_at_most_an_hour 30 (100 * minute)).
    simpl; tauto.
  - apply (legacy_rounding_is_floor_to_at_most_an_hour 1440 (100 * minute)).
    simpl; tauto.
Defined.

Lemma minOfZ_spec (x : Z) (l : list Z) :
  In (Part002.minOfZ x l) (x :: l) /\
  Forall (fun y => Part002.minOfZ x l <= y) (x :: l).
Proof.
  unfold Part002.minOfZ. revert x. induction l as [|y l IH]; intros x; simpl.
  - split; [now left | repeat constructor; lia].
  - destruct (IH (Z.min x y)) as [Hin Hall]. inversion Hall as [|? ? Hm Hl]; subst.
    split.
    + destruct Hin as [E|Hin]; [|now right; right].
      rewrite <- E. destruct (Z.min_spec x y) as [[_ ->]|[_ ->]]; auto.
    + constructor; [lia|]. constructor; [lia | assumption].
Qed.

Lemma pricedTrades_In (isInverted : bool) (tradeEvents : list Trade)
      (stamp : Z) :
  In stamp (map Part002.pt_timestamp (Part002.pricedTrades isInverted tradeEvents))
  <-> exists t, In t tradeEvents /\ has_price t = true /\ timestamp t = stamp.
Proof.
  unfold Part002.pricedTrades.
  induction tradeEvents as [|t l IH]; cbn [flat_map In].
  - split; [intros [] | intros (t & [] & _)].
  - rewrite map_app, in_app_iff, IH. clear IH. unfold has_price.
    unfold calculatePrice.
    destruct (basePrice (data t)) as [b|] eqn:E; [destruct isInverted|]; simpl.
    + split.
      * intros [[<-|[]]|(t' & Hin & Hp & Et)].
        -- exists t. rewrite E. auto.
        -- exists t'. auto.
      * intros (t' & [<-|Hin] & Hp & Et); [left; now left|].
        right. exists t'. auto.
    + split.
      * intros [[<-|[]]|(t' & Hin & Hp & Et)].
        -- exists t. rewrite E. auto.
        -- exists t'. auto.
      * intros (t' & [<-|Hin] & Hp & Et); [left; now left|].
        right. exists t'. auto.
    + split.
      * intros [[]|(t' & Hin & Hp & Et)]. exists t'. auto.
      * intros (t' & [<-|Hin] & Hp & Et).
        -- rewrite E in Hp. discriminate.
        -- right. exists t'. auto.
Qed.

Lemma intervals_nil_iff (intervalMinutes startInterval endDate : Z) :
  0 < intervalMinutes ->
  Part002.intervals intervalMinutes startInterval endDate = [] <->
  endDate < startInterval.
Proof.
  intros Hm. unfold Part002.intervals.
  destruct (Z.le_gt_cases startInterval endDate) as [Hle|Hgt].
  - assert (0 <= (endDate - startInterval) / (intervalMinutes * 60000))
      by (apply Z.div_pos; lia).
    destruct (Z.to_nat _) eqn:E; [lia|]. simpl.
    destruct (Z.leb_spec startInterval endDate); [|lia].
    split; [discriminate | lia].
  - split; [intros _; assumption | intros _].
    destruct (Z.to_nat _); simpl; [reflexivity|].
    destruct (Z.leb_spec startInterval endDate); [lia | reflexivity].
Qed.

Lemma legacy_rounding_monotone (m a b : Z) :
  In m legacy_timeframes -> a <= b ->
  Part002.roundToInterval m a <= Part002.roundToInterval m b.
Proof.
  unfold legacy_timeframes, Part002.roundToInterval. simpl.
  intros [<-|[<-|[<-|[<-|[]]]]] Hab;
    Z.to_euclidean_division_equations; lia.
Qed.

(** [part_002] fails (the TypeError on the empty interval list) exactly when
    some trade has a price and the clock's rounded interval starts before
    that of every priced trade; in particular it never fails when the clock
    is not before the trades. *)
Theorem legacy_fails_only_before_the_trades (m : Z) (isInverted : bool)
        (currentTime : Z) (tradeEvents : list Trade) :
  In m legacy_timeframes ->
  Part002.processSwapEvents m isInverted currentTime tradeEvents = None <->
  (exists t, In t tradeEvents /\ has_price t = true) /\
  (forall t, In t tradeEvents -> has_price t = true ->
             Part002.roundToInterval m currentTime
             < Part002.roundToInterval m (timestamp t)).
Proof.
  intros Hm.
  assert (Hpos : 0 < m)
    by (unfold legacy_timeframes in Hm; simpl in Hm; intuition lia).
  unfold Part002.processSwapEvents.
  pose proof (pricedTrades_In isInverted tradeEvents) as Hin.
  destruct (Part002.pricedTrades isInverted tradeEvents) as [|p ps].
  - split; [discriminate|]. intros [(t & Ht & Hp) _].
    destruct (proj2 (Hin (timestamp t))) as []. eauto.
  - destruct (minOfZ_spec (Part002.pt_timestamp p) (map Part002.pt_timestamp ps))
      as [Hmin Hall].
    set (startDate := Part002.minOfZ _ _) in *.
    change (Part002.pt_timestamp p :: map Part002.pt_timestamp ps)
      with (map Part002.pt_timestamp (p :: ps)) in Hmin, Hall.
    rewrite Forall_forall in Hall.
    destruct (Part002.intervals m _ _) as [|first later] eqn:Ei.
    + apply intervals_nil_iff in Ei; [|assumption].
      split; [intros _ | reflexivity]. split.
      * apply Hin in Hmin. destruct Hmin as (t & Ht & Hp & _). eauto.
      * intros t Ht Hp.
        assert (startDate <= timestamp t) by (apply Hall, Hin; eauto).
        pose proof (legacy_rounding_monotone m _ _ Hm H). lia.
    + split; [discriminate|]. intros [_ Hbefore]. exfalso.
      assert (Hne : Part002.intervals m (Part002.roundToInterval m startDate)
                      (Part002.roundToInterval m currentTime) <> [])
        by (rewrite Ei; discriminate).
      apply Hne, intervals_nil_iff; [assumption|].
      apply Hin in Hmin. destruct Hmin as (t & Ht & Hp & <-). now apply Hbefore.
Qed.

Lemma legacy_fails_only_before_the_trades_witness :
  Part002.processSwapEvents 60 false 0 [buy (70 * minute) 2 30] = None.
Proof.
  apply (legacy_fails_only_before_the_trades 60 false 0 [buy (70 * minute) 2 30]).
  - simpl; tauto.
  - split.
    + exists (buy (70 * minute) 2 30). split; [now left | reflexivity].
    + intros t [<-|[]] _. reflexivity.
Defined.

(** ** The trade table *)

Lemma Sorted_key_le_StronglySorted {A : Type} (key : A -> Z) (l : list A) :
  Sorted (key_le key) l -> StronglySorted (key_le key) l.
Proof. apply Sorted_StronglySorted, key_le_trans. Qed.

Lemma StronglySorted_map {A B : Type} (f : A -> B) (R : B -> B -> Prop)
      (l : list A) :
  StronglySorted (fun a b => R (f a) (f b)) l -> StronglySorted R (map f l).
Proof.
  induction 1 as [|x l Hl IH Hx]; simpl; constructor; [assumption|].
  rewrite Forall_map. exact Hx.
Qed.

(** The table holds one row per known trade, newest first: the row times
    are the trades' timestamps, rearranged in descending order. *)
Theorem trade_rows_newest_first (isInverted : bool) (rawTrades : list Trade) :
  let rows := TradeHistory.updateTradeHistory isInverted rawTrades in
  Permutation (map TradeHistory.row_time rows) (map timestamp rawTrades) /\
  StronglySorted (fun a b => b <= a) (map TradeHistory.row_time rows).
Proof.
  unfold TradeHistory.updateTradeHistory.
  destruct rawTrades as [|t l]; [split; simpl; constructor|].
  set (trades := t :: l). unfold TradeHistory.newestFirst.
  rewrite map_map. change (fun x => TradeHistory.row_time (TradeHistory.tableRow isInverted x))
    with timestamp.
  split.
  - apply Permutation_map, sortBy_Permutation.
  - apply StronglySorted_map.
    pose proof (Sorted_key_le_StronglySorted _ _
                  (sortBy_Sorted (fun trade => - timestamp trade) trades)) as H.
    eapply StronglySorted_ind with (P := StronglySorted _) in H;
      [exact H | constructor |].
    intros a r _ IH Ha. constructor; [exact IH|].
    eapply Forall_impl; [|exact Ha]. unfold key_le. intros b Hb. simpl in Hb. lia.
Qed.

(** Inversion turns a BUY row into a SELL row and back, and a trade the
    chart can price is never shown as UNKNOWN. *)
Theorem trade_type_flips_with_inversion (isInverted : bool) (swapData : SwapData) :
  TradeHistory.determineTradeType (negb isInverted) swapData =
    TradeHistory.opposite (TradeHistory.determineTradeType isInverted swapData) /\
  (TradeHistory.determineTradeType isInverted swapData = TradeHistory.UNKNOWN ->
   calculatePrice isInverted swapData = None).
Proof.
  unfold TradeHistory.determineTradeType, calculatePrice, basePrice.
  destruct (Qgtb (parseFloat_or_0 (amount0In swapData)) 0),
           (Qgtb (parseFloat_or_0 (amount0Out swapData)) 0),
           isInverted; simpl; split; try reflexivity; try discriminate.
Qed.





(** The modal shows the numbers of the table row, but it labels them with
    the table's symbols only on a BUY entry: on every other entry the two
    symbols are exchanged. *)
Theorem modal_exchanges_symbols_unless_buy (isInverted : bool) (trade : Trade) :
  let row := TradeHistory.tableRow isInverted trade in
  let entry := TradeHistory.modalEntry isInverted trade in
  TradeHistory.row_time entry = TradeHistory.row_time row /\
  TradeHistory.tradeType entry = TradeHistory.tradeType row /\
  TradeHistory.price entry = TradeHistory.price row /\
  TradeHistory.amount entry = TradeHistory.amount row /\
  TradeHistory.value entry = TradeHistory.value row /\
  match TradeHistory.tradeType row with
  | TradeHistory.BUY =>
      TradeHistory.amountSymbol entry = TradeHistory.amountSymbol row /\
      TradeHistory.valueSymbol entry = TradeHistory.valueSymbol row
  | _ =>
      TradeHistory.amountSymbol entry = TradeHistory.valueSymbol row /\
      TradeHistory.valueSymbol entry = TradeHistory.amountSymbol row
  end.
Proof.
  unfold TradeHistory.tableRow, TradeHistory.modalEntry.
  destruct (TradeHistory.determineTradeType isInverted (data trade)),
           isInverted; simpl; repeat split; reflexivity.
Qed.

(** Over binary64 the price of a table row is the price the chart uses,
    whenever the swap's price before inversion is above zero or the pair is
    not inverted; a swap without price is shown at [0]. *)
Theorem table_price_agrees_with_chart (isInverted : bool)
        (amount0In amount0Out amount1In amount1Out : PrimFloat.float) :
  match Binary64.calculatePrice false amount0In amount0Out amount1In amount1Out with
  | Some price =>
      isInverted = false \/ Binary64.gt_0 price = true ->
      Binary64.calculatePrice isInverted amount0In amount0Out amount1In amount1Out
      = Some (Binary64.tradeHistoryPrice isInverted amount0In amount0Out
                                         amount1In amount1Out)
  | None =>
      Binary64.calculatePrice isInverted amount0In amount0Out amount1In amount1Out
      = None /\
      Binary64.tradeHistoryPrice isInverted amount0In amount0Out amount1In amount1Out
      = Binary64.zero
  end.
Proof.
  unfold Binary64.calculatePrice, Binary64.tradeHistoryPrice, Binary64.zero.
  cbv zeta.
  destruct (Binary64.gt_0 (Binary64.or_0 amount0Out)
            && Binary64.gt_0 (Binary64.or_0 amount1In)).
  - intros [->|H]; [reflexivity|]. rewrite H. now destruct isInverted.
  - destruct (Binary64.gt_0 (Binary64.or_0 amount0In)
              && Binary64.gt_0 (Binary64.or_0 amount1Out)).
    + intros [->|H]; [reflexivity|]. rewrite H. now destruct isInverted.
    + split; [reflexivity|].
      destruct isInverted; reflexivity.
Qed.

(** ** Live updates *)

Lemma last_of_sorted_greatest {A : Type} (key : A -> Z) (l : list A) (d : A) :
  StronglySorted (key_le key) l ->
  Forall (fun x => key x <= key (last l d)) l.
Proof.
  induction 1 as [|x l Hl IH Hx]; [constructor|].
  destruct l as [|y r]; [repeat constructor; simpl; lia|].
  change (last (x :: y :: r) d) with (last (y :: r) d).
  constructor; [|exact IH].
  inversion IH as [|? ? Hy _]; subst. inversion Hx as [|? ? Hxy _]; subst.
  unfold key_le in Hxy. lia.
Qed.

Lemma last_nonempty_In {A : Type} (l : list A) (d : A) :
  l <> [] -> In (last l d) l.
Proof.
  induction l as [|x [|y r] IH]; intros Hne; [congruence | now left |].
  right. apply IH. discriminate.
Qed.

Lemma mostRecentTime_greatest (first : Trade) (trades : list Trade) :
  Forall (fun t => timestamp t <= LiveUpdates.mostRecentTime first trades) trades.
Proof.
  unfold LiveUpdates.mostRecentTime.
  pose proof (last_of_sorted_greatest timestamp _ first
                (Sorted_key_le_StronglySorted _ _ (sortBy_Sorted timestamp trades)))
    as H.
  rewrite Forall_forall in *. intros t Ht. apply H.
  eapply Permutation_in; [symmetry; apply sortBy_Permutation | exact Ht].
Qed.

(** A live update with at least one new trade leaves [rawTrades] holding the
    trades known before and the new ones, each once, in ascending order of
    time; whether or not the chart was redrawn. *)
Theorem live_update_merges_in_time_order (minutes : Z) (isInverted : bool)
        (currentTime : Z) (newTrades : list Trade) (c : Part003.Controller) :
  newTrades <> [] ->
  let updated :=
    Part003.updateChartWithNewTrades minutes isInverted currentTime newTrades c in
  Permutation (Part003.rawTrades updated) (Part003.rawTrades c ++ newTrades) /\
  StronglySorted (fun a b => timestamp a <= timestamp b)
                 (Part003.rawTrades updated).
Proof.
  intros Hne. unfold Part003.updateChartWithNewTrades.
  destruct newTrades as [|t l]; [congruence|].
  cbv zeta. rewrite publish_rawTrades. split.
  - apply sortBy_Permutation.
  - apply (Sorted_key_le_StronglySorted timestamp), sortBy_Sorted.
Qed.

Lemma live_update_merges_in_time_order_witness :
  let updated :=
    Part003.updateChartWithNewTrades 60 false (150 * minute)
      [buy (70 * minute) 2 30]
      {| Part003.rawTrades := [sell (40 * minute) 5 60; buy (5 * minute) 10 100];
         Part003.series := None |} in
  Part003.rawTrades updated = scenario /\
  StronglySorted (fun a b => timestamp a <= timestamp b)
                 (Part003.rawTrades updated).
Proof.
  split; [reflexivity|].
  apply (live_update_merges_in_time_order 60 false (150 * minute)
           [buy (70 * minute) 2 30]).
  discriminate.
Defined.

(** Along a session the watermark of the live query is never behind a trade
    the controller holds: when the timer is started, and after every answer
    of the query service. *)
Theorem watermark_covers_known_trades (minutes : Z) (isInverted : bool)
        (s : LiveUpdates.LiveState) :
  LiveUpdates.live_run minutes isInverted s ->
  Forall (fun t => timestamp t <= LiveUpdates.lastUpdateTime s)
         (Part003.rawTrades (LiveUpdates.controller s)).
Proof.
  induction 1 as [now c | now newTrades s Hrun IH Hnew].
  - unfold LiveUpdates.startLiveUpdates.
    destruct (Part003.rawTrades c) as [|first rest] eqn:E; simpl.
    + rewrite E. constructor.
    + rewrite E. apply mostRecentTime_greatest.
  - unfold LiveUpdates.liveTick.
    destruct newTrades as [|first rest]; [exact IH|].
    cbn [LiveUpdates.controller LiveUpdates.lastUpdateTime].
    unfold Part003.updateChartWithNewTrades. cbv zeta.
    rewrite publish_rawTrades.
    pose proof (mostRecentTime_greatest first (first :: rest)) as Hmax.
    rewrite Forall_forall in *. intros t Ht.
    eapply Permutation_in in Ht; [|apply sortBy_Permutation].
    apply in_app_or in Ht. destruct Ht as [Ht|Ht]; [|now apply Hmax].
    specialize (IH t Ht). specialize (Hnew first (or_introl eq_refl)).
    specialize (Hmax first (or_introl eq_refl)). lia.
Qed.

Lemma watermark_covers_known_trades_witness :
  let started :=
    LiveUpdates.startLiveUpdates 0
      {| Part003.rawTrades := [sell (40 * minute) 5 60; buy (5 * minute) 10 100];
         Part003.series := None |} in
  let ticked :=
    LiveUpdates.liveTick 60 false (150 * minute) [buy (70 * minute) 2 30] started in
  LiveUpdates.lastUpdateTime started = 40 * minute /\
  LiveUpdates.lastUpdateTime ticked = 70 * minute /\
  Forall (fun t => timestamp t <= LiveUpdates.lastUpdateTime ticked)
         (Part003.rawTrades (LiveUpdates.controller ticked)).
Proof.
  intros started ticked.
  split; [reflexivity|]. split; [reflexivity|].
  apply (watermark_covers_known_trades 60 false ticked).
  apply LiveUpdates.live_ticked; [apply LiveUpdates.live_started|].
  repeat constructor. discriminate.
Defined.

(** ** The pairs list *)

Lemma price_get_app (m : Pairs.PriceMap) (k : String.string) (v : Q)
      (wanted : String.string) :
  Pairs.price_get (m ++ [(k, v)]) wanted =
  match Pairs.price_get m wanted with
  | Some x => Some x
  | None => if String.eqb k wanted then Some v else None
  end.
Proof.
  induction m as [|[k' v'] m IH]; simpl; [reflexivity|].
  destruct (String.eqb k' wanted); [reflexivity | exact IH].
Qed.

Lemma price_get_None (m : Pairs.PriceMap) (k : String.string) :
  Pairs.price_get m k = None <-> ~ In k (map fst m).
Proof.
  induction m as [|[k' v'] m IH]; simpl; [tauto|].
  destruct (String.eqb_spec k' k) as [->|Hne].
  - split; [discriminate | tauto].
  - rewrite IH. tauto.
Qed.

Lemma price_get_In (m : Pairs.PriceMap) (k : String.string) (v : Q) :
  Pairs.price_get m k = Some v -> In (k, v) m.
Proof.
  induction m as [|[k' v'] m IH]; simpl; [discriminate|].
  destruct (String.eqb_spec k' k) as [->|Hne].
  - intros [= ->]. now left.
  - intros H. right. now apply IH.
Qed.

Section FirstPrices.
Variable isInverted : bool.
Variable keep : Q -> bool.

Let step (prices : Pairs.PriceMap) (edge : Pairs.SwapEdge) : Pairs.PriceMap :=
  match Pairs.price_get prices (Pairs.pair edge) with
  | Some _ => prices
  | None =>
      match calculatePrice isInverted (Pairs.swapData edge) with
      | Some price =>
          if keep price then prices ++ [(Pairs.pair edge, price)] else prices
      | None => prices
      end
  end.

Lemma firstPrices_step_invariant (P : Pairs.PriceMap -> Prop)
      (edges : list Pairs.SwapEdge) (prices : Pairs.PriceMap) :
  P prices ->
  (forall m k v, P m -> Pairs.price_get m k = None -> (0 < v)%Q ->
                 P (m ++ [(k, v)])) ->
  P (fold_left step edges prices).
Proof.
  intros H0 Hstep. revert prices H0.
  induction edges as [|e edges IH]; intros prices H0; simpl; [exact H0|].
  apply IH. unfold step.
  destruct (Pairs.price_get prices (Pairs.pair e)) eqn:Eg; [exact H0|].
  destruct (calculatePrice isInverted (Pairs.swapData e)) as [p|] eqn:Ep;
    [|exact H0].
  destruct (keep p); [|exact H0].
  apply Hstep; [assumption | assumption |].
  eapply calculatePrice_positive; eassumption.
Qed.


Lemma firstPrices_NoDup (edges : list Pairs.SwapEdge) :
  NoDup (map fst (Pairs.firstPrices isInverted keep edges)).
Proof.
  apply (firstPrices_step_invariant (fun m => NoDup (map fst m)));
    [constructor|].
  intros m k v Hm Hk _. rewrite map_app. simpl.
  apply price_get_None in Hk.
  apply NoDup_app; [assumption | repeat constructor; intros [] |].
  intros x Hx [<-|[]]. contradiction.
Qed.

End FirstPrices.

Lemma firstPrices_get (isInverted : bool) (edges : list Pairs.SwapEdge)
      (k : String.string) :
  Pairs.price_get (Pairs.firstPrices isInverted (fun _ => true) edges) k =
  match find (fun e => String.eqb (Pairs.pair e) k && Pairs.edge_has_price e)
             edges with
  | Some e => calculatePrice isInverted (Pairs.swapData e)
  | None => None
  end.
Proof.
  unfold Pairs.firstPrices.
  enough (G : forall prices,
             Pairs.price_get
               (fold_left
                  (fun prices edge =>
                     let pairId := Pairs.pair edge in
                     match Pairs.price_get prices pairId with
                     | Some _ => prices
                     | None =>
                         match calculatePrice isInverted (Pairs.swapData edge) with
                         | Some price =>
                             if true then prices ++ [(pairId, price)] else prices
                         | None => prices
                         end
                     end) edges prices) k =
             match Pairs.price_get prices k with
             | Some x => Some x
             | None =>
                 match find (fun e => String.eqb (Pairs.pair e) k
                                      && Pairs.edge_has_price e) edges with
                 | Some e => calculatePrice isInverted (Pairs.swapData e)
                 | None => None
                 end
             end) by (rewrite G; reflexivity).
  induction edges as [|e edges IH]; intros prices; simpl.
  - now destruct (Pairs.price_get prices k).
  - rewrite IH. clear IH. unfold Pairs.edge_has_price, calculatePrice.
    destruct (Pairs.price_get prices (Pairs.pair e)) as [x|] eqn:Eg.
    + destruct (String.eqb_spec (Pairs.pair e) k) as [<-|Hne]; simpl.
      * now rewrite Eg.
      * reflexivity.
    + destruct (basePrice (Pairs.swapData e)) as [b|] eqn:Eb.
      * assert (Ep : exists p, (if isInverted then Some (1 / b)%Q else Some b)
                               = Some p) by (destruct isInverted; eauto).
        destruct Ep as (p & Ep). rewrite Ep, price_get_app.
        destruct (Pairs.price_get prices k) as [y|] eqn:Ek; [reflexivity|].
        destruct (String.eqb (Pairs.pair e) k); simpl; [|reflexivity].
        rewrite Eb. exact (eq_sym Ep).
      * rewrite andb_false_r. reflexivity.
Qed.


Lemma update_at_nth_error {A : Type} (f : A -> A) (i j : nat) (l : list A) :
  nth_error (Pairs.update_at i f l) j =
  if Nat.eqb i j then option_map f (nth_error l j) else nth_error l j.
Proof.
  revert i j. induction l as [|x l IH]; intros i j; simpl.
  - destruct i, j; simpl; try reflexivity. now destruct (Nat.eqb i j).
  - destruct i, j; simpl; try reflexivity. apply IH.
Qed.

Lemma update_at_map {A B : Type} (g : A -> B) (f : A -> A) (i : nat) (l : list A) :
  (forall x, g (f x) = g x) ->
  map g (Pairs.update_at i f l) = map g l.
Proof.
  intros Hg. revert i. induction l as [|x l IH]; intros i; simpl.
  - now destruct i.
  - destruct i; simpl; [now rewrite Hg | now rewrite IH].
Qed.

Lemma pairsMap_get_Some (pairs : list Pairs.Pair) (position : nat)
      (k : String.string) (i : nat) :
  Pairs.pairsMap_get pairs position k = Some i ->
  exists j p, i = (position + j)%nat /\ nth_error pairs j = Some p /\ Pairs.id p = k.
Proof.
  revert position. induction pairs as [|p pairs IH]; intros position; simpl;
    [discriminate|].
  destruct (Pairs.pairsMap_get pairs (S position) k) as [later|] eqn:E.
  - intros [= <-]. destruct (IH _ E) as (j & q & -> & Hj & Hq).
    exists (S j), q. repeat split; [lia | assumption | assumption].
  - destruct (String.eqb_spec (Pairs.id p) k) as [Hk|Hk]; [|discriminate].
    intros [= <-]. exists O, p. repeat split; [lia | assumption].
Qed.

Lemma pairsMap_get_None (pairs : list Pairs.Pair) (position : nat)
      (k : String.string) :
  Pairs.pairsMap_get pairs position k = None ->
  ~ In k (map Pairs.id pairs).
Proof.
  revert position. induction pairs as [|p pairs IH]; intros position; simpl;
    [tauto|].
  destruct (Pairs.pairsMap_get pairs (S position) k) eqn:E; [discriminate|].
  destruct (String.eqb_spec (Pairs.id p) k) as [Hk|Hk]; [discriminate|].
  intros _ [H|H]; [contradiction | eapply IH; eassumption].
Qed.






Lemma setCurrentPrices_nth (original : list Pairs.Pair)
      (currentPrices : Pairs.PriceMap) :
  NoDup (map Pairs.id original) ->
  NoDup (map fst currentPrices) ->
  forall (updated : list Pairs.Pair) (j : nat) (q : Pairs.Pair),
    map Pairs.id updated = map Pairs.id original ->
    nth_error updated j = Some q ->
    nth_error
      (fold_left
         (fun updated entry =>
            match Pairs.pairsMap_get original 0 (fst entry) with
            | Some position =>
                Pairs.update_at position
                  (fun p => {| Pairs.id := Pairs.id p;
                               Pairs.currentPrice := Some (snd entry);
                               Pairs.priceChange := Pairs.priceChange p |})
                  updated
            | None => updated
            end)
         currentPrices updated) j =
    Some {| Pairs.id := Pairs.id q;
            Pairs.currentPrice :=
              match Pairs.price_get currentPrices (Pairs.id q) with
              | Some v => Some v
              | None => Pairs.currentPrice q
              end;
            Pairs.priceChange := Pairs.priceChange q |}.
Proof.
  intros Hids. induction currentPrices as [|[k v] cp IH];
    intros Hkeys updated j q Hsame Hq.
  - simpl. rewrite Hq. now destruct q.
  - simpl in Hkeys. inversion Hkeys as [|? ? Hk Hcp]; subst.
    assert (Hidq : nth_error (map Pairs.id original) j = Some (Pairs.id q)).
    { rewrite <- Hsame. now apply map_nth_error. }
    cbn [fold_left fst snd Pairs.price_get].
    destruct (Pairs.pairsMap_get original 0 k) as [i|] eqn:Ei.
    + destruct (pairsMap_get_Some _ _ _ _ Ei) as (j0 & p & -> & Hj0 & Hp).
      simpl in *.
      assert (Hidp : nth_error (map Pairs.id original) j0 = Some k).
      { rewrite <- Hp. now apply map_nth_error. }
      destruct (Nat.eqb_spec j0 j) as [->|Hne].
      * assert (Pairs.id q = k) by congruence. subst k.
        rewrite (IH Hcp _ j
                   {| Pairs.id := Pairs.id q; Pairs.currentPrice := Some v;
                      Pairs.priceChange := Pairs.priceChange q |}).
        -- simpl. rewrite <- H in Hk |- *. rewrite String.eqb_refl.
           apply price_get_None in Hk. now rewrite Hk.
        -- rewrite update_at_map; [assumption | reflexivity].
        -- rewrite update_at_nth_error, Nat.eqb_refl, Hq. reflexivity.
      * assert (Hkq : k <> Pairs.id q).
        { intros ->. apply Hne.
          apply (proj1 (NoDup_nth_error (map Pairs.id original)) Hids).
          - apply nth_error_Some. congruence.
          - congruence. }
        apply String.eqb_neq in Hkq. rewrite Hkq.
        apply IH; [assumption | |].
        -- rewrite update_at_map; [assumption | reflexivity].
        -- rewrite update_at_nth_error.
           destruct (Nat.eqb_spec j0 j); [contradiction | assumption].
    + assert (Hkq : k <> Pairs.id q).
      { intros ->. eapply pairsMap_get_None; [exact Ei|].
        eapply nth_error_In; eassumption. }
      apply String.eqb_neq in Hkq. rewrite Hkq.
      now apply IH.
Qed.

Lemma setCurrentPrices_ids (original : list Pairs.Pair)
      (currentPrices : Pairs.PriceMap) (updated : list Pairs.Pair) :
  map Pairs.id
    (fold_left
       (fun updated entry =>
          match Pairs.pairsMap_get original 0 (fst entry) with
          | Some position =>
              Pairs.update_at position
                (fun p => {| Pairs.id := Pairs.id p;
                             Pairs.currentPrice := Some (snd entry);
                             Pairs.priceChange := Pairs.priceChange p |})
                updated
          | None => updated
          end)
       currentPrices updated) =
  map Pairs.id updated.
Proof.
  revert updated. induction currentPrices as [|e cp IH]; intros updated; simpl;
    [reflexivity|].
  rewrite IH. destruct (Pairs.pairsMap_get original 0 (fst e)); [|reflexivity].
  now apply update_at_map.
Qed.

(** The current price of a pair is the price of the first swap of that pair
    in the reply that has a price (the reply is ordered newest first), and
    [null] when the reply holds none; pair ids being distinct. *)
Theorem current_price_is_latest_priced_swap (isInverted : bool)
        (pairIds : list String.string) (edges : list Pairs.SwapEdge)
        (historicalPrices : option (list Pairs.SwapEdge)) (p : Pairs.Pair) :
  NoDup pairIds ->
  In p (Pairs.fetchAllPairs isInverted pairIds (Some edges) historicalPrices) ->
  Pairs.currentPrice p =
  match find (fun e => String.eqb (Pairs.pair e) (Pairs.id p)
                       && Pairs.edge_has_price e) edges with
  | Some e => calculatePrice isInverted (Pairs.swapData e)
  | None => None
  end.
Proof.
  intros Hids. unfold Pairs.fetchAllPairs.
  set (fresh_pairs := map _ pairIds).
  assert (Hfresh : map Pairs.id fresh_pairs = pairIds).
  { subst fresh_pairs. rewrite map_map. apply map_id. }
  assert (G : forall q,
             In q (Pairs.setCurrentPrices
                     (Pairs.firstPrices isInverted (fun _ => true) edges)
                     fresh_pairs) ->
             Pairs.currentPrice q =
             Pairs.price_get (Pairs.firstPrices isInverted (fun _ => true) edges)
                             (Pairs.id q)).
  { intros q Hq. apply In_nth_error in Hq. destruct Hq as (j & Hj).
    assert (Hlen : (j < length fresh_pairs)%nat).
    { rewrite <- (length_map Pairs.id fresh_pairs),
        <- (setCurrentPrices_ids fresh_pairs
              (Pairs.firstPrices isInverted (fun _ => true) edges) fresh_pairs),
        length_map.
      apply nth_error_Some.
      unfold Pairs.setCurrentPrices in Hj. congruence. }
    destruct (nth_error fresh_pairs j) as [q0|] eqn:Eq0;
      [|apply nth_error_None in Eq0; lia].
    unfold Pairs.setCurrentPrices in Hj.
    rewrite (setCurrentPrices_nth fresh_pairs _) with (q := q0) in Hj;
      [| now rewrite Hfresh | apply firstPrices_NoDup | reflexivity | assumption].
    injection Hj as <-. simpl.
    apply nth_error_In in Eq0. subst fresh_pairs. apply in_map_iff in Eq0.
    destruct Eq0 as (k & <- & _). simpl.
    now destruct (Pairs.price_get _ k). }
  intros Hin.
  assert (exists q, In q (Pairs.setCurrentPrices
                            (Pairs.firstPrices isInverted (fun _ => true) edges)
                            fresh_pairs)
                    /\ Pairs.id p = Pairs.id q
                    /\ Pairs.currentPrice p = Pairs.currentPrice q)
    as (q & Hq & Hid & Hcur).
  { destruct historicalPrices as [hist|]; [|eauto].
    unfold Pairs.setPriceChanges in Hin. apply in_map_iff in Hin.
    destruct Hin as (q & <- & Hq). eauto. }
  rewrite Hcur, Hid, (G q Hq). apply firstPrices_get.
Qed.

Lemma current_price_is_latest_priced_swap_witness :
  let edges :=
    [ {| Pairs.pair := Sample.con_pair_2; Pairs.swapData := data (buy 9 1 7) |};
      {| Pairs.pair := Sample.con_pair_1; Pairs.swapData := data (unpriced 8) |};
      {| Pairs.pair := Sample.con_pair_1; Pairs.swapData := data (buy 7 2 30) |};
      {| Pairs.pair := Sample.con_pair_1; Pairs.swapData := data (buy 6 10 100) |} ] in
  exists p,
    In p (Pairs.fetchAllPairs false [Sample.con_pair_1; Sample.con_pair_2]
                              (Some edges) None) /\
    Pairs.id p = Sample.con_pair_1 /\
    Pairs.currentPrice p = calculatePrice false (data (buy 7 2 30)).
Proof.
  intros edges. eexists.
  split; [cbv; left; reflexivity|].
  split; [reflexivity|].
  etransitivity;
    [eapply (current_price_is_latest_priced_swap false
               [Sample.con_pair_1; Sample.con_pair_2] edges None)
    | reflexivity].
  - repeat constructor; simpl; intuition discriminate.
  - cbv. left. reflexivity.
Defined.

(** ** The state read from the URL *)

(** After [loadPairsAndInitialize] the pair is inverted exactly when the
    query string says [inverted=true]: the flag the controller had before,
    the constructor's [true] included, is never kept. *)
Theorem url_alone_decides_inversion (parseInt : String.string -> option Z)
        (search : String.string -> option String.string)
        (s s' : UrlState.State) :
  UrlState.loadPairsAndInitialize parseInt search s = Some s' ->
  UrlState.isInverted s' = true <-> UrlState.says_inverted search.
Proof.
  unfold UrlState.loadPairsAndInitialize, UrlState.says_inverted.
  destruct (UrlState.pairs s) as [|first rest]; [discriminate|].
  intros [= <-]. simpl.
  destruct (search _) as [text|]; [|split; discriminate].
  rewrite String.eqb_eq. split; [now intros -> | now intros [= ->]].
Qed.

Lemma url_alone_decides_inversion_witness :
  let opened :=
    {| UrlState.pairs := [ {| Pairs.id := Sample.con_pair_1;
                              Pairs.currentPrice := None;
                              Pairs.priceChange := None |} ];
       UrlState.currentPair := None;
       UrlState.currentTimeframe := UrlState.currentTimeframe UrlState.constructed;
       UrlState.isInverted := UrlState.isInverted UrlState.constructed |} in
  exists s',
    UrlState.loadPairsAndInitialize Sample.parseInt_widths Sample.only_tf_15 opened
    = Some s' /\
    UrlState.isInverted opened = true /\
    UrlState.isInverted s' = false /\
    (UrlState.isInverted s' = true <-> UrlState.says_inverted Sample.only_tf_15).
Proof.
  intros opened. eexists.
  split; [reflexivity|]. split; [reflexivity|]. split; [reflexivity|].
  apply (url_alone_decides_inversion Sample.parseInt_widths Sample.only_tf_15
           opened).
  reflexivity.
Defined.

(** Whatever the query string and whatever [parseInt] makes of it,
    [loadPairsAndInitialize] leaves the controller on one of its supported
    widths when it was on one before, as it is after the constructor. *)
Theorem timeframe_stays_supported (parseInt : String.string -> option Z)
        (search : String.string -> option String.string)
        (s s' : UrlState.State) :
  In (UrlState.currentTimeframe s) timeframes ->
  UrlState.loadPairsAndInitialize parseInt search s = Some s' ->
  In (UrlState.currentTimeframe s') timeframes /\
  In (UrlState.currentTimeframe UrlState.constructed) timeframes.
Proof.
  intros Hs H. split; [|simpl; tauto]. revert H.
  unfold UrlState.loadPairsAndInitialize.
  remember timeframes as supported eqn:Es. clear Es.
  destruct (UrlState.pairs s) as [|first rest]; [discriminate|].
  intros E'. injection E' as <-.
  cbn [UrlState.currentTimeframe].
  destruct (UrlState.truthy _) as [text|]; [|exact Hs].
  destruct (parseInt text) as [minutes|]; [|exact Hs].
  destruct (find (fun tf => tf =? minutes) supported) as [tf|] eqn:E;
    [|exact Hs].
  now apply find_some in E.
Qed.

Lemma timeframe_stays_supported_witness :
  let opened :=
    {| UrlState.pairs := [ {| Pairs.id := Sample.con_pair_1;
                              Pairs.currentPrice := None;
                              Pairs.priceChange := None |} ];
       UrlState.currentPair := None;
       UrlState.currentTimeframe := UrlState.currentTimeframe UrlState.constructed;
       UrlState.isInverted := UrlState.isInverted UrlState.constructed |} in
  exists s',
    UrlState.loadPairsAndInitialize Sample.parseInt_widths Sample.only_tf_15 opened
    = Some s' /\
    UrlState.currentTimeframe opened = 60 /\
    UrlState.currentTimeframe s' = 15 /\
    In (UrlState.currentTimeframe s') timeframes.
Proof.
  intros opened. eexists.
  split; [reflexivity|]. split; [reflexivity|]. split; [reflexivity|].
  apply (timeframe_stays_supported Sample.parseInt_widths Sample.only_tf_15
           opened).
  - simpl; tauto.
  - reflexivity.
Defined.

(** ** The timeline of [part_002] *)

Lemma intervals_loop_timeline (m : Z) (n : nat) (from to : Z) :
  Part002.intervals_loop m n from to = Part003.timeline_loop m n from to.
Proof.
  revert from. induction n as [|n IH]; intros from; simpl; [reflexivity|].
  destruct (from <=? to); [|reflexivity].
  f_equal. rewrite IH. f_equal. unfold intervalMs. lia.
Qed.

Lemma intervals_timeline (m from to : Z) :
  Part002.intervals m from to = Part003.timeline m from to.
Proof.
  unfold Part002.intervals, Part003.timeline.
  rewrite intervals_loop_timeline.
  replace (m * 60000) with (intervalMs m) by (unfold intervalMs; lia).
  reflexivity.
Qed.

Lemma legacy_rounding_bounds (m d : Z) :
  In m legacy_timeframes ->
  Part002.roundToInterval m d <= d < Part002.roundToInterval m d + m * 60000 /\
  Part002.roundToInterval m d = Part002.roundToInterval m d / 1000 * 1000.
Proof.
  unfold legacy_timeframes, Part002.roundToInterval. simpl.
  intros [<-|[<-|[<-|[<-|[]]]]]; Z.to_euclidean_division_equations; lia.
Qed.

Lemma Part002_first_time (m : Z) (trades : list Part002.PricedTrade)
      (first : Z) (t : Part002.PricedTrade) :
  In t trades ->
  first <= Part002.pt_timestamp t < first + m * 60000 ->
  let w := Part002.visitInterval m trades true walk_start first in
  map time (w_candles w) = [first / 1000] /\ previousClose w <> None.
Proof.
  intros Hin Ht. unfold Part002.visitInterval.
  set (inside := filter _ trades).
  assert (Hne : In t inside).
  { apply filter_In. split; [assumption|].
    apply andb_true_iff. split; [apply Z.leb_le | apply Z.ltb_lt]; lia. }
  destruct inside as [|x r]; [contradiction|].
  cbn [map]. cbv zeta. simpl. split; [reflexivity | discriminate].
Qed.

Lemma Part002_later_times (m : Z) (trades : list Part002.PricedTrade)
      (later : list Z) (w : Walk) :
  previousClose w <> None ->
  let w' := fold_left (Part002.visitInterval m trades false) later w in
  map time (w_candles w') =
    map time (w_candles w) ++ map (fun t => t / 1000) later /\
  previousClose w' <> None.
Proof.
  revert w. induction later as [|t later IH]; intros w Hw; cbn [fold_left].
  - simpl. rewrite app_nil_r. split; [reflexivity | assumption].
  - destruct (previousClose w) as [c|] eqn:Ec; [|congruence].
    set (visited := Part002.visitInterval m trades false w t).
    assert (Hv : map time (w_candles visited) = map time (w_candles w) ++ [t / 1000]
                 /\ previousClose visited <> None).
    { subst visited. unfold Part002.visitInterval. rewrite Ec.
      destruct (map Part002.price _) as [|p ps]; cbn [pushFlatCandle w_candles
        previousClose]; rewrite ?map_app; simpl;
        (split; [reflexivity | congruence]). }
    destruct Hv as [Hv1 Hv2].
    destruct (IH visited Hv2) as [IH1 IH2]. split; [|exact IH2].
    rewrite IH1, Hv1, <- app_assoc. reflexivity.
Qed.

(** For its widths, and the clock not before the earliest priced trade,
    [part_002] returns one candle per interval, without gaps: the candle
    times start at the rounded time of the earliest priced trade and go up
    by exactly the width (in seconds), the last one being the last such
    step that is not after the rounded clock. *)
Theorem legacy_timeline_without_gaps (m : Z) (isInverted : bool)
        (currentTime : Z) (tradeEvents : list Trade) (startDate : Z) :
  In m legacy_timeframes ->
  legacy_startDate isInverted tradeEvents = Some startDate ->
  startDate <= currentTime ->
  let first := Part002.roundToInterval m startDate in
  let current := Part002.roundToInterval m currentTime in
  let n := Z.to_nat ((current - first) / (m * 60000) + 1) in
  (exists chartData,
     Part002.processSwapEvents m isInverted currentTime tradeEvents
     = Some chartData /\
     map time (candles chartData) =
       map (fun k => first / 1000 + Z.of_nat k * (m * 60)) (seq 0 n)) /\
  first + (Z.of_nat n - 1) * (m * 60000) <= current
    < first + Z.of_nat n * (m * 60000).
Proof.
  intros Hm Hstart Hnow first current n.
  assert (Hw : 0 < intervalMs m).
  { unfold legacy_timeframes, intervalMs in *. simpl in Hm. intuition lia. }
  assert (Ew : intervalMs m = m * 60000) by (unfold intervalMs; lia).
  assert (Hle : first <= current) by now apply legacy_rounding_monotone.
  destruct (timeline_full m first current Hw Hle) as [Et Hlast].
  rewrite Ew in Et, Hlast. fold n in Et, Hlast.
  split; [|exact Hlast].
  unfold legacy_startDate in Hstart. unfold Part002.processSwapEvents.
  destruct (Part002.pricedTrades isInverted tradeEvents) as [|p ps] eqn:Ep;
    [discriminate|].
  injection Hstart as Hstart. rewrite Hstart. fold first current.
  rewrite intervals_timeline, Et.
  assert (Hn : n <> O).
  { unfold n. assert (0 <= (current - first) / (m * 60000))
      by (apply Z.div_pos; lia). lia. }
  destruct n as [|n']; [congruence|]. cbn [seq map].
  eexists. split; [reflexivity|].
  destruct (minOfZ_spec (Part002.pt_timestamp p) (map Part002.pt_timestamp ps))
    as [Hmin _].
  rewrite Hstart in Hmin.
  change (Part002.pt_timestamp p :: map Part002.pt_timestamp ps)
    with (map Part002.pt_timestamp (p :: ps)) in Hmin.
  apply in_map_iff in Hmin. destruct Hmin as (t & Et' & Ht).
  destruct (legacy_rounding_bounds m startDate Hm) as [Hb Hk]. fold first in Hb, Hk.
  rewrite Z.mul_0_l, Z.add_0_r.
  destruct (Part002_first_time m (p :: ps) first t Ht) as [H1 H2];
    [rewrite Et'; exact Hb|].
  destruct (Part002_later_times m (p :: ps)
              (map (fun k => first + Z.of_nat k * (m * 60000)) (seq 1 n')) _ H2)
    as [H3 _].
  cbn [candles chartData_of]. rewrite H3, H1. cbn [app]. f_equal; [lia|].
  rewrite !map_map. apply map_ext. intros k.
  rewrite Hk at 1.
  replace (first / 1000 * 1000 + Z.of_nat k * (m * 60000))
    with ((first / 1000 + Z.of_nat k * (m * 60)) * 1000) by lia.
  apply Z.div_mul. lia.
Qed.

Lemma legacy_timeline_without_gaps_witness :
  exists chartData,
    Part002.processSwapEvents 30 false (150 * minute)
                              (unpriced 1000 :: scenario) = Some chartData /\
    map time (candles chartData) = [0; 1800; 3600; 5400; 7200; 9000].
Proof.
  destruct (legacy_timeline_without_gaps 30 false (150 * minute)
              (unpriced 1000 :: scenario) (5 * minute))
    as [(chartData & E & Ht) _].
  - simpl; tauto.
  - reflexivity.
  - unfold minute; lia.
  - exists chartData. split; [exact E | exact Ht].
Defined.

(** ** Volume *)























(** ** Order on doubles

    [<=] on doubles, read through the specification of primitive floats: on
    the doubles that are not [NaN] it is a total preorder, which ranks a
    double by sign, exponent and mantissa. *)
Section Order64.
Import Floats.

Let number (x : float) : Prop := PrimFloat.is_nan x = false.
Let le (x y : float) : Prop := PrimFloat.leb x y = true.

Let rank (f : spec_float) : Z * Z * Z :=
  match f with
  | S754_nan => (0, 0, 0)
  | S754_zero _ => (0, 0, 0)
  | S754_infinity true => (-2, 0, 0)
  | S754_infinity false => (2, 0, 0)
  | S754_finite true m e => (-1, - e, - Z.pos m)
  | S754_finite false m e => (1, e, Z.pos m)
  end.

Let lexle (a b : Z * Z * Z) : Prop :=
  let '(a1, a2, a3) := a in
  let '(b1, b2, b3) := b in
  a1 < b1 \/ (a1 = b1 /\ (a2 < b2 \/ (a2 = b2 /\ a3 <= b3))).

Lemma SFcompare_rank (f1 f2 : spec_float) :
  f1 <> S754_nan -> f2 <> S754_nan ->
  exists c, SFcompare f1 f2 = Some c /\
            (c = Gt <-> ~ lexle (rank f1) (rank f2)) /\
            (c = Lt <-> ~ lexle (rank f2) (rank f1)).
Proof.
  intros H1 H2.
  destruct f1 as [s1|s1| |s1 m1 e1], f2 as [s2|s2| |s2 m2 e2];
    try congruence;
    try destruct s1; try destruct s2; simpl;
    try change (Pos.compare_cont Eq m1 m2) with (Pos.compare m1 m2);
    try (destruct (Z.compare_spec e1 e2);
         [destruct (Pos.compare_spec m1 m2)| |]; simpl);
    (eexists; split; [reflexivity|]; unfold lexle; split; split; intros;
     try reflexivity; try discriminate; try lia; exfalso; lia).
Qed.

Lemma lexle_refl (a : Z * Z * Z) : lexle a a.
Proof. destruct a as [[a1 a2] a3]. unfold lexle. lia. Qed.

Lemma lexle_trans (a b c : Z * Z * Z) : lexle a b -> lexle b c -> lexle a c.
Proof.
  destruct a as [[a1 a2] a3], b as [[b1 b2] b3], c as [[c1 c2] c3].
  unfold lexle. lia.
Qed.

Lemma lexle_decidable (a b : Z * Z * Z) : Decidable.decidable (lexle a b).
Proof.
  destruct a as [[a1 a2] a3], b as [[b1 b2] b3].
  unfold Decidable.decidable, lexle. lia.
Qed.

Lemma number_spec (x : float) : number x <-> Prim2SF x <> S754_nan.
Proof.
  unfold number, PrimFloat.is_nan. rewrite eqb_spec. unfold SFeqb.
  split.
  - intros H E. rewrite E in H. discriminate.
  - intros H. destruct (SFcompare_rank _ _ H H) as (c & -> & Hgt & Hlt).
    destruct c; [reflexivity | |].
    + exfalso. apply (proj1 Hlt eq_refl), lexle_refl.
    + exfalso. apply (proj1 Hgt eq_refl), lexle_refl.
Qed.

Lemma le_spec (x y : float) :
  le x y <-> number x /\ number y /\ lexle (rank (Prim2SF x)) (rank (Prim2SF y)).
Proof.
  unfold le. rewrite leb_spec, !number_spec. unfold SFleb. split.
  - intros H.
    assert (Hx : Prim2SF x <> S754_nan) by (intros E; rewrite E in H; discriminate).
    assert (Hy : Prim2SF y <> S754_nan)
      by (intros E; rewrite E in H; destruct (Prim2SF x); discriminate).
    repeat split; try assumption.
    destruct (SFcompare_rank _ _ Hx Hy) as (c & Ec & Hgt & _).
    rewrite Ec in H.
    apply Decidable.not_not; [apply lexle_decidable|].
    intros Hn. apply Hgt in Hn. subst c. discriminate.
  - intros (Hx & Hy & Hl).
    destruct (SFcompare_rank _ _ Hx Hy) as (c & -> & Hgt & _).
    destruct c; try reflexivity. exfalso. now apply (proj1 Hgt eq_refl).
Qed.

Lemma not_ltb_le (x y : float) :
  number x -> number y -> PrimFloat.ltb x y = false -> le y x.
Proof.
  intros Hx Hy H. apply le_spec. repeat split; try assumption.
  apply number_spec in Hx, Hy. rewrite ltb_spec in H. unfold SFltb in H.
  destruct (SFcompare_rank _ _ Hx Hy) as (c & Ec & _ & Hlt).
  rewrite Ec in H.
  apply Decidable.not_not; [apply lexle_decidable|].
  intros Hn. apply Hlt in Hn. subst c. discriminate.
Qed.

Lemma ltb_le (x y : float) : PrimFloat.ltb x y = true -> le x y.
Proof.
  rewrite ltb_spec. unfold le. rewrite leb_spec. unfold SFltb, SFleb.
  destruct (SFcompare _ _) as [[| |]|]; congruence.
Qed.

Lemma leb_refl (x : float) :
  PrimFloat.is_nan x = false -> PrimFloat.leb x x = true.
Proof.
  intros H. apply le_spec. repeat split; try assumption. apply lexle_refl.
Qed.

Lemma leb_trans (x y z : float) :
  PrimFloat.leb x y = true -> PrimFloat.leb y z = true ->
  PrimFloat.leb x z = true.
Proof.
  intros H1 H2. apply le_spec in H1, H2. apply le_spec.
  destruct H1 as (Hx & Hy & H1), H2 as (_ & Hz & H2).
  repeat split; try assumption. eapply lexle_trans; eassumption.
Qed.

Lemma leb_number (x y : float) :
  PrimFloat.leb x y = true ->
  PrimFloat.is_nan x = false /\ PrimFloat.is_nan y = false.
Proof. intros H. apply le_spec in H. tauto. Qed.

Lemma eqb_number (x : float) :
  PrimFloat.is_nan x = false -> PrimFloat.eqb x x = true.
Proof. unfold PrimFloat.is_nan. now destruct (PrimFloat.eqb x x). Qed.

Lemma js_max_spec (a b : float) :
  PrimFloat.is_nan a = false -> PrimFloat.is_nan b = false ->
  PrimFloat.leb a (Candles64.js_max a b) = true /\
  PrimFloat.leb b (Candles64.js_max a b) = true.
Proof.
  intros Ha Hb. unfold Candles64.js_max. rewrite Ha, Hb. cbn [orb].
  destruct (PrimFloat.ltb a b) eqn:Eab.
  - split; [now apply ltb_le | now apply leb_refl].
  - destruct (PrimFloat.ltb b a) eqn:Eba.
    + split; [now apply leb_refl | now apply ltb_le].
    + pose proof (not_ltb_le _ _ Ha Hb Eab) as Hba.
      pose proof (not_ltb_le _ _ Hb Ha Eba) as Hab.
      destruct (PrimFloat.get_sign a); split; auto using leb_refl.
Qed.

Lemma js_min_spec (a b : float) :
  PrimFloat.is_nan a = false -> PrimFloat.is_nan b = false ->
  PrimFloat.leb (Candles64.js_min a b) a = true /\
  PrimFloat.leb (Candles64.js_min a b) b = true.
Proof.
  intros Ha Hb. unfold Candles64.js_min. rewrite Ha, Hb. cbn [orb].
  destruct (PrimFloat.ltb a b) eqn:Eab.
  - split; [now apply leb_refl | now apply ltb_le].
  - destruct (PrimFloat.ltb b a) eqn:Eba.
    + split; [now apply ltb_le | now apply leb_refl].
    + pose proof (not_ltb_le _ _ Ha Hb Eab) as Hba.
      pose proof (not_ltb_le _ _ Hb Ha Eba) as Hab.
      destruct (PrimFloat.get_sign a); split; auto using leb_refl.
Qed.

End Order64.

(** ** The candle walk over doubles, every price a number *)
Section Sound64.
Import Floats.
Variable toDouble : Q -> float.
Variable isInverted : bool.

Let priced := Candles64.priced toDouble isInverted.
Let calculatePrice := Candles64.calculatePrice toDouble isInverted.

(** The close the next candle would carry forward. *)
Let end_close (prev : option float) (cs : list Candles64.Candle) : option float :=
  fold_left (fun _ c => Candles64.close c) cs prev.

(** Every candle opens on the very double the one before closed on. *)
Let chained :=
  fix chained (prev : option float) (cs : list Candles64.Candle) : Prop :=
    match cs with
    | [] => True
    | c :: rest =>
        match prev with
        | Some p => Candles64.open c = Some p
        | None => True
        end /\ chained (Candles64.close c) rest
    end.

Let sound (w : Candles64.Walk) : Prop :=
  Forall Candles64.ohlc_bounded (Candles64.w_candles w) /\
  chained None (Candles64.w_candles w) /\
  Candles64.previousClose w = end_close None (Candles64.w_candles w) /\
  (forall c, Candles64.previousClose w = Some c -> PrimFloat.is_nan c = false).

Lemma end_close64_app (prev : option float) (cs cs' : list Candles64.Candle) :
  end_close prev (cs ++ cs') = end_close (end_close prev cs) cs'.
Proof. unfold end_close. apply fold_left_app. Qed.

Lemma chained64_app (prev : option float) (cs cs' : list Candles64.Candle) :
  chained prev (cs ++ cs') <-> chained prev cs /\ chained (end_close prev cs) cs'.
Proof.
  revert prev. induction cs as [|c cs IH]; intros prev; simpl.
  - tauto.
  - rewrite IH. unfold end_close. simpl. tauto.
Qed.

Lemma chained64_nth (cs : list Candles64.Candle) :
  forall prev, chained prev cs ->
  Forall Candles64.ohlc_bounded cs ->
  forall i a b, nth_error cs i = Some a -> nth_error cs (S i) = Some b ->
                Candles64.opens_at_close a b.
Proof.
  induction cs as [|c cs IH]; intros prev Hch Hb i a b Ha Hnext.
  - destruct i; discriminate.
  - destruct Hch as [_ Hch]. inversion Hb as [|? ? Hc Hb']; subst.
    destruct i as [|i]; simpl in Ha, Hnext.
    + inversion Ha; subst a. destruct cs as [|b' cs]; [discriminate|].
      inversion Hnext; subst b'. simpl in Hch.
      destruct Hc as (o & h & l & cl & _ & _ & _ & Ecl & _ & _ & _ & Hcl).
      rewrite Ecl in Hch. destruct Hch as [Eo _].
      exists cl, cl. repeat split; try assumption.
      apply eqb_number. now apply leb_number in Hcl.
    + eapply IH; eauto.
Qed.

(** The pass over an interval's trades leaves [high] above and [low] below
    the open and every price met. *)
Lemma scan64_bounds (trades : list Trade) :
  Forall priced trades ->
  forall h l,
    PrimFloat.is_nan h = false -> PrimFloat.is_nan l = false ->
    exists h' l',
      fold_left (Candles64.scanTrade toDouble isInverted) trades (Some h, Some l)
      = (Some h', Some l') /\
      PrimFloat.leb l' l = true /\ PrimFloat.leb h h' = true /\
      Forall (fun t => exists p, calculatePrice (data t) = Some p /\
                                 PrimFloat.leb l' p = true /\
                                 PrimFloat.leb p h' = true) trades.
Proof.
  induction 1 as [|t trades Ht _ IH]; intros h l Hh Hl.
  - exists h, l. simpl. repeat split; auto using leb_refl.
  - destruct Ht as (p & Ep & Hp). cbn [fold_left Candles64.scanTrade].
    fold calculatePrice. unfold calculatePrice in Ep |- *. rewrite Ep.
    cbn [Candles64.toNumber].
    destruct (js_max_spec h p Hh Hp) as [Hmax1 Hmax2].
    destruct (js_min_spec l p Hl Hp) as [Hmin1 Hmin2].
    destruct (IH (Candles64.js_max h p) (Candles64.js_min l p))
      as (h' & l' & E & Hl' & Hh' & Hall).
    { now apply leb_number in Hmax1. }
    { now apply leb_number in Hmin1. }
    exists h', l'. split; [exact E|].
    repeat split; eauto using leb_trans.
    constructor; [|exact Hall].
    exists p. repeat split; eauto using leb_trans.
Qed.

Lemma pushTradeCandle64_sound (time_s : Z) (first : Trade) (others : list Trade)
      (w : Candles64.Walk) :
  Forall priced (first :: others) ->
  sound w ->
  sound (Candles64.pushTradeCandle toDouble isInverted time_s first others w).
Proof.
  intros Hp (Hb & Hch & Hprev & Hnum).
  assert (Hopen : exists o,
             match Candles64.previousClose w with
             | Some c => Some c
             | None => calculatePrice (data first)
             end = Some o /\ PrimFloat.is_nan o = false).
  { destruct (Candles64.previousClose w) as [c|].
    - exists c. split; [reflexivity | now apply Hnum].
    - inversion Hp as [|? ? (p & Ep & Hnp) _]; subst. exists p. now split. }
  destruct Hopen as (o & Eo & Ho).
  destruct (scan64_bounds (first :: others) Hp o o Ho Ho)
    as (h & l & E & Hl & Hh & Hall).
  assert (Hlast : In (last (first :: others) first) (first :: others))
    by apply last_In.
  rewrite Forall_forall in Hall.
  destruct (Hall _ Hlast) as (cl & Ecl & Hcl1 & Hcl2).
  unfold Candles64.pushTradeCandle. fold calculatePrice.
  unfold calculatePrice in Eo, Ecl |- *. rewrite Eo, E, Ecl.
  split; [|split; [|split]]; cbn [Candles64.w_candles Candles64.previousClose].
  - apply Forall_app. split; [assumption|]. constructor; [|constructor].
    exists o, h, l, cl. cbn. repeat split; auto.
  - apply chained64_app. split; [assumption|]. simpl.
    rewrite <- Hprev. destruct (Candles64.previousClose w); simpl in *; [|tauto].
    inversion Eo; subst. tauto.
  - rewrite end_close64_app. reflexivity.
  - intros c [= <-]. now apply leb_number in Hcl1.
Qed.

Lemma pushFlatCandle64_sound (time_s : Z) (p : float) (w : Candles64.Walk)
      (next : option float) :
  sound w ->
  PrimFloat.is_nan p = false ->
  (Candles64.previousClose w = Some p \/ Candles64.previousClose w = None) ->
  next = Some p ->
  sound {| Candles64.w_candles :=
             Candles64.w_candles (Candles64.pushFlatCandle time_s p w);
           Candles64.previousClose := next |}.
Proof.
  intros (Hb & Hch & Hprev & Hnum) Hp Hw ->.
  split; [|split; [|split]]; cbn [Candles64.w_candles Candles64.previousClose
                                   Candles64.pushFlatCandle].
  - apply Forall_app. split; [assumption|]. constructor; [|constructor].
    exists p, p, p, p. cbn. repeat split; auto using leb_refl.
  - apply chained64_app. split; [assumption|]. simpl.
    rewrite <- Hprev. destruct Hw as [-> | ->]; tauto.
  - rewrite end_close64_app. reflexivity.
  - intros c [= <-]. exact Hp.
Qed.

Lemma walk_start64_sound : sound Candles64.walk_start.
Proof. repeat split; simpl; auto. discriminate. Qed.

Lemma chartjs_visit64_sound (m : IntervalMap) (w : Candles64.Walk) (t : Z) :
  Forall priced (get_or_empty m t) ->
  sound w ->
  sound (Candles64.chartjs_visitInterval toDouble isInverted m w t).
Proof.
  intros Hp Hw. unfold Candles64.chartjs_visitInterval.
  destruct (get_or_empty m t) as [|first others].
  - destruct (Candles64.previousClose w) as [c|] eqn:E; [|assumption].
    pose proof Hw as (_ & _ & _ & Hnum).
    pose proof (pushFlatCandle64_sound (t / 1000) c w (Some c) Hw (Hnum c E)
                  (or_introl E) eq_refl) as H.
    unfold Candles64.pushFlatCandle in *. rewrite E. exact H.
  - now apply pushTradeCandle64_sound.
Qed.

Lemma lookAhead64_number (minutes : Z) (m : IntervalMap) (times : list Z)
      (p : float) :
  (forall k, Forall priced (get_or_empty m k)) ->
  Candles64.lookAhead toDouble isInverted m times = Some p ->
  PrimFloat.is_nan p = false.
Proof.
  intros Hp. induction times as [|t times IH]; simpl; [discriminate|].
  pose proof (Hp t) as Ht. unfold get_or_empty in Ht.
  destruct (map_get m t) as [[|trade rest]|]; try exact IH.
  inversion Ht as [|? ? (q & Eq & Hq) _]; subst.
  fold calculatePrice. unfold calculatePrice in Eq |- *. rewrite Eq.
  now intros [= <-].
Qed.

Lemma part003_visit64_sound (minutes : Z) (m : IntervalMap) (currentInterval : Z)
      (w : Candles64.Walk) (t : Z) :
  (forall k, Forall priced (get_or_empty m k)) ->
  sound w ->
  sound (Candles64.part003_visitInterval toDouble minutes isInverted m
                                         currentInterval w t).
Proof.
  intros Hp Hw. unfold Candles64.part003_visitInterval.
  pose proof (Hp t) as Ht.
  destruct (get_or_empty m t) as [|first others].
  - destruct (Candles64.previousClose w) as [c|] eqn:E.
    + pose proof Hw as (_ & _ & _ & Hnum).
      pose proof (pushFlatCandle64_sound (t / 1000) c w (Some c) Hw (Hnum c E)
                    (or_introl E) eq_refl) as H.
      unfold Candles64.pushFlatCandle in *. rewrite E. exact H.
    + destruct (Candles64.lookAhead toDouble isInverted m _) as [p|] eqn:El;
        [|assumption].
      apply pushFlatCandle64_sound; auto.
      eapply lookAhead64_number; eassumption.
  - now apply pushTradeCandle64_sound.
Qed.

Lemma priced64_grouped (minutes : Z) (tradeEvents : list Trade) :
  Forall priced tradeEvents ->
  forall k, Forall priced
              (get_or_empty (groupByInterval minutes (sortBy timestamp tradeEvents))
                            k).
Proof.
  intros H k. rewrite get_or_empty_group. rewrite Forall_forall in *.
  intros t Ht. apply filter_In in Ht. apply H.
  eapply Permutation_in; [apply sortBy_Permutation | apply Ht].
Qed.

Lemma processSwapEvents64_sound (minutes currentTime : Z)
      (tradeEvents : list Trade) :
  Forall priced tradeEvents ->
  (exists w, sound w /\
     Candles64.chartjs_processSwapEvents toDouble minutes isInverted tradeEvents
     = Candles64.w_candles w) /\
  (exists w, sound w /\
     Candles64.part003_processSwapEvents toDouble minutes isInverted currentTime
                                         tradeEvents
     = Candles64.w_candles w).
Proof.
  intros Hp. pose proof (priced64_grouped minutes tradeEvents Hp) as Hg.
  split.
  - unfold Candles64.chartjs_processSwapEvents. destruct tradeEvents as [|t r].
    + exists Candles64.walk_start. split; [apply walk_start64_sound | reflexivity].
    + eexists. split; [|reflexivity].
      set (m := groupByInterval minutes (sortBy timestamp (t :: r))) in *.
      generalize (sortBy (fun k => k) (map_keys m)) as times.
      intros times. generalize walk_start64_sound.
      generalize Candles64.walk_start as w. induction times as [|k times IH];
        intros w Hw; simpl; [assumption|].
      apply IH. now apply chartjs_visit64_sound.
  - unfold Candles64.part003_processSwapEvents.
    destruct (sortBy timestamp tradeEvents) as [|earliest rest] eqn:Es.
    + exists Candles64.walk_start. split; [apply walk_start64_sound | reflexivity].
    + eexists. split; [|reflexivity].
      set (m := groupByInterval minutes (earliest :: rest)) in *.
      generalize (Part003.timeline minutes
                    (intervalKey minutes (timestamp earliest))
                    (intervalKey minutes currentTime)) as times.
      intros times. generalize walk_start64_sound.
      generalize Candles64.walk_start as w. induction times as [|k times IH];
        intros w Hw; simpl; [assumption|].
      apply IH. now apply part003_visit64_sound.
Qed.

(** For every supported width and whatever doubles the amounts parse to:
    when every trade has a price and no price is [NaN], every candle of
    [chart.js] and of [part_003] carries four numbers with
    [low <= open <= high] and [low <= close <= high], prices that
    overflowed to [Infinity] or underflowed to [0] included. *)
Theorem candles64_within_bounds (minutes currentTime : Z)
        (tradeEvents : list Trade) :
  In minutes timeframes ->
  Forall (Candles64.priced toDouble isInverted) tradeEvents ->
  Forall Candles64.ohlc_bounded
         (Candles64.chartjs_processSwapEvents toDouble minutes isInverted
                                              tradeEvents) /\
  Forall Candles64.ohlc_bounded
         (Candles64.part003_processSwapEvents toDouble minutes isInverted
                                              currentTime tradeEvents).
Proof.
  intros _ Hp.
  destruct (processSwapEvents64_sound minutes currentTime tradeEvents Hp)
    as [(w & Hw & ->) (w' & Hw' & ->)].
  split; [apply Hw | apply Hw'].
Qed.

(** For every supported width and whatever doubles the amounts parse to:
    when every trade has a price and no price is [NaN], every candle after
    the first, in [chart.js] and in [part_003], has an open that [==] the
    close of the candle before it. *)
Theorem candles64_continuous (minutes currentTime : Z)
        (tradeEvents : list Trade) :
  In minutes timeframes ->
  Forall (Candles64.priced toDouble isInverted) tradeEvents ->
  forall cs,
    cs = Candles64.chartjs_processSwapEvents toDouble minutes isInverted
                                             tradeEvents \/
    cs = Candles64.part003_processSwapEvents toDouble minutes isInverted
                                             currentTime tradeEvents ->
    forall i a b, nth_error cs i = Some a -> nth_error cs (S i) = Some b ->
                  Candles64.opens_at_close a b.
Proof.
  intros _ Hp cs Hcs.
  destruct (processSwapEvents64_sound minutes currentTime tradeEvents Hp)
    as [(w & (Hb & Hch & _) & E) (w' & (Hb' & Hch' & _) & E')].
  destruct Hcs as [-> | ->]; [rewrite E | rewrite E'];
    eapply chained64_nth; eauto.
Qed.

Lemma maxOf64_bounds (x : float) (l : list float) :
  PrimFloat.is_nan x = false ->
  Forall (fun y => PrimFloat.is_nan y = false) l ->
  PrimFloat.leb x (Candles64.maxOf x l) = true /\
  Forall (fun y => PrimFloat.leb y (Candles64.maxOf x l) = true) l.
Proof.
  unfold Candles64.maxOf. intros Hx Hl. revert x Hx.
  induction Hl as [|y l Hy Hl IH]; intros x Hx; simpl.
  - split; [now apply leb_refl | constructor].
  - destruct (js_max_spec x y Hx Hy) as [H1 H2].
    destruct (IH (Candles64.js_max x y)) as [Hm Hall];
      [now apply leb_number in H1|].
    split; [|constructor; [|assumption]]; eauto using leb_trans.
Qed.

Lemma minOf64_bounds (x : float) (l : list float) :
  PrimFloat.is_nan x = false ->
  Forall (fun y => PrimFloat.is_nan y = false) l ->
  PrimFloat.leb (Candles64.minOf x l) x = true /\
  Forall (fun y => PrimFloat.leb (Candles64.minOf x l) y = true) l.
Proof.
  unfold Candles64.minOf. intros Hx Hl. revert x Hx.
  induction Hl as [|y l Hy Hl IH]; intros x Hx; simpl.
  - split; [now apply leb_refl | constructor].
  - destruct (js_min_spec x y Hx Hy) as [H1 H2].
    destruct (IH (Candles64.js_min x y)) as [Hm Hall];
      [now apply leb_number in H1|].
    split; [|constructor; [|assumption]]; eauto using leb_trans.
Qed.

(** Pushing a bounded candle that opens at the close carried so far. *)
Lemma push64_sound (w : Candles64.Walk) (c : Candles64.Candle) (cl : float) :
  sound w ->
  Candles64.ohlc_bounded c ->
  Candles64.close c = Some cl ->
  (forall p, Candles64.previousClose w = Some p -> Candles64.open c = Some p) ->
  sound {| Candles64.w_candles := Candles64.w_candles w ++ [c];
           Candles64.previousClose := Some cl |}.
Proof.
  intros (Hb & Hch & Hprev & Hnum) Hc Ecl Hopen.
  split; [|split; [|split]]; cbn [Candles64.w_candles Candles64.previousClose].
  - apply Forall_app. split; [assumption | now repeat constructor].
  - apply chained64_app. split; [assumption|]. simpl.
    rewrite <- Hprev. destruct (Candles64.previousClose w); auto.
  - rewrite end_close64_app. simpl. now rewrite Ecl.
  - intros x [= <-].
    destruct Hc as (o & h & l & cl' & _ & _ & _ & E & _ & _ & _ & H).
    rewrite Ecl in E. injection E as <-. now apply leb_number in H.
Qed.

Lemma part002_candle64_bounded (t : Z) (o : float) (prices : list float)
      (p : float) (ps : list float) (hi lo : float) (count : nat) :
  prices = p :: ps ->
  PrimFloat.leb lo o = true -> PrimFloat.leb o hi = true ->
  Forall (fun y => PrimFloat.leb lo y = true) prices ->
  Forall (fun y => PrimFloat.leb y hi = true) prices ->
  Candles64.ohlc_bounded
    {| Candles64.time := t; Candles64.open := Some o; Candles64.high := Some hi;
       Candles64.low := Some lo; Candles64.close := Some (last prices p);
       Candles64.tradeCount := count |}.
Proof.
  intros E Hlo Hhi Hall_lo Hall_hi.
  assert (Hlast : In (last prices p) prices) by (rewrite E; apply last_In).
  rewrite Forall_forall in Hall_lo, Hall_hi.
  exists o, hi, lo, (last prices p). cbn. repeat split; auto.
Qed.

Lemma part002_first64_sound (minutes : Z) (trades : list Candles64.PricedTrade)
      (t : Z) :
  Forall (fun pt => PrimFloat.is_nan (Candles64.price pt) = false) trades ->
  sound (Candles64.part002_visitInterval minutes trades true
                                         Candles64.walk_start t).
Proof.
  intros Hnum. unfold Candles64.part002_visitInterval.
  set (inside := filter _ trades).
  assert (Hin : Forall (fun y => PrimFloat.is_nan y = false)
                       (map Candles64.price inside)).
  { rewrite Forall_map. rewrite Forall_forall in *. intros pt Hpt.
    apply Hnum. now apply filter_In in Hpt. }
  remember (map Candles64.price inside) as prices eqn:Eprices.
  destruct prices as [|p ps]; [apply walk_start64_sound|].
  inversion Hin as [|? ? Hp Hps]; subst.
  destruct (maxOf64_bounds p ps Hp Hps) as [Hm1 Hm2].
  destruct (minOf64_bounds p ps Hp Hps) as [Hn1 Hn2].
  apply (push64_sound Candles64.walk_start); [apply walk_start64_sound | |
                                              reflexivity | discriminate].
  apply (part002_candle64_bounded _ p (p :: ps) p ps); auto.
Qed.

Lemma part002_later64_sound (minutes : Z) (trades : list Candles64.PricedTrade)
      (w : Candles64.Walk) (t : Z) :
  Forall (fun pt => PrimFloat.is_nan (Candles64.price pt) = false) trades ->
  sound w ->
  sound (Candles64.part002_visitInterval minutes trades false w t).
Proof.
  intros Hnum Hw. unfold Candles64.part002_visitInterval.
  set (inside := filter _ trades).
  assert (Hin : Forall (fun y => PrimFloat.is_nan y = false)
                       (map Candles64.price inside)).
  { rewrite Forall_map. rewrite Forall_forall in *. intros pt Hpt.
    apply Hnum. now apply filter_In in Hpt. }
  remember (map Candles64.price inside) as prices eqn:Eprices.
  pose proof Hw as (_ & _ & _ & Hn).
  destruct prices as [|p ps];
    destruct (Candles64.previousClose w) as [o|] eqn:E; try assumption.
  - pose proof (pushFlatCandle64_sound (t / 1000) o w (Some o) Hw
                  (Hn o eq_refl) (or_introl E) eq_refl) as H.
    unfold Candles64.pushFlatCandle in *. rewrite E. exact H.
  - specialize (Hn o eq_refl).
    destruct (maxOf64_bounds o (p :: ps) Hn Hin) as [Hm1 Hm2].
    destruct (minOf64_bounds o (p :: ps) Hn Hin) as [Hn1 Hn2].
    apply (push64_sound w); [assumption | | reflexivity |].
    + apply (part002_candle64_bounded _ o (p :: ps) p ps); auto.
    + intros q Eq. cbn. congruence.
Qed.

Lemma pricedTrades64_number (tradeEvents : list Trade) :
  Forall (fun t => forall p, calculatePrice (data t) = Some p ->
                             PrimFloat.is_nan p = false) tradeEvents ->
  Forall (fun pt => PrimFloat.is_nan (Candles64.price pt) = false)
         (Candles64.pricedTrades toDouble isInverted tradeEvents).
Proof.
  unfold Candles64.pricedTrades. induction 1 as [|t l Ht _ IH]; simpl.
  - constructor.
  - apply Forall_app. split; [|exact IH].
    fold calculatePrice. destruct (calculatePrice (data t)) as [p|] eqn:E;
      [|constructor].
    repeat constructor. cbn. now apply Ht.
Qed.

(** Whatever doubles the amounts parse to and whatever the width: when no
    trade has a price that is [NaN], every candle [part_002] returns carries
    four numbers with [low <= open <= high] and [low <= close <= high], and
    every candle after the first has an open that [==] the close of the one
    before. *)
Theorem legacy_candles64_bounded_and_continuous (minutes currentTime : Z)
        (tradeEvents : list Trade) (cs : list Candles64.Candle) :
  Forall (fun t => forall p,
            Candles64.calculatePrice toDouble isInverted (data t) = Some p ->
            PrimFloat.is_nan p = false) tradeEvents ->
  Candles64.part002_processSwapEvents toDouble minutes isInverted currentTime
                                      tradeEvents = Some cs ->
  Forall Candles64.ohlc_bounded cs /\
  forall i a b, nth_error cs i = Some a -> nth_error cs (S i) = Some b ->
                Candles64.opens_at_close a b.
Proof.
  intros Hp. apply pricedTrades64_number in Hp.
  unfold Candles64.part002_processSwapEvents.
  destruct (Candles64.pricedTrades toDouble isInverted tradeEvents)
    as [|t ts] eqn:Et.
  - intros [= <-]. split; [constructor|]. intros [|i] a b; discriminate.
  - destruct (Part002.intervals _ _ _) as [|first later]; [discriminate|].
    intros [= <-].
    assert (Hs : sound
              (fold_left (Candles64.part002_visitInterval minutes (t :: ts) false)
                         later
                         (Candles64.part002_visitInterval minutes (t :: ts) true
                                                          Candles64.walk_start
                                                          first))).
    { generalize (part002_first64_sound minutes (t :: ts) first Hp).
      generalize (Candles64.part002_visitInterval minutes (t :: ts) true
                                                  Candles64.walk_start first) as w.
      induction later as [|k later IH]; intros w Hw; cbn [fold_left];
        [assumption|].
      apply IH. now apply part002_later64_sound. }
    destruct Hs as (Hb & Hch & _). split; [exact Hb|].
    eapply chained64_nth; eauto.
Qed.

End Sound64.

Lemma candles64_within_bounds_witness :
  Forall Candles64.ohlc_bounded
         (Candles64.chartjs_processSwapEvents Candles64.sample_toDouble 60 true
                                              with_overflow) /\
  Forall Candles64.ohlc_bounded
         (Candles64.part003_processSwapEvents Candles64.sample_toDouble 60 true
                                              (150 * minute)
                                              with_overflow).
Proof.
  apply (candles64_within_bounds Candles64.sample_toDouble true 60 (150 * minute)
           with_overflow).
  - simpl; tauto.
  - repeat apply Forall_cons; try apply Forall_nil;
      (eexists; split; [reflexivity | reflexivity]).
Defined.

Lemma candles64_continuous_witness :
  let cs := Candles64.part003_processSwapEvents Candles64.sample_toDouble 60 false
              (150 * minute) with_overflow in
  exists a b,
    nth_error cs 1 = Some a /\ nth_error cs 2 = Some b /\
    Candles64.close a = Some PrimFloat.infinity /\
    Candles64.opens_at_close a b.
Proof.
  intros cs.
  destruct (nth_error cs 1) as [a|] eqn:Ea; [|discriminate Ea].
  destruct (nth_error cs 2) as [b|] eqn:Eb; [|discriminate Eb].
  exists a, b. repeat split.
  - vm_compute in Ea. injection Ea as <-. reflexivity.
  - apply (candles64_continuous Candles64.sample_toDouble false 60 (150 * minute)
             with_overflow) with (cs := cs) (i := 1%nat).
    + simpl; tauto.
    + repeat apply Forall_cons; try apply Forall_nil;
        (eexists; split; [reflexivity | reflexivity]).
    + right. reflexivity.
    + exact Ea.
    + exact Eb.
Defined.

Lemma legacy_candles64_bounded_and_continuous_witness :
  exists cs,
    Candles64.part002_processSwapEvents Candles64.sample_toDouble 60 true
      (150 * minute) (unpriced 1000 :: with_overflow) = Some cs /\
    length cs = 3%nat /\
    Forall Candles64.ohlc_bounded cs.
Proof.
  destruct (Candles64.part002_processSwapEvents Candles64.sample_toDouble 60 true
              (150 * minute) (unpriced 1000 :: with_overflow))
    as [cs|] eqn:E; [|discriminate E].
  exists cs. split; [reflexivity|]. split.
  - vm_compute in E. injection E as <-. reflexivity.
  - apply (legacy_candles64_bounded_and_continuous Candles64.sample_toDouble true
             60 (150 * minute) (unpriced 1000 :: with_overflow) cs).
    + repeat apply Forall_cons; try apply Forall_nil;
        intros p Ep; vm_compute in Ep; try discriminate Ep;
        injection Ep as <-; reflexivity.
    + exact E.
Defined.

